(** * Unscented Kalman filter (src/ukf.cpp): shallow embedding and properties

    The C++ program works on [double] values held in Eigen vectors and
    matrices.  This development models a [double] by a real number of
    the Standard Library ([R]): every arithmetic operation is exact, the
    constant [M_PI] is [PI], and the narrowing to [float] of a few local
    variables of [ProcessMeasurement] is the identity.  An Eigen vector
    is a list of reals, an Eigen matrix the list of its rows, a
    sigma-point matrix the list of its columns (one column per point).
    Eigen itself is a library outside the program: its product,
    transpose and inverse are modelled by their mathematical
    definitions, its Cholesky factorization by the loop it runs, with
    the return of that loop on a pivot that is not positive. *)

From Stdlib Require Import Reals Lra Psatz List ZArith Lia Bool.
From Equations Require Import Equations.
Import ListNotations.
Open Scope R_scope.

(** ** Vectors and matrices *)

Abbreviation Vec := (list R) (only parsing).
Abbreviation Mat := (list (list R)) (only parsing).

Module LinAlg.

Definition vnth (i : nat) (v : Vec) : R := nth i v 0.

Definition mnth (i j : nat) (M : Mat) : R := vnth j (nth i M []).

Fixpoint vadd (u v : Vec) : Vec :=
  match u, v with
  | a :: u', b :: v' => (a + b) :: vadd u' v'
  | _, _ => []
  end.

Fixpoint vsub (u v : Vec) : Vec :=
  match u, v with
  | a :: u', b :: v' => (a - b) :: vsub u' v'
  | _, _ => []
  end.

Definition vscale (c : R) (v : Vec) : Vec := map (fun a => c * a) v.

Fixpoint dot (u v : Vec) : R :=
  match u, v with
  | a :: u', b :: v' => a * b + dot u' v'
  | _, _ => 0
  end.

Definition zeros (n : nat) : Vec := repeat 0 n.

Definition mzeros (m n : nat) : Mat := repeat (zeros n) m.

Fixpoint madd (A B : Mat) : Mat :=
  match A, B with
  | r :: A', s :: B' => vadd r s :: madd A' B'
  | _, _ => []
  end.

Fixpoint msub (A B : Mat) : Mat :=
  match A, B with
  | r :: A', s :: B' => vsub r s :: msub A' B'
  | _, _ => []
  end.

Definition mscale (c : R) (A : Mat) : Mat := map (vscale c) A.

Definition ncols (A : Mat) : nat := length (hd [] A).

Definition col (j : nat) (A : Mat) : Vec := map (vnth j) A.

Definition transpose (A : Mat) : Mat :=
  map (fun j => col j A) (seq 0 (ncols A)).

(** Matrix times column vector. *)
Definition mv (A : Mat) (v : Vec) : Vec := map (fun r => dot r v) A.

Definition mmul (A B : Mat) : Mat :=
  map (fun r => map (fun j => dot r (col j B)) (seq 0 (ncols B))) A.

(** Column vector times row vector: [u * v.transpose()]. *)
Definition outer (u v : Vec) : Mat := map (fun a => vscale a v) u.

Definition identity (n : nat) : Mat :=
  map (fun i => map (fun j => if Nat.eqb i j then 1 else 0) (seq 0 n))
      (seq 0 n).

(** [v(i) = a]; Eigen does not grow a vector, an index out of range
    leaves the list as it is. *)
Fixpoint vset (i : nat) (a : R) (v : Vec) : Vec :=
  match v, i with
  | [], _ => []
  | _ :: v', O => a :: v'
  | b :: v', S i' => b :: vset i' a v'
  end.

Definition has_dims (m n : nat) (A : Mat) : Prop :=
  length A = m /\ Forall (fun r => length r = n) A.

Definition symmetric (n : nat) (A : Mat) : Prop :=
  forall i j, (i < n)%nat -> (j < n)%nat -> mnth i j A = mnth j i A.

(** Positive semi-definite: the quadratic form is nowhere negative. *)
Definition psd (n : nat) (A : Mat) : Prop :=
  forall u : Vec, length u = n -> 0 <= dot u (mv A u).

(** [A.inverse()] at the two sizes the filter inverts, by cofactors.
    For a determinant other than zero this is the inverse, which is
    what Eigen returns.  For a determinant of zero Eigen's result holds
    infinities and NaN, which the reals do not have (a division by zero
    is 0 here): what the properties below say about the gain, the
    corrected mean and covariance and the NIS is said of the code only
    where the determinant is not zero. *)
Definition det2 (A : Mat) : R :=
  mnth 0 0 A * mnth 1 1 A - mnth 0 1 A * mnth 1 0 A.

Definition inverse2 (A : Mat) : Mat :=
  let d := det2 A in
  [ [ mnth 1 1 A / d; - mnth 0 1 A / d ];
    [ - mnth 1 0 A / d; mnth 0 0 A / d ] ].

Definition det3 (A : Mat) : R :=
  mnth 0 0 A * (mnth 1 1 A * mnth 2 2 A - mnth 1 2 A * mnth 2 1 A)
  - mnth 0 1 A * (mnth 1 0 A * mnth 2 2 A - mnth 1 2 A * mnth 2 0 A)
  + mnth 0 2 A * (mnth 1 0 A * mnth 2 1 A - mnth 1 1 A * mnth 2 0 A).

Definition inverse3 (A : Mat) : Mat :=
  let d := det3 A in
  let a := mnth 0 0 A in let b := mnth 0 1 A in let c := mnth 0 2 A in
  let e := mnth 1 0 A in let f := mnth 1 1 A in let g := mnth 1 2 A in
  let h := mnth 2 0 A in let k := mnth 2 1 A in let l := mnth 2 2 A in
  [ [ (f * l - g * k) / d; (c * k - b * l) / d; (b * g - c * f) / d ];
    [ (g * h - e * l) / d; (a * l - c * h) / d; (c * e - a * g) / d ];
    [ (e * k - f * h) / d; (b * h - a * k) / d; (a * f - b * e) / d ] ].

Definition inverse (A : Mat) : Mat :=
  match length A with
  | 2%nat => inverse2 A
  | 3%nat => inverse3 A
  | _ => A
  end.

(** [A.llt().matrixL()].  [llt()] copies [A] and factors the copy in
    place with [llt_inplace<Scalar, Lower>::unblocked] (the routine
    Eigen takes below size 32), one column [k] after the other:

      x = mat(k,k) - A10.squaredNorm();   A10 = row k, columns 0..k-1
      if (x <= 0) return k;
      mat(k,k) = x = sqrt(x);
      A21 -= A20 * A10.adjoint();         A21 = column k below row k
      A21 /= x;                           A20 = rows below k, columns 0..k-1

    On a pivot that is not positive the routine returns at once and
    leaves column [k] and the columns after it as they were in [A].
    [llt_step] is one pass of that loop, [None] standing for the
    return. *)
Definition llt_step (k : nat) (mat : Mat) : option Mat :=
  let A10 := firstn k (nth k mat []) in
  let x := mnth k k mat - dot A10 A10 in
  if Rle_dec x 0 then None
  else
    let x := sqrt x in
    Some (map (fun i =>
                 let row := nth i mat [] in
                 if (i <? k)%nat then row
                 else if (i =? k)%nat then vset k x row
                 else vset k ((vnth k row - dot (firstn k row) A10) / x) row)
              (seq 0 (length mat))).

Fixpoint llt_unblocked (ks : list nat) (mat : Mat) : Mat :=
  match ks with
  | [] => mat
  | k :: ks' =>
      match llt_step k mat with
      | None => mat
      | Some mat' => llt_unblocked ks' mat'
      end
  end.

(** [matrixL()] is the lower triangular view of the factored copy: the
    entries on and below the diagonal, zero above it. *)
Definition lower_view (n : nat) (mat : Mat) : Mat :=
  map (fun i => map (fun j => if (j <=? i)%nat then mnth i j mat else 0)
                    (seq 0 n))
      (seq 0 n).

Definition cholesky (A : Mat) : Mat :=
  let n := length A in
  lower_view n (llt_unblocked (seq 0 n) A).

(** [G] is a Cholesky factor of [A]: lower triangular with a positive
    diagonal, and [G G^T = A].  A matrix has one exactly when it is
    symmetric positive definite. *)
Definition lower_triangular (n : nat) (G : Mat) : Prop :=
  forall i j, (i < j)%nat -> (j < n)%nat -> mnth i j G = 0.

Definition is_factor (n : nat) (G A : Mat) : Prop :=
  has_dims n n G /\ lower_triangular n G /\
  (forall k, (k < n)%nat -> 0 < mnth k k G) /\
  mmul G (transpose G) = A.

Definition has_factor (n : nat) (A : Mat) : Prop :=
  exists G, is_factor n G A.

End LinAlg.
Import LinAlg.

(** ** Angle normalization

    [while (a > M_PI) a -= 2.*M_PI;  while (a < -M_PI) a += 2.*M_PI;]
    written four times in the source (lines 253-254, 352-353, 381-382,
    394-395).  Each loop runs a number of times bounded by the distance
    of the angle to the interval, which is the measure below. *)

Definition turns_above (a : R) : nat := Z.to_nat (up ((a - PI) / (2 * PI))).

Definition turns_below (a : R) : nat := Z.to_nat (up ((- PI - a) / (2 * PI))).

Lemma up_minus_one (r : R) : up (r - 1) = (up r - 1)%Z.
Proof.
  symmetry. apply tech_up.
  - rewrite minus_IZR. destruct (archimed r) as [H _]. lra.
  - rewrite minus_IZR. destruct (archimed r) as [_ H]. lra.
Qed.

Lemma up_pos (r : R) : 0 < r -> (0 < up r)%Z.
Proof.
  intros Hr. destruct (archimed r) as [H _].
  apply lt_IZR. lra.
Qed.

Lemma turns_above_decr (a : R) :
  a > PI -> (turns_above (a - 2 * PI) < turns_above a)%nat.
Proof.
  intros Ha. unfold turns_above.
  pose proof PI_RGT_0 as Hpi.
  replace ((a - 2 * PI - PI) / (2 * PI)) with ((a - PI) / (2 * PI) - 1)
    by (field; lra).
  rewrite up_minus_one.
  assert (0 < up ((a - PI) / (2 * PI)))%Z.
  { apply up_pos. apply Rdiv_lt_0_compat; lra. }
  lia.
Qed.

Lemma turns_below_decr (a : R) :
  a < - PI -> (turns_below (a + 2 * PI) < turns_below a)%nat.
Proof.
  intros Ha. unfold turns_below.
  pose proof PI_RGT_0 as Hpi.
  replace ((- PI - (a + 2 * PI)) / (2 * PI)) with ((- PI - a) / (2 * PI) - 1)
    by (field; lra).
  rewrite up_minus_one.
  assert (0 < up ((- PI - a) / (2 * PI)))%Z.
  { apply up_pos. apply Rdiv_lt_0_compat; lra. }
  lia.
Qed.

Equations? wrap_down (a : R) : R by wf (turns_above a) lt :=
  wrap_down a with Rgt_dec a PI => {
    | left _ => wrap_down (a - 2 * PI)
    | right _ => a }.
Proof. apply turns_above_decr; assumption. Qed.

Equations? wrap_up (a : R) : R by wf (turns_below a) lt :=
  wrap_up a with Rlt_dec a (- PI) => {
    | left _ => wrap_up (a + 2 * PI)
    | right _ => a }.
Proof. apply turns_below_decr; assumption. Qed.

Definition normalize_angle (a : R) : R := wrap_up (wrap_down a).

(** A pass of either loop changes a [double] only while the [double]
    is fine enough to tell [a] from [a - 2 pi]: from 2^56 on it is not,
    the value stays what it is and the loop does not return.  What is
    said below of a normalized angle is said for arguments of magnitude
    at most 2^53, where the spacing of the [double]s is at most 1. *)
Definition angle_reach : R := 9007199254740992.

Definition in_reach (a : R) : Prop := Rabs a <= angle_reach.

(** [atan2] of the C library: the angle of the point [(x, y)], in
    [(-PI, PI]], with [atan2 0 0 = 0]. *)
Definition atan2 (y x : R) : R :=
  if Rlt_dec 0 x then atan (y / x)
  else if Rlt_dec x 0 then
         if Rle_dec 0 y then atan (y / x) + PI else atan (y / x) - PI
  else if Rlt_dec 0 y then PI / 2
  else if Rlt_dec y 0 then - (PI / 2)
  else 0.

(** ** The filter state

    Modelled from the spec: the declarations of [ukf.h] and
    [measurement_package.h] are not among the sources.  The measurement
    record has a sensor kind of two variants, a raw measurement vector
    and an integer timestamp in microseconds; the fields of the filter
    are those [ukf.cpp] reads and writes, with [lambda_] a [double].
    Timestamps are unbounded integers: the one subtraction the code
    makes on them stays far from the limits of a 64-bit integer for
    microsecond clocks. *)

Inductive SensorType : Type := LASER | RADAR.

Record MeasurementPackage : Type := mkMeas {
  timestamp_ : Z;
  sensor_type_ : SensorType;
  raw_measurements_ : Vec
}.

Record UKF : Type := mkUKF {
  is_initialized_ : bool;
  use_laser_ : bool;
  use_radar_ : bool;
  x_ : Vec;
  P_ : Mat;
  Xsig_pred_ : list Vec;
  time_us_ : Z;
  std_a_ : R;
  std_yawdd_ : R;
  std_laspx_ : R;
  std_laspy_ : R;
  std_radr_ : R;
  std_radphi_ : R;
  std_radrd_ : R;
  NIS_radar_ : R;
  NIS_laser_ : R
}.

(** Dimensions, spreading parameter and weights are written once by the
    constructor (lines 61-77) and only read afterwards. *)
Definition n_x_ : nat := 5.
Definition n_aug_ : nat := 7.
Definition lambda_ : R := IZR (3 - Z.of_nat n_aug_).
Definition n_sig : nat := 2 * n_aug_ + 1.

Definition weights_ : Vec :=
  let weight_0 := lambda_ / (lambda_ + INR n_aug_) in
  weight_0 :: map (fun _ => 0.5 / (INR n_aug_ + lambda_)) (seq 1 (n_sig - 1)).

(** [UKF::UKF()], lines 14-88.  The constructor allocates [Xsig_pred_]
    without writing to it; here it starts as zeros. *)
Definition UKF_new : UKF :=
  {| is_initialized_ := false;
     use_laser_ := true;
     use_radar_ := true;
     x_ := [1; 1; 9; 0; 0];
     P_ := [ [0.5; 0; 0; 0; 0];
             [0; 0.5; 0; 0; 0.5];
             [0; 0; 0.5; 0; 0];
             [0; 0; 0; 0.5; 0];
             [0; 0.5; 0; 0; 0.5] ];
     Xsig_pred_ := repeat (zeros n_x_) n_sig;
     time_us_ := 0%Z;
     std_a_ := 0.5;
     std_yawdd_ := 2;
     std_laspx_ := 0.15;
     std_laspy_ := 0.15;
     std_radr_ := 0.3;
     std_radphi_ := 0.03;
     std_radrd_ := 0.3;
     NIS_radar_ := 0;
     NIS_laser_ := 0 |}.

(** Field assignments. *)
Definition set_x (st : UKF) (v : Vec) : UKF :=
  mkUKF (is_initialized_ st) (use_laser_ st) (use_radar_ st) v (P_ st)
        (Xsig_pred_ st) (time_us_ st) (std_a_ st) (std_yawdd_ st)
        (std_laspx_ st) (std_laspy_ st) (std_radr_ st) (std_radphi_ st)
        (std_radrd_ st) (NIS_radar_ st) (NIS_laser_ st).

Definition set_P (st : UKF) (M : Mat) : UKF :=
  mkUKF (is_initialized_ st) (use_laser_ st) (use_radar_ st) (x_ st) M
        (Xsig_pred_ st) (time_us_ st) (std_a_ st) (std_yawdd_ st)
        (std_laspx_ st) (std_laspy_ st) (std_radr_ st) (std_radphi_ st)
        (std_radrd_ st) (NIS_radar_ st) (NIS_laser_ st).

Definition set_Xsig_pred (st : UKF) (X : list Vec) : UKF :=
  mkUKF (is_initialized_ st) (use_laser_ st) (use_radar_ st) (x_ st) (P_ st)
        X (time_us_ st) (std_a_ st) (std_yawdd_ st)
        (std_laspx_ st) (std_laspy_ st) (std_radr_ st) (std_radphi_ st)
        (std_radrd_ st) (NIS_radar_ st) (NIS_laser_ st).

Definition set_time_us (st : UKF) (t : Z) : UKF :=
  mkUKF (is_initialized_ st) (use_laser_ st) (use_radar_ st) (x_ st) (P_ st)
        (Xsig_pred_ st) t (std_a_ st) (std_yawdd_ st)
        (std_laspx_ st) (std_laspy_ st) (std_radr_ st) (std_radphi_ st)
        (std_radrd_ st) (NIS_radar_ st) (NIS_laser_ st).

Definition set_is_initialized (st : UKF) (b : bool) : UKF :=
  mkUKF b (use_laser_ st) (use_radar_ st) (x_ st) (P_ st)
        (Xsig_pred_ st) (time_us_ st) (std_a_ st) (std_yawdd_ st)
        (std_laspx_ st) (std_laspy_ st) (std_radr_ st) (std_radphi_ st)
        (std_radrd_ st) (NIS_radar_ st) (NIS_laser_ st).

Definition set_NIS_radar (st : UKF) (e : R) : UKF :=
  mkUKF (is_initialized_ st) (use_laser_ st) (use_radar_ st) (x_ st) (P_ st)
        (Xsig_pred_ st) (time_us_ st) (std_a_ st) (std_yawdd_ st)
        (std_laspx_ st) (std_laspy_ st) (std_radr_ st) (std_radphi_ st)
        (std_radrd_ st) e (NIS_laser_ st).

Definition set_NIS_laser (st : UKF) (e : R) : UKF :=
  mkUKF (is_initialized_ st) (use_laser_ st) (use_radar_ st) (x_ st) (P_ st)
        (Xsig_pred_ st) (time_us_ st) (std_a_ st) (std_yawdd_ st)
        (std_laspx_ st) (std_laspy_ st) (std_radr_ st) (std_radphi_ st)
        (std_radrd_ st) (NIS_radar_ st) e.

(** ** Prediction (lines 155-259) *)

(** Lines 159-171: [x_aug.head(5) = x_; x_aug(5) = 0; x_aug(6) = 0]. *)
Definition augmented_mean (st : UKF) : Vec := x_ st ++ [0; 0].

(** Lines 173-177: zero matrix, [P_] in the top left corner, the two
    process-noise variances on the diagonal. *)
Definition augmented_cov (st : UKF) : Mat :=
  map (fun r => r ++ [0; 0]) (P_ st)
  ++ [ zeros n_x_ ++ [std_a_ st * std_a_ st; 0];
       zeros n_x_ ++ [0; std_yawdd_ st * std_yawdd_ st] ].

(** Lines 183-189: column 0 is the mean, column [i+1] the mean plus and
    column [i+1+n_aug_] the mean minus the scaled column [i] of [L]. *)
Definition sigma_points (x_aug : Vec) (L : Mat) : list Vec :=
  let sqrt_lambda := sqrt (lambda_ + INR n_aug_) in
  x_aug
  :: map (fun i => vadd x_aug (vscale sqrt_lambda (col i L))) (seq 0 n_aug_)
  ++ map (fun i => vsub x_aug (vscale sqrt_lambda (col i L))) (seq 0 n_aug_).

(** Lines 196-234: the body of the loop over the sigma points, one
    augmented point in, one predicted point out. *)
Definition ctrv (delta_t : R) (p : Vec) : Vec :=
  let p_x := vnth 0 p in
  let p_y := vnth 1 p in
  let v := vnth 2 p in
  let yaw := vnth 3 p in
  let yawd := vnth 4 p in
  let nu_a := vnth 5 p in
  let nu_yawdd := vnth 6 p in
  let '(px_p, py_p) :=
    if Rgt_dec (Rabs yawd) 0.001 then
      (p_x + v / yawd * (sin (yaw + yawd * delta_t) - sin yaw),
       p_y + v / yawd * (cos yaw - cos (yaw + yawd * delta_t)))
    else
      (p_x + v * delta_t * cos yaw,
       p_y + v * delta_t * sin yaw) in
  let v_p := v in
  let yaw_p := yaw + yawd * delta_t in
  let yawd_p := yawd in
  let px_p := px_p + 0.5 * nu_a * delta_t * delta_t * cos yaw in
  let py_p := py_p + 0.5 * nu_a * delta_t * delta_t * sin yaw in
  let v_p := v_p + nu_a * delta_t in
  let yaw_p := yaw_p + 0.5 * nu_yawdd * delta_t * delta_t in
  let yawd_p := yawd_p + nu_yawdd * delta_t in
  [px_p; py_p; v_p; yaw_p; yawd_p].

(** Lines 241-244 (and 340-344): [m.fill(0); for i: m = m + w(i) * X.col(i)]. *)
Definition weighted_mean (n : nat) (X : list Vec) : Vec :=
  fold_left (fun m i => vadd m (vscale (vnth i weights_) (nth i X [])))
            (seq 0 n_sig) (zeros n).

(** A difference vector with the angle at index [k] normalized. *)
Definition normalized_diff (k : nat) (a b : Vec) : Vec :=
  let d := vsub a b in
  vset k (normalize_angle (vnth k d)) d.

(** Lines 247-257. *)
Definition predicted_cov (X : list Vec) (x : Vec) : Mat :=
  fold_left
    (fun P i =>
       let x_diff := normalized_diff 3 (nth i X []) x in
       madd P (outer (vscale (vnth i weights_) x_diff) x_diff))
    (seq 0 n_sig) (mzeros n_x_ n_x_).

Definition Prediction (st : UKF) (delta_t : R) : UKF :=
  let x_aug := augmented_mean st in
  let P_aug := augmented_cov st in
  let L := cholesky P_aug in
  let Xsig_aug := sigma_points x_aug L in
  let Xsig_pred := map (ctrv delta_t) Xsig_aug in
  let st := set_Xsig_pred st Xsig_pred in
  let st := set_x st (weighted_mean n_x_ (Xsig_pred_ st)) in
  set_P st (predicted_cov (Xsig_pred_ st) (x_ st)).

(** ** Lidar update (lines 265-298) *)

Definition H_laser : Mat := [ [1; 0; 0; 0; 0]; [0; 1; 0; 0; 0] ].

Definition R_laser (st : UKF) : Mat :=
  [ [std_laspx_ st * std_laspx_ st; 0];
    [0; std_laspy_ st * std_laspy_ st] ].

(** [y.transpose() * Si * y]: the row vector [y^T Si], then its product
    with [y]. *)
Definition quad_form (y : Vec) (Si : Mat) : R :=
  dot (map (fun j => dot y (col j Si)) (seq 0 (ncols Si))) y.

(** Line 281: [y = z - H_laser * x_]. *)
Definition lidar_y (st : UKF) (z : Vec) : Vec :=
  let z_pred := mv H_laser (x_ st) in
  vsub z z_pred.

(** Lines 282-283: [S = H_laser * P_ * Ht + R]. *)
Definition lidar_S (st : UKF) : Mat :=
  let Ht := transpose H_laser in
  madd (mmul (mmul H_laser (P_ st)) Ht) (R_laser st).

(** Lines 284-285: [K = P_ * Ht * Si]. *)
Definition lidar_K (st : UKF) : Mat :=
  let Ht := transpose H_laser in
  let Si := inverse (lidar_S st) in
  mmul (mmul (P_ st) Ht) Si.

Definition UpdateLidar (st : UKF) (meas_package : MeasurementPackage) : UKF :=
  let y := lidar_y st (raw_measurements_ meas_package) in
  let Si := inverse (lidar_S st) in
  let K := lidar_K st in
  let P := P_ st in
  let st := set_x st (vadd (x_ st) (mv K y)) in
  let I := identity n_x_ in
  let st := set_P st (mmul (msub I (mmul K H_laser)) P) in
  set_NIS_laser st (quad_form y Si).

(** ** Radar update (lines 304-407) *)

(** Lines 329-333: the range of a predicted sigma point, raised to
    0.001 when it is smaller. *)
Definition radar_range (p : Vec) : R :=
  let p_x := vnth 0 p in
  let p_y := vnth 1 p in
  let r := sqrt (p_x * p_x + p_y * p_y) in
  if Rlt_dec (Rabs r) 0.001 then 0.001 else r.

(** Lines 320-336: one predicted sigma point mapped to measurement
    space. *)
Definition radar_h (p : Vec) : Vec :=
  let p_x := vnth 0 p in
  let p_y := vnth 1 p in
  let v := vnth 2 p in
  let yaw := vnth 3 p in
  let v1 := cos yaw * v in
  let v2 := sin yaw * v in
  let r := radar_range p in
  [ r; atan2 p_y p_x; (p_x * v1 + p_y * v2) / r ].

Definition R_radar (st : UKF) : Mat :=
  [ [std_radr_ st * std_radr_ st; 0; 0];
    [0; std_radphi_ st * std_radphi_ st; 0];
    [0; 0; std_radrd_ st * std_radrd_ st] ].

Definition n_z_radar : nat := 3.

(** Lines 317-337: the sigma points in measurement space. *)
Definition radar_Zsig (st : UKF) : list Vec :=
  map (fun i => radar_h (nth i (Xsig_pred_ st) [])) (seq 0 n_sig).

(** Lines 340-344. *)
Definition radar_z_pred (st : UKF) : Vec :=
  weighted_mean n_z_radar (radar_Zsig st).

(** Lines 347-356: the residuals, bearing normalized. *)
Definition radar_z_diff (st : UKF) : list Vec :=
  map (fun i => normalized_diff 1 (nth i (radar_Zsig st) []) (radar_z_pred st))
      (seq 0 n_sig).

(** Lines 359-370. *)
Definition radar_S (st : UKF) : Mat :=
  let z_diff := radar_z_diff st in
  let S :=
    fold_left
      (fun S i =>
         madd S (outer (vscale (vnth i weights_) (nth i z_diff []))
                       (nth i z_diff [])))
      (seq 0 n_sig) (mzeros n_z_radar n_z_radar) in
  madd S (R_radar st).

(** Lines 375-385. *)
Definition radar_Tc (st : UKF) : Mat :=
  let z_diff := radar_z_diff st in
  fold_left
    (fun Tc i =>
       let x_diff := normalized_diff 3 (nth i (Xsig_pred_ st) []) (x_ st) in
       madd Tc (outer (vscale (vnth i weights_) x_diff) (nth i z_diff [])))
    (seq 0 n_sig) (mzeros n_x_ n_z_radar).

(** Line 388. *)
Definition radar_K (st : UKF) : Mat :=
  mmul (radar_Tc st) (inverse (radar_S st)).

(** Lines 391-395: the residual of the actual measurement. *)
Definition radar_residual (st : UKF) (z : Vec) : Vec :=
  normalized_diff 1 z (radar_z_pred st).

Definition UpdateRadar (st : UKF) (meas_package : MeasurementPackage) : UKF :=
  let S := radar_S st in
  let K := radar_K st in
  let z_diff_real := radar_residual st (raw_measurements_ meas_package) in
  let P := P_ st in
  let st := set_x st (vadd (x_ st) (mv K z_diff_real)) in
  let st := set_P st (msub P (mmul (mmul K S) (transpose K))) in
  set_NIS_radar st (quad_form z_diff_real (inverse S)).

(** ** ProcessMeasurement (lines 96-148) *)

(** Lines 105-114: the two position entries of the mean, from the first
    measurement. *)
Definition initial_position (x : Vec) (m : MeasurementPackage) : Vec :=
  match sensor_type_ m with
  | RADAR =>
      let ro := vnth 0 (raw_measurements_ m) in
      let phi := vnth 1 (raw_measurements_ m) in
      vset 1 (ro * sin phi) (vset 0 (ro * cos phi) x)
  | LASER =>
      vset 1 (vnth 1 (raw_measurements_ m))
           (vset 0 (vnth 0 (raw_measurements_ m)) x)
  end.

(** Line 127: the elapsed time in seconds. *)
Definition elapsed (st : UKF) (m : MeasurementPackage) : R :=
  IZR (timestamp_ m - time_us_ st) / 1000000.0.

Definition ProcessMeasurement (st : UKF) (meas_package : MeasurementPackage)
  : UKF :=
  if negb (is_initialized_ st) then
    let st := set_x st (initial_position (x_ st) meas_package) in
    let st := set_is_initialized st true in
    set_time_us st (timestamp_ meas_package)
  else
    let dt := elapsed st meas_package in
    let st := set_time_us st (timestamp_ meas_package) in
    let st := Prediction st dt in
    match sensor_type_ meas_package with
    | RADAR => UpdateRadar st meas_package
    | LASER => UpdateLidar st meas_package
    end.

(** The filter fed a whole sequence of measurements, one call each. *)
Definition run (st : UKF) (ms : list MeasurementPackage) : UKF :=
  fold_left ProcessMeasurement ms st.

(** ** Finite sums, for stating what the loops accumulate *)

Definition Rsum (l : list R) : R := fold_right Rplus 0 l.

Definition sum_upto (n : nat) (f : nat -> R) : R := Rsum (map f (seq 0 n)).

(** ** Divisions made explicit

    The two places where [ukf.cpp] divides by a computed quantity, with
    the division checked: [None] stands for a division by zero. *)

Definition checked_div (a b : R) : option R :=
  if Req_dec_T b 0 then None else Some (a / b).

(** Lines 207-215: the position part of [ctrv]. *)
Definition ctrv_position_checked (delta_t : R) (p : Vec) : option (R * R) :=
  let p_x := vnth 0 p in
  let p_y := vnth 1 p in
  let v := vnth 2 p in
  let yaw := vnth 3 p in
  let yawd := vnth 4 p in
  if Rgt_dec (Rabs yawd) 0.001 then
    match checked_div v yawd, checked_div v yawd with
    | Some qx, Some qy =>
        Some (p_x + qx * (sin (yaw + yawd * delta_t) - sin yaw),
              p_y + qy * (cos yaw - cos (yaw + yawd * delta_t)))
    | _, _ => None
    end
  else
    Some (p_x + v * delta_t * cos yaw, p_y + v * delta_t * sin yaw).

Definition ctrv_checked (delta_t : R) (p : Vec) : option Vec :=
  let v := vnth 2 p in
  let yaw := vnth 3 p in
  let yawd := vnth 4 p in
  let nu_a := vnth 5 p in
  let nu_yawdd := vnth 6 p in
  match ctrv_position_checked delta_t p with
  | Some (px_p, py_p) =>
      Some [ px_p + 0.5 * nu_a * delta_t * delta_t * cos yaw;
             py_p + 0.5 * nu_a * delta_t * delta_t * sin yaw;
             v + nu_a * delta_t;
             yaw + yawd * delta_t + 0.5 * nu_yawdd * delta_t * delta_t;
             yawd + nu_yawdd * delta_t ]
  | None => None
  end.

(** Lines 329-336: the range rate, its division checked. *)
Definition radar_h_checked (p : Vec) : option Vec :=
  let p_x := vnth 0 p in
  let p_y := vnth 1 p in
  let v := vnth 2 p in
  let yaw := vnth 3 p in
  let v1 := cos yaw * v in
  let v2 := sin yaw * v in
  let r := radar_range p in
  match checked_div (p_x * v1 + p_y * v2) r with
  | Some r_dot => Some [ r; atan2 p_y p_x; r_dot ]
  | None => None
  end.

(** ** The two sensor switches

    [use_laser_] and [use_radar_] are written by the constructor (lines
    19-23); this is the state with the two switches set as given. *)
Definition with_flags (st : UKF) (laser radar : bool) : UKF :=
  mkUKF (is_initialized_ st) laser radar (x_ st) (P_ st)
        (Xsig_pred_ st) (time_us_ st) (std_a_ st) (std_yawdd_ st)
        (std_laspx_ st) (std_laspy_ st) (std_radr_ st) (std_radphi_ st)
        (std_radrd_ st) (NIS_radar_ st) (NIS_laser_ st).

(** ** Closed forms

    The equations of the specification written out entry by entry, to
    compare with what the matrix code computes. *)

Module Closed.

(** [y = z - H x] with [H] keeping the first two state entries. *)
Definition innovation (x z : Vec) : Vec :=
  [ vnth 0 z - vnth 0 x; vnth 1 z - vnth 1 x ].

(** [S = H P H^T + R], [R = diag (rx^2, ry^2)]. *)
Definition innovation_cov (P : Mat) (rx ry : R) : Mat :=
  [ [ mnth 0 0 P + rx * rx; mnth 0 1 P ];
    [ mnth 1 0 P; mnth 1 1 P + ry * ry ] ].

(** [K = P H^T Si]: the first two columns of [P] times [Si]. *)
Definition gain (P Si : Mat) : Mat :=
  map (fun j => [ mnth j 0 P * mnth 0 0 Si + mnth j 1 P * mnth 1 0 Si;
                  mnth j 0 P * mnth 0 1 Si + mnth j 1 P * mnth 1 1 Si ])
      (seq 0 n_x_).

(** [x + K y]. *)
Definition corrected_mean (x : Vec) (K : Mat) (y : Vec) : Vec :=
  map (fun j => vnth j x + (mnth j 0 K * vnth 0 y + mnth j 1 K * vnth 1 y))
      (seq 0 n_x_).

(** [(I - K H) P]. *)
Definition corrected_cov (P K : Mat) : Mat :=
  map (fun j =>
         map (fun k => mnth j k P
                       - (mnth j 0 K * mnth 0 k P + mnth j 1 K * mnth 1 k P))
             (seq 0 n_x_))
      (seq 0 n_x_).

(** [y^T Si y] for two components. *)
Definition nis2 (y : Vec) (Si : Mat) : R :=
  vnth 0 y * (mnth 0 0 Si * vnth 0 y + mnth 0 1 Si * vnth 1 y)
  + vnth 1 y * (mnth 1 0 Si * vnth 0 y + mnth 1 1 Si * vnth 1 y).

(** [Si] is the inverse of [S]. *)
Definition inverse_of (n : nat) (S Si : Mat) : Prop :=
  mmul S Si = identity n /\ mmul Si S = identity n.

(** Weighted sum over the sigma points. *)
Definition wsum (f : nat -> R) : R :=
  sum_upto n_sig (fun i => vnth i weights_ * f i).

(** The least integer that is not below [x]. *)
Definition ceiling (x : R) : Z := (1 - up (- x))%Z.

(** The normalized angle without the loops: above [PI], the angle
    minus the number of turns that brings it into (-PI, PI]; below
    [-PI], the angle plus the number of turns that brings it into
    [-PI, PI); the angle itself in between. *)
Definition normalized (a : R) : R :=
  if Rlt_dec PI a
  then a - 2 * PI * IZR (ceiling ((a - PI) / (2 * PI)))
  else if Rlt_dec a (- PI)
       then a + 2 * PI * IZR (ceiling ((- PI - a) / (2 * PI)))
       else a.

(** A difference with the angle at index [k] normalized. *)
Definition angle_at (k j : nat) (a : R) : R :=
  if Nat.eqb j k then normalized a else a.

(** State deviation, heading (index 3) normalized. *)
Definition deviation (a b : Vec) : Vec :=
  map (fun j => angle_at 3 j (vnth j a - vnth j b)) (seq 0 n_x_).

End Closed.

(** The radar equations of the specification, entry by entry. *)

Module ClosedRadar.
Import Closed.

(** One sigma point in measurement space: range floored at 0.001,
    bearing, range rate. *)
Definition radar_point (p : Vec) : Vec :=
  let px := vnth 0 p in
  let py := vnth 1 p in
  let speed := vnth 2 p in
  let heading := vnth 3 p in
  let vx := speed * cos heading in
  let vy := speed * sin heading in
  let range := Rmax (sqrt (px * px + py * py)) 0.001 in
  [ range; atan2 py px; (px * vx + py * vy) / range ].

Definition residual (a b : Vec) : Vec :=
  map (fun j => angle_at 1 j (vnth j a - vnth j b)) (seq 0 n_z_radar).

Definition measurement_mean (X : list Vec) : Vec :=
  map (fun j => wsum (fun i => vnth j (radar_point (nth i X []))))
      (seq 0 n_z_radar).

(** [S]: weighted outer products of the residuals, plus the noise. *)
Definition measurement_cov (X : list Vec) (Rn : Mat) : Mat :=
  let zm := measurement_mean X in
  let r := fun i => residual (radar_point (nth i X [])) zm in
  map (fun j =>
         map (fun k => wsum (fun i => vnth j (r i) * vnth k (r i))
                       + mnth j k Rn)
             (seq 0 n_z_radar))
      (seq 0 n_z_radar).

(** [Tc]: weighted products of state deviations and residuals. *)
Definition cross_cov (X : list Vec) (x : Vec) : Mat :=
  let zm := measurement_mean X in
  let r := fun i => residual (radar_point (nth i X [])) zm in
  let d := fun i => deviation (nth i X []) x in
  map (fun j =>
         map (fun k => wsum (fun i => vnth j (d i) * vnth k (r i)))
             (seq 0 n_z_radar))
      (seq 0 n_x_).

(** [K = Tc Si]. *)
Definition gain (Tc Si : Mat) : Mat :=
  map (fun j =>
         map (fun k => sum_upto n_z_radar (fun l => mnth j l Tc * mnth l k Si))
             (seq 0 n_z_radar))
      (seq 0 n_x_).

(** [x + K r]. *)
Definition corrected_mean (x : Vec) (K : Mat) (r : Vec) : Vec :=
  map (fun j => vnth j x + sum_upto n_z_radar (fun k => mnth j k K * vnth k r))
      (seq 0 n_x_).

(** [P - K S K^T]. *)
Definition corrected_cov (P K S : Mat) : Mat :=
  map (fun j =>
         map (fun k =>
                mnth j k P
                - sum_upto n_z_radar (fun a =>
                    sum_upto n_z_radar (fun b =>
                      mnth j a K * mnth a b S * mnth k b K)))
             (seq 0 n_x_))
      (seq 0 n_x_).

(** [r^T Si r]. *)
Definition nis (r : Vec) (Si : Mat) : R :=
  sum_upto n_z_radar (fun a =>
    sum_upto n_z_radar (fun b => vnth a r * mnth a b Si * vnth b r)).

End ClosedRadar.

(** Weighted statistics of a sigma-point set with [n_x_] entries per
    point, as the specification states them. *)

Module ClosedPrediction.
Import Closed.

(** Predicted mean: [sum_i w_i X_i]. *)
Definition mean (n : nat) (X : list Vec) : Vec :=
  map (fun j => wsum (fun i => vnth j (nth i X []))) (seq 0 n).

(** Predicted covariance: [sum_i w_i d_i d_i^T], [d_i] the deviation of
    point [i] from the mean with its heading normalized. *)
Definition covariance (X : list Vec) (x : Vec) : Mat :=
  map (fun j =>
         map (fun k =>
                wsum (fun i => vnth j (deviation (nth i X []) x)
                               * vnth k (deviation (nth i X []) x)))
             (seq 0 n_x_))
      (seq 0 n_x_).

End ClosedPrediction.

(** ** States used as concrete inputs *)

(** An initialized filter with the constructor's measurement noise, and
    mean, covariance and process noise as given. *)
Definition sample_state (x : Vec) (P : Mat) (std_a std_yawdd : R) : UKF :=
  mkUKF true true true x P (repeat (zeros n_x_) n_sig) 0%Z
        std_a std_yawdd 0.15 0.15 0.3 0.03 0.3 0 0.

(** The constructor's mean, both process-noise deviations zero. *)
Definition zero_noise_state (P : Mat) : UKF :=
  sample_state [1; 1; 9; 0; 0] P 0 0.

(** Unit variances for position and speed, each correlated with the
    heading by [a]; it is the product of the lower-triangular matrix of
    rows (1,0,0,0,0), (0,1,0,0,0), (0,0,1,0,0), (a,a,a,a,0),
    (0,0,0,0,e) with its transpose. *)
Definition correlated_cov (a e : R) : Mat :=
  [ [1; 0; 0; a; 0];
    [0; 1; 0; a; 0];
    [0; 0; 1; a; 0];
    [a; a; a; 4 * (a * a); 0];
    [0; 0; 0; 0; e * e] ].

(** At the origin, speed 9, heading and turn rate 0, with the
    constructor's process noise. *)
Definition turning_state : UKF :=
  sample_state [0; 0; 9; 0; 0] (correlated_cov (PI / sqrt 3) (1 / 2000))
               0.5 2.

(** Unit variances, except the heading variance: 12. *)
Definition wide_heading_cov : Mat :=
  [ [1; 0; 0; 0; 0];
    [0; 1; 0; 0; 0];
    [0; 0; 1; 0; 0];
    [0; 0; 0; 12; 0];
    [0; 0; 0; 0; 1] ].

(** Positive semi-definite, not definite: no variance in position x. *)
Definition singular_cov : Mat :=
  [ [0; 0; 0; 0; 0];
    [0; 4; 0; 0; 0];
    [0; 0; 1; 0; 0];
    [0; 0; 0; 1; 0];
    [0; 0; 0; 0; 1] ].

(** A filter at (5, 0) that moves along the x axis at speed 1, with
    the predicted sigma points a prediction leaves for a spread of 3 in
    position x (points 1 and 8) and of 3 in speed (points 3 and 10);
    covariance as given, the constructor's noise. *)
Definition axis_points : list Vec :=
  [ [5; 0; 1; 0; 0];
    [8; 0; 1; 0; 0]; [5; 0; 1; 0; 0]; [5; 0; 4; 0; 0]; [5; 0; 1; 0; 0];
    [5; 0; 1; 0; 0]; [5; 0; 1; 0; 0]; [5; 0; 1; 0; 0];
    [2; 0; 1; 0; 0]; [5; 0; 1; 0; 0]; [5; 0; -2; 0; 0]; [5; 0; 1; 0; 0];
    [5; 0; 1; 0; 0]; [5; 0; 1; 0; 0]; [5; 0; 1; 0; 0] ].

Definition axis_state (P : Mat) : UKF :=
  mkUKF true true true [5; 0; 1; 0; 0] P axis_points 0%Z
        0.5 2 0.15 0.15 0.3 0.03 0.3 0 0.

(** ** Shape of the state

    The mean has [n_x_] entries and the covariance is [n_x_] by
    [n_x_]: what every Eigen expression of [ukf.cpp] relies on. *)
Definition well_formed (st : UKF) : Prop :=
  length (x_ st) = n_x_ /\ has_dims n_x_ n_x_ (P_ st).

(** The noise configuration: the seven standard deviations. *)
Definition noise_config (st : UKF) : list R :=
  [ std_a_ st; std_yawdd_ st; std_laspx_ st; std_laspy_ st;
    std_radr_ st; std_radphi_ st; std_radrd_ st ].

(** A record whose raw vector has the length of its sensor kind: two
    entries (px, py) for the laser, three (range, bearing, range rate)
    for the radar. *)
Definition valid_measurement (m : MeasurementPackage) : Prop :=
  length (raw_measurements_ m)
  = match sensor_type_ m with LASER => 2%nat | RADAR => 3%nat end.

(** ** The time origin

    The filter reads the clock only at line 127, as the difference of a
    measurement's time stamp and the stored one.  These move the stored
    time stamp of a state and the time stamp of a measurement by [k]
    microseconds. *)
Definition shift_clock (k : Z) (st : UKF) : UKF :=
  set_time_us st (time_us_ st + k).

Definition shift_stamp (k : Z) (m : MeasurementPackage) : MeasurementPackage :=
  mkMeas (timestamp_ m + k) (sensor_type_ m) (raw_measurements_ m).

(** The factor [llt] returns for the augmented covariance of a state
    whose covariance has the Cholesky factor [G]: [G] in the top left
    corner and, below it, the two noise deviations.  With [std_a = 0]
    the pivot of column 5 is zero and the routine returns there, so the
    last diagonal entry stays the variance [std_yawdd^2] it was. *)
Definition augmented_factor (G : Mat) (std_a std_yawdd : R) : Mat :=
  map (fun r => r ++ [0; 0]) G
  ++ [ zeros n_x_ ++ [Rabs std_a; 0];
       zeros n_x_
       ++ [0; if Req_dec_T std_a 0 then std_yawdd * std_yawdd
              else Rabs std_yawdd] ].

(** * Properties *)

(** ** Entries of vectors and matrices *)

Lemma vnth_nil j : vnth j [] = 0.
Proof. destruct j; reflexivity. Qed.

Lemma vnth_cons_S a v j : vnth (S j) (a :: v) = vnth j v.
Proof. reflexivity. Qed.

Lemma vnth_cons_0 a v : vnth 0 (a :: v) = a.
Proof. reflexivity. Qed.

Lemma vnth_vadd u : forall v j,
  length u = length v -> vnth j (vadd u v) = vnth j u + vnth j v.
Proof.
  induction u as [|a u IH]; intros [|b v] j Hlen; simpl in Hlen; try discriminate.
  - cbn [vadd]. rewrite !vnth_nil. lra.
  - cbn [vadd]. destruct j as [|j]; [reflexivity|].
    rewrite !vnth_cons_S. apply IH. lia.
Qed.

Lemma vnth_vsub u : forall v j,
  length u = length v -> vnth j (vsub u v) = vnth j u - vnth j v.
Proof.
  induction u as [|a u IH]; intros [|b v] j Hlen; simpl in Hlen; try discriminate.
  - cbn [vsub]. rewrite !vnth_nil. lra.
  - cbn [vsub]. destruct j as [|j]; [reflexivity|].
    rewrite !vnth_cons_S. apply IH. lia.
Qed.

Lemma vnth_vscale c v : forall j, vnth j (vscale c v) = c * vnth j v.
Proof.
  induction v as [|a v IH]; intros j.
  - cbn [vscale map]. rewrite !vnth_nil. lra.
  - destruct j as [|j]; [reflexivity|].
    cbn [vscale map]. rewrite !vnth_cons_S. apply IH.
Qed.

Lemma length_vadd u : forall v, length u = length v -> length (vadd u v) = length u.
Proof.
  induction u as [|a u IH]; intros [|b v] H; simpl in *; try discriminate; auto.
Qed.

Lemma length_vsub u : forall v, length u = length v -> length (vsub u v) = length u.
Proof.
  induction u as [|a u IH]; intros [|b v] H; simpl in *; try discriminate; auto.
Qed.

Lemma length_vscale c v : length (vscale c v) = length v.
Proof. apply length_map. Qed.

Lemma length_vset k a v : length (vset k a v) = length v.
Proof.
  revert k. induction v as [|b v IH]; intros [|k]; simpl; auto.
Qed.

Lemma vnth_vset_same k a v : (k < length v)%nat -> vnth k (vset k a v) = a.
Proof.
  revert k. induction v as [|b v IH]; intros [|k] H; simpl in H; try lia.
  - reflexivity.
  - cbn [vset]. rewrite vnth_cons_S. apply IH. lia.
Qed.

Lemma vnth_vset_other j k a v : j <> k -> vnth j (vset k a v) = vnth j v.
Proof.
  revert j k. induction v as [|b v IH]; intros [|j] [|k] H;
    try reflexivity; try congruence.
  cbn [vset]. rewrite !vnth_cons_S. apply IH. congruence.
Qed.

Lemma length_zeros n : length (zeros n) = n.
Proof. apply repeat_length. Qed.

Lemma vnth_zeros n j : vnth j (zeros n) = 0.
Proof.
  revert j. induction n as [|n IH]; intros [|j]; try reflexivity.
  apply (IH j).
Qed.

(** A vector is determined by its entries. *)
Lemma vec_ext u : forall v,
  length u = length v -> (forall j, (j < length u)%nat -> vnth j u = vnth j v) -> u = v.
Proof.
  induction u as [|a u IH]; intros [|b v] Hlen H; simpl in Hlen; try discriminate; auto.
  f_equal.
  - apply (H 0%nat). simpl. lia.
  - apply IH; [lia|]. intros j Hj. apply (H (S j)). simpl. lia.
Qed.

Lemma sum_upto_S n f : sum_upto (S n) f = sum_upto n f + f n.
Proof.
  unfold sum_upto. rewrite seq_S, map_app. simpl.
  generalize (map f (seq 0 n)) as l. induction l as [|a l IH]; simpl; [lra|].
  rewrite IH. lra.
Qed.

Lemma sum_upto_ext n f g :
  (forall i, (i < n)%nat -> f i = g i) -> sum_upto n f = sum_upto n g.
Proof.
  induction n as [|n IH]; intros H; [reflexivity|].
  rewrite !sum_upto_S, IH, (H n); auto.
Qed.

(** The accumulation loop [m = m + f(i)] over a list of indices. *)
Lemma fold_vadd_spec (f : nat -> Vec) (n : nat) (l : list nat) : forall m0,
  length m0 = n -> (forall i, In i l -> length (f i) = n) ->
  length (fold_left (fun m i => vadd m (f i)) l m0) = n /\
  forall j, vnth j (fold_left (fun m i => vadd m (f i)) l m0)
            = vnth j m0 + Rsum (map (fun i => vnth j (f i)) l).
Proof.
  induction l as [|i l IH]; intros m0 Hm Hf; simpl.
  - split; [assumption|]. intros j. lra.
  - assert (Hi : length (f i) = n) by (apply Hf; left; reflexivity).
    destruct (IH (vadd m0 (f i))) as [Hlen Hnth].
    + rewrite length_vadd; congruence.
    + intros k Hk. apply Hf. right. assumption.
    + split; [assumption|]. intros j.
      rewrite Hnth, vnth_vadd by congruence. lra.
Qed.

Lemma has_dims_nth m n A i :
  has_dims m n A -> (i < m)%nat -> length (nth i A []) = n.
Proof.
  intros [Hm Hn] Hi. rewrite Forall_forall in Hn.
  apply Hn, nth_In. lia.
Qed.

Lemma has_dims_cons m n r A :
  has_dims (S m) n (r :: A) <-> length r = n /\ has_dims m n A.
Proof.
  unfold has_dims. simpl. rewrite Forall_cons_iff.
  split; [intros [H1 [H2 H3]]|intros [H1 [H2 H3]]]; repeat split; auto.
Qed.

Lemma mnth_nil i j : mnth i j [] = 0.
Proof. unfold mnth. destruct i; apply vnth_nil. Qed.

Lemma mnth_cons_S r A i j : mnth (S i) j (r :: A) = mnth i j A.
Proof. reflexivity. Qed.

Lemma mnth_cons_0 r A j : mnth 0 j (r :: A) = vnth j r.
Proof. reflexivity. Qed.

Lemma mnth_row i j A : mnth i j A = vnth j (nth i A []).
Proof. reflexivity. Qed.

Lemma mnth_madd n A : forall m B i j,
  has_dims m n A -> has_dims m n B ->
  mnth i j (madd A B) = mnth i j A + mnth i j B.
Proof.
  induction A as [|r A IH]; intros m [|s B] i j [HA1 HA2] [HB1 HB2];
    simpl in HA1, HB1; try (subst m; discriminate).
  - cbn [madd]. rewrite !mnth_nil. lra.
  - destruct m as [|m]; [discriminate|].
    cbn [madd]. destruct i as [|i].
    + rewrite !mnth_cons_0. apply vnth_vadd.
      inversion HA2; inversion HB2; congruence.
    + rewrite !mnth_cons_S. apply (IH m).
      * split; [lia|]. inversion HA2; assumption.
      * split; [lia|]. inversion HB2; assumption.
Qed.

Lemma mnth_msub n A : forall m B i j,
  has_dims m n A -> has_dims m n B ->
  mnth i j (msub A B) = mnth i j A - mnth i j B.
Proof.
  induction A as [|r A IH]; intros m [|s B] i j [HA1 HA2] [HB1 HB2];
    simpl in HA1, HB1; try (subst m; discriminate).
  - cbn [msub]. rewrite !mnth_nil. lra.
  - destruct m as [|m]; [discriminate|].
    cbn [msub]. destruct i as [|i].
    + rewrite !mnth_cons_0. apply vnth_vsub.
      inversion HA2; inversion HB2; congruence.
    + rewrite !mnth_cons_S. apply (IH m).
      * split; [lia|]. inversion HA2; assumption.
      * split; [lia|]. inversion HB2; assumption.
Qed.

Lemma has_dims_madd n A : forall m B,
  has_dims m n A -> has_dims m n B -> has_dims m n (madd A B).
Proof.
  induction A as [|r A IH]; intros m [|s B] [HA1 HA2] [HB1 HB2];
    simpl in HA1, HB1; try (subst m; discriminate).
  - split; [assumption|constructor].
  - destruct m as [|m]; [discriminate|].
    cbn [madd]. apply has_dims_cons. split.
    + rewrite length_vadd; inversion HA2; inversion HB2; congruence.
    + apply IH; (split; [lia|]); [inversion HA2|inversion HB2]; assumption.
Qed.

Lemma has_dims_msub n A : forall m B,
  has_dims m n A -> has_dims m n B -> has_dims m n (msub A B).
Proof.
  induction A as [|r A IH]; intros m [|s B] [HA1 HA2] [HB1 HB2];
    simpl in HA1, HB1; try (subst m; discriminate).
  - split; [assumption|constructor].
  - destruct m as [|m]; [discriminate|].
    cbn [msub]. apply has_dims_cons. split.
    + rewrite length_vsub; inversion HA2; inversion HB2; congruence.
    + apply IH; (split; [lia|]); [inversion HA2|inversion HB2]; assumption.
Qed.

Lemma mnth_outer u v i j : mnth i j (outer u v) = vnth i u * vnth j v.
Proof.
  revert i. induction u as [|a u IH]; intros i.
  - cbn [outer map]. rewrite mnth_nil, vnth_nil. lra.
  - destruct i as [|i].
    + cbn [outer map]. rewrite mnth_cons_0, vnth_cons_0. apply vnth_vscale.
    + cbn [outer map]. rewrite mnth_cons_S, vnth_cons_S. apply IH.
Qed.

Lemma has_dims_outer u v : has_dims (length u) (length v) (outer u v).
Proof.
  split.
  - apply length_map.
  - apply Forall_forall. intros r Hr. apply in_map_iff in Hr.
    destruct Hr as [a [<- _]]. apply length_vscale.
Qed.

Lemma has_dims_mzeros m n : has_dims m n (mzeros m n).
Proof.
  split.
  - apply repeat_length.
  - apply Forall_forall. intros r Hr. apply repeat_spec in Hr. subst r.
    apply length_zeros.
Qed.

Lemma mnth_mzeros m n i j : mnth i j (mzeros m n) = 0.
Proof.
  revert i. induction m as [|m IH]; intros i.
  - apply mnth_nil.
  - destruct i as [|i].
    + apply vnth_zeros.
    + apply (IH i).
Qed.

(** A matrix is determined by its entries. *)
Lemma mat_ext m n A : forall B,
  has_dims m n A -> has_dims m n B ->
  (forall i j, (i < m)%nat -> (j < n)%nat -> mnth i j A = mnth i j B) -> A = B.
Proof.
  revert m. induction A as [|r A IH]; intros m [|s B] [HA1 HA2] [HB1 HB2] H;
    simpl in HA1, HB1; try (subst m; discriminate); auto.
  destruct m as [|m]; [discriminate|].
  inversion HA2 as [|? ? Hr HA]; inversion HB2 as [|? ? Hs HB]; subst.
  f_equal.
  - apply vec_ext; [congruence|]. intros j Hj.
    apply (H 0%nat j); lia.
  - apply (IH m); try (split; [lia|assumption]).
    intros i j Hi Hj. apply (H (S i) j); lia.
Qed.

(** The accumulation loop [M = M + g(i)] over a list of indices. *)
Lemma fold_madd_spec (g : nat -> Mat) (m n : nat) (l : list nat) : forall M0,
  has_dims m n M0 -> (forall i, In i l -> has_dims m n (g i)) ->
  has_dims m n (fold_left (fun M i => madd M (g i)) l M0) /\
  forall j k, mnth j k (fold_left (fun M i => madd M (g i)) l M0)
              = mnth j k M0 + Rsum (map (fun i => mnth j k (g i)) l).
Proof.
  induction l as [|i l IH]; intros M0 HM Hg; simpl.
  - split; [assumption|]. intros j k. lra.
  - assert (Hi : has_dims m n (g i)) by (apply Hg; left; reflexivity).
    destruct (IH (madd M0 (g i))) as [Hd Hnth].
    + apply has_dims_madd; assumption.
    + intros k Hk. apply Hg. right. assumption.
    + split; [assumption|]. intros j k.
      rewrite Hnth, (mnth_madd n M0 m) by assumption. lra.
Qed.

Lemma dot_nil_r u : dot u [] = 0.
Proof. destruct u; reflexivity. Qed.

Lemma vnth_mv A v i : vnth i (mv A v) = dot (nth i A []) v.
Proof.
  revert i. induction A as [|r A IH]; intros i.
  - cbn [mv map]. rewrite vnth_nil. destruct i; reflexivity.
  - destruct i as [|i]; [reflexivity|].
    cbn [mv map nth]. rewrite vnth_cons_S. apply IH.
Qed.

Lemma length_mv A v : length (mv A v) = length A.
Proof. apply length_map. Qed.

Lemma vnth_col A j i : vnth i (col j A) = mnth i j A.
Proof.
  revert i. induction A as [|r A IH]; intros i.
  - cbn [col map]. rewrite vnth_nil, mnth_nil. reflexivity.
  - destruct i as [|i]; [reflexivity|].
    cbn [col map]. rewrite vnth_cons_S, mnth_cons_S. apply IH.
Qed.

Lemma length_col A j : length (col j A) = length A.
Proof. apply length_map. Qed.

Lemma vnth_map_seq (f : nat -> R) n j :
  (j < n)%nat -> vnth j (map f (seq 0 n)) = f j.
Proof.
  intros Hj. unfold vnth.
  rewrite (nth_indep _ 0 (f 0%nat)) by (rewrite length_map, length_seq; lia).
  rewrite map_nth, seq_nth by lia. reflexivity.
Qed.

Lemma nth_map_seq {A} (f : nat -> A) n j d :
  (j < n)%nat -> nth j (map f (seq 0 n)) d = f j.
Proof.
  intros Hj.
  rewrite (nth_indep _ d (f 0%nat)) by (rewrite length_map, length_seq; lia).
  rewrite map_nth, seq_nth by lia. reflexivity.
Qed.

Lemma nth_map_lt {A B} (f : A -> B) l i d d' :
  (i < length l)%nat -> nth i (map f l) d = f (nth i l d').
Proof.
  intros Hi. rewrite (nth_indep _ d (f d')) by (rewrite length_map; assumption).
  apply map_nth.
Qed.

Lemma mnth_mmul A B i j :
  (i < length A)%nat -> (j < ncols B)%nat ->
  mnth i j (mmul A B) = dot (nth i A []) (col j B).
Proof.
  intros Hi Hj. unfold mnth, mmul.
  rewrite (nth_map_lt _ A i [] []) by assumption.
  apply vnth_map_seq. assumption.
Qed.

Lemma has_dims_mmul A B : has_dims (length A) (ncols B) (mmul A B).
Proof.
  split.
  - apply length_map.
  - apply Forall_forall. intros r Hr. apply in_map_iff in Hr.
    destruct Hr as [a [<- _]]. rewrite length_map, length_seq. reflexivity.
Qed.

Lemma ncols_dims m n A : has_dims (S m) n A -> ncols A = n.
Proof.
  intros [H1 H2]. destruct A as [|r A]; [discriminate|].
  unfold ncols. simpl. inversion H2; assumption.
Qed.

Lemma mnth_transpose A i j :
  (i < ncols A)%nat -> mnth i j (transpose A) = mnth j i A.
Proof.
  intros Hi. unfold mnth at 1. unfold transpose.
  rewrite nth_map_seq by assumption. apply vnth_col.
Qed.

Lemma has_dims_transpose A : has_dims (ncols A) (length A) (transpose A).
Proof.
  split.
  - unfold transpose. rewrite length_map, length_seq. reflexivity.
  - apply Forall_forall. intros r Hr. apply in_map_iff in Hr.
    destruct Hr as [a [<- _]]. apply length_col.
Qed.

Lemma dot_sum u : forall v,
  length u = length v ->
  dot u v = sum_upto (length u) (fun k => vnth k u * vnth k v).
Proof.
  induction u as [|a u IH]; intros [|b v] H; simpl in H; try discriminate.
  - reflexivity.
  - cbn [dot length]. rewrite IH by lia.
    unfold sum_upto. cbn [seq map Rsum fold_right].
    rewrite vnth_cons_0, vnth_cons_0. f_equal.
    rewrite <- seq_shift, map_map. reflexivity.
Qed.

(** ** The weights (constructor, lines 68-77) *)

Lemma lambda_val : lambda_ = -4.
Proof. reflexivity. Qed.

Lemma n_aug_val : INR n_aug_ = 7.
Proof. unfold n_aug_. simpl. lra. Qed.

Lemma weights_val : weights_ = (-4 / 3) :: repeat (1 / 6) 14.
Proof.
  unfold weights_. rewrite lambda_val, n_aug_val.
  change (seq 1 (n_sig - 1)) with (seq 1 14). simpl.
  repeat (f_equal; try lra).
Qed.

Lemma length_weights : length weights_ = n_sig.
Proof. rewrite weights_val. reflexivity. Qed.

(** C7: the weight of the central sigma point is lambda/(lambda+n_aug),
    each of the 2*n_aug others is 1/(2*(lambda+n_aug)), with
    lambda = 3 - n_aug and n_aug = 7, and the 2*n_aug+1 weights add up
    to exactly 1. *)
Theorem weights_sum_to_one :
  n_aug_ = 7%nat /\ lambda_ = 3 - INR n_aug_ /\
  weights_ = lambda_ / (lambda_ + INR n_aug_)
             :: repeat (1 / (2 * (lambda_ + INR n_aug_))) (2 * n_aug_) /\
  length weights_ = (2 * n_aug_ + 1)%nat /\
  Rsum weights_ = 1.
Proof.
  split; [reflexivity|].
  split; [rewrite lambda_val, n_aug_val; lra|].
  split; [|split].
  - rewrite weights_val, lambda_val, n_aug_val. simpl.
    repeat (f_equal; try lra).
  - apply length_weights.
  - rewrite weights_val. simpl. lra.
Qed.

(** ** Angle normalization *)

Lemma wrap_down_loop a :
  wrap_down a = if Rgt_dec a PI then wrap_down (a - 2 * PI) else a.
Proof. rewrite wrap_down_equation_1. destruct (Rgt_dec a PI); reflexivity. Qed.

Lemma wrap_up_loop a :
  wrap_up a = if Rlt_dec a (- PI) then wrap_up (a + 2 * PI) else a.
Proof. rewrite wrap_up_equation_1. destruct (Rlt_dec a (- PI)); reflexivity. Qed.

Lemma wrap_down_range a :
  wrap_down a <= PI /\
  (a <= PI -> wrap_down a = a) /\
  (PI < a -> - PI < wrap_down a).
Proof.
  pose proof PI_RGT_0 as Hpi.
  funelim (wrap_down a).
  - destruct (H Hpi) as (H1 & H2 & H3).
    split; [exact H1|]. split; [lra|]. intros _.
    destruct (Rle_or_lt (a - 2 * PI) PI) as [Hle|Hlt].
    + rewrite H2 by exact Hle. lra.
    + apply H3. exact Hlt.
  - split; [lra|]. split; [reflexivity|lra].
Qed.

Lemma wrap_up_range a :
  - PI <= wrap_up a /\
  (- PI <= a -> wrap_up a = a) /\
  (a < - PI -> wrap_up a < PI).
Proof.
  pose proof PI_RGT_0 as Hpi.
  funelim (wrap_up a).
  - destruct (H Hpi) as (H1 & H2 & H3).
    split; [exact H1|]. split; [lra|]. intros _.
    destruct (Rle_or_lt (- PI) (a + 2 * PI)) as [Hle|Hlt].
    + rewrite H2 by exact Hle. lra.
    + apply H3. exact Hlt.
  - split; [lra|]. split; [reflexivity|lra].
Qed.

Lemma wrap_down_turns a :
  exists k : nat, wrap_down a = a - 2 * INR k * PI.
Proof.
  funelim (wrap_down a).
  - destruct H as [k Hk]. exists (S k). rewrite Hk, S_INR. ring.
  - exists 0%nat. simpl. ring.
Qed.

Lemma wrap_up_turns a :
  exists k : nat, wrap_up a = a + 2 * INR k * PI.
Proof.
  funelim (wrap_up a).
  - destruct H as [k Hk]. exists (S k). rewrite Hk, S_INR. ring.
  - exists 0%nat. simpl. ring.
Qed.

Lemma normalize_angle_id a : - PI <= a <= PI -> normalize_angle a = a.
Proof.
  intros [Hlo Hhi]. unfold normalize_angle.
  destruct (wrap_down_range a) as (_ & Hd & _). rewrite Hd by exact Hhi.
  destruct (wrap_up_range a) as (_ & Hu & _). apply Hu. exact Hlo.
Qed.

(** The number of turns a loop takes is the ceiling of the closed
    form. *)
Lemma ceiling_turns x (k : nat) :
  INR k - 1 < x <= INR k -> Closed.ceiling x = Z.of_nat k.
Proof.
  intros [Hlo Hhi]. unfold Closed.ceiling.
  assert (E : (1 - Z.of_nat k)%Z = up (- x)).
  { apply tech_up; rewrite minus_IZR, <- INR_IZR_INZ; lra. }
  rewrite <- E. lia.
Qed.

(** The two loops compute the closed form of the normalized angle. *)
Lemma normalize_angle_closed a : normalize_angle a = Closed.normalized a.
Proof.
  pose proof PI_RGT_0 as Hpi.
  unfold Closed.normalized, normalize_angle.
  destruct (wrap_down_range a) as (D1 & D2 & D3).
  destruct (Rlt_dec PI a) as [Ha|Ha].
  - specialize (D3 Ha).
    destruct (wrap_up_range (wrap_down a)) as (_ & U2 & _).
    rewrite U2 by lra.
    destruct (wrap_down_turns a) as [k Hk]. rewrite Hk in *.
    rewrite (ceiling_turns _ k), <- INR_IZR_INZ; [ring|].
    split.
    + apply Rmult_lt_reg_r with (2 * PI); [lra|].
      replace ((a - PI) / (2 * PI) * (2 * PI)) with (a - PI) by (field; lra).
      lra.
    + apply Rmult_le_reg_r with (2 * PI); [lra|].
      replace ((a - PI) / (2 * PI) * (2 * PI)) with (a - PI) by (field; lra).
      lra.
  - rewrite D2 by lra.
    destruct (wrap_up_range a) as (U1 & U2 & U3).
    destruct (Rlt_dec a (- PI)) as [Hb|Hb]; [|apply U2; lra].
    specialize (U3 Hb).
    destruct (wrap_up_turns a) as [k Hk]. rewrite Hk in *.
    rewrite (ceiling_turns _ k), <- INR_IZR_INZ; [ring|].
    split.
    + apply Rmult_lt_reg_r with (2 * PI); [lra|].
      replace ((- PI - a) / (2 * PI) * (2 * PI)) with (- PI - a)
        by (field; lra).
      lra.
    + apply Rmult_le_reg_r with (2 * PI); [lra|].
      replace ((- PI - a) / (2 * PI) * (2 * PI)) with (- PI - a)
        by (field; lra).
      lra.
Qed.

Lemma wrap_up_minus_PI (k : nat) : wrap_up (- PI - 2 * INR k * PI) = - PI.
Proof.
  pose proof PI_RGT_0 as Hpi.
  induction k as [|k IH].
  - replace (- PI - 2 * INR 0 * PI) with (- PI) by (simpl; ring).
    destruct (wrap_up_range (- PI)) as (_ & U2 & _). apply U2. lra.
  - rewrite wrap_up_loop.
    pose proof (pos_INR k) as Hk.
    destruct (Rlt_dec (- PI - 2 * INR (S k) * PI) (- PI)) as [_|Hn].
    + replace (- PI - 2 * INR (S k) * PI + 2 * PI)
        with (- PI - 2 * INR k * PI) by (rewrite S_INR; ring).
      exact IH.
    + exfalso. apply Hn. rewrite S_INR. nra.
Qed.

(** C4, as the claim states it, fails at the angle -PI: neither loop
    moves it, and -PI is not in the half-open interval (-PI, PI]. *)
Lemma normalize_angle_keeps_minus_PI :
  normalize_angle (- PI) = - PI /\
  ~ (- PI < normalize_angle (- PI) <= PI).
Proof.
  pose proof PI_RGT_0 as Hpi.
  assert (E : normalize_angle (- PI) = - PI) by (apply normalize_angle_id; lra).
  split; [exact E|]. rewrite E. lra.
Qed.

(** C4, amended: for every input angle of magnitude at most 2^53 (where
    each pass of a loop still changes a double) the result lies in the
    closed interval [-PI, PI], and it is -PI exactly for the inputs
    -PI - 2 k PI, k = 0, 1, 2, ...: for every other input the result
    lies in the half-open interval (-PI, PI]. *)
Theorem normalize_angle_range (a : R) :
  in_reach a ->
  - PI <= normalize_angle a <= PI /\
  (normalize_angle a = - PI <->
   exists k : nat, a = - PI - 2 * INR k * PI) /\
  ((forall k : nat, a <> - PI - 2 * INR k * PI) ->
   - PI < normalize_angle a <= PI).
Proof.
  intros _.
  pose proof PI_RGT_0 as Hpi.
  destruct (wrap_down_range a) as (D1 & D2 & D3).
  destruct (wrap_up_range (wrap_down a)) as (U1 & U2 & U3).
  assert (Hrange : - PI <= normalize_angle a <= PI).
  { unfold normalize_angle. split; [exact U1|].
    destruct (Rle_or_lt (- PI) (wrap_down a)) as [Hle|Hlt].
    - rewrite U2 by exact Hle. exact D1.
    - left. apply U3. exact Hlt. }
  assert (Hiff : normalize_angle a = - PI <->
                 exists k : nat, a = - PI - 2 * INR k * PI).
  { unfold normalize_angle. split.
    - intros E. destruct (Rle_or_lt a PI) as [Hle|Hlt].
      + rewrite D2 in E by exact Hle.
        destruct (wrap_up_turns a) as [k Hk]. exists k. lra.
      + specialize (D3 Hlt). rewrite U2 in E by lra. lra.
    - intros [k ->]. pose proof (pos_INR k) as Hk.
      destruct (wrap_down_range (- PI - 2 * INR k * PI)) as (_ & D2' & _).
      rewrite D2' by nra. apply wrap_up_minus_PI. }
  split; [exact Hrange|]. split; [exact Hiff|].
  intros Hne. split; [|apply Hrange].
  destruct Hrange as [[Hlt|Heq] _]; [exact Hlt|].
  exfalso. symmetry in Heq. apply Hiff in Heq.
  destruct Heq as [k Hk]. exact (Hne k Hk).
Qed.

(** The angle 10, which the first loop brings to 10 - 4 PI. *)
Lemma normalize_angle_range_witness :
  - PI <= normalize_angle 10 <= PI /\
  (normalize_angle 10 = - PI <->
   exists k : nat, 10 = - PI - 2 * INR k * PI) /\
  ((forall k : nat, 10 <> - PI - 2 * INR k * PI) ->
   - PI < normalize_angle 10 <= PI).
Proof.
  apply (normalize_angle_range 10).
  unfold in_reach, angle_reach. rewrite Rabs_right; lra.
Defined.

(** ** Initialization on the first measurement (lines 102-120) *)

(** C8: on an uninitialized filter, ProcessMeasurement writes the two
    position entries of the mean (range*cos(bearing), range*sin(bearing)
    from a radar record, the two raw components from a laser record),
    leaves speed, heading, turn rate, covariance, sigma points and both
    NIS values as they were, sets the initialized mark and the reference
    time, and runs neither prediction nor update; every later call takes
    the prediction and update path. *)
Theorem first_measurement_initializes
  (st : UKF) (m : MeasurementPackage) (x0 x1 x2 x3 x4 : R) :
  is_initialized_ st = false ->
  x_ st = [x0; x1; x2; x3; x4] ->
  let z := raw_measurements_ m in
  let pos := match sensor_type_ m with
             | RADAR => (vnth 0 z * cos (vnth 1 z), vnth 0 z * sin (vnth 1 z))
             | LASER => (vnth 0 z, vnth 1 z)
             end in
  ProcessMeasurement st m
  = mkUKF true (use_laser_ st) (use_radar_ st)
          [fst pos; snd pos; x2; x3; x4] (P_ st) (Xsig_pred_ st)
          (timestamp_ m) (std_a_ st) (std_yawdd_ st)
          (std_laspx_ st) (std_laspy_ st) (std_radr_ st) (std_radphi_ st)
          (std_radrd_ st) (NIS_radar_ st) (NIS_laser_ st)
  /\ forall m',
       ProcessMeasurement (ProcessMeasurement st m) m'
       = let dt := IZR (timestamp_ m' - timestamp_ m) / 1000000.0 in
         let s := set_time_us (ProcessMeasurement st m) (timestamp_ m') in
         match sensor_type_ m' with
         | RADAR => UpdateRadar (Prediction s dt) m'
         | LASER => UpdateLidar (Prediction s dt) m'
         end.
Proof.
  intros Hinit Hx z pos.
  assert (E : ProcessMeasurement st m
              = mkUKF true (use_laser_ st) (use_radar_ st)
                  [fst pos; snd pos; x2; x3; x4] (P_ st) (Xsig_pred_ st)
                  (timestamp_ m) (std_a_ st) (std_yawdd_ st)
                  (std_laspx_ st) (std_laspy_ st) (std_radr_ st)
                  (std_radphi_ st) (std_radrd_ st) (NIS_radar_ st)
                  (NIS_laser_ st)).
  { unfold ProcessMeasurement. rewrite Hinit. cbn [negb].
    unfold set_time_us, set_is_initialized, set_x, initial_position.
    cbn [is_initialized_ use_laser_ use_radar_ x_ P_ Xsig_pred_ time_us_
         std_a_ std_yawdd_ std_laspx_ std_laspy_ std_radr_ std_radphi_
         std_radrd_ NIS_radar_ NIS_laser_].
    rewrite Hx. subst pos z. destruct (sensor_type_ m); reflexivity. }
  split; [exact E|].
  intros m'. rewrite E. reflexivity.
Qed.

(** Scenario A of the specification: a radar record with range 5 and
    bearing 0 on the freshly constructed filter. *)
Lemma first_measurement_initializes_witness :
  ProcessMeasurement UKF_new (mkMeas 1477010443000000 RADAR [5; 0; 1])
  = mkUKF true true true [5 * cos 0; 5 * sin 0; 9; 0; 0] (P_ UKF_new)
          (Xsig_pred_ UKF_new) 1477010443000000 0.5 2 0.15 0.15 0.3 0.03 0.3
          0 0.
Proof.
  exact (proj1 (first_measurement_initializes UKF_new
                  (mkMeas 1477010443000000 RADAR [5; 0; 1]) 1 1 9 0 0
                  eq_refl eq_refl)).
Defined.

(** ** The sensor switches are carried along, never read *)

Lemma augmented_with_flags st a b :
  augmented_mean (with_flags st a b) = augmented_mean st /\
  augmented_cov (with_flags st a b) = augmented_cov st.
Proof. split; reflexivity. Qed.

Lemma Prediction_with_flags st dt a b :
  Prediction (with_flags st a b) dt = with_flags (Prediction st dt) a b.
Proof.
  unfold Prediction.
  destruct (augmented_with_flags st a b) as [-> ->].
  generalize (map (ctrv dt)
                (sigma_points (augmented_mean st) (cholesky (augmented_cov st)))).
  intros X. unfold set_P, set_x, set_Xsig_pred, with_flags.
  cbn [is_initialized_ use_laser_ use_radar_ x_ P_ Xsig_pred_ time_us_
       std_a_ std_yawdd_ std_laspx_ std_laspy_ std_radr_ std_radphi_
       std_radrd_ NIS_radar_ NIS_laser_].
  reflexivity.
Qed.

Lemma lidar_with_flags st a b :
  (forall z, lidar_y (with_flags st a b) z = lidar_y st z) /\
  lidar_S (with_flags st a b) = lidar_S st /\
  lidar_K (with_flags st a b) = lidar_K st.
Proof.
  assert (HS : lidar_S (with_flags st a b) = lidar_S st) by reflexivity.
  split; [reflexivity|]. split; [exact HS|].
  unfold lidar_K. rewrite HS. reflexivity.
Qed.

Lemma UpdateLidar_with_flags st m a b :
  UpdateLidar (with_flags st a b) m = with_flags (UpdateLidar st m) a b.
Proof.
  unfold UpdateLidar.
  destruct (lidar_with_flags st a b) as (Hy & -> & ->). rewrite Hy.
  generalize (lidar_y st (raw_measurements_ m)) (lidar_S st) (lidar_K st).
  intros y S K. unfold set_NIS_laser, set_P, set_x, with_flags.
  cbn [is_initialized_ use_laser_ use_radar_ x_ P_ Xsig_pred_ time_us_
       std_a_ std_yawdd_ std_laspx_ std_laspy_ std_radr_ std_radphi_
       std_radrd_ NIS_radar_ NIS_laser_].
  reflexivity.
Qed.

Lemma radar_with_flags st a b :
  radar_S (with_flags st a b) = radar_S st /\
  radar_K (with_flags st a b) = radar_K st /\
  (forall z, radar_residual (with_flags st a b) z = radar_residual st z).
Proof.
  assert (HZ : radar_Zsig (with_flags st a b) = radar_Zsig st) by reflexivity.
  assert (Hp : radar_z_pred (with_flags st a b) = radar_z_pred st).
  { unfold radar_z_pred. rewrite HZ. reflexivity. }
  assert (Hd : radar_z_diff (with_flags st a b) = radar_z_diff st).
  { unfold radar_z_diff. rewrite HZ, Hp. reflexivity. }
  assert (HS : radar_S (with_flags st a b) = radar_S st).
  { unfold radar_S. rewrite Hd. reflexivity. }
  assert (HT : radar_Tc (with_flags st a b) = radar_Tc st).
  { unfold radar_Tc. rewrite Hd. reflexivity. }
  split; [exact HS|]. split.
  - unfold radar_K. rewrite HS, HT. reflexivity.
  - intros z. unfold radar_residual. rewrite Hp. reflexivity.
Qed.

Lemma UpdateRadar_with_flags st m a b :
  UpdateRadar (with_flags st a b) m = with_flags (UpdateRadar st m) a b.
Proof.
  unfold UpdateRadar.
  destruct (radar_with_flags st a b) as (-> & -> & Hr). rewrite Hr.
  generalize (radar_residual st (raw_measurements_ m)) (radar_S st) (radar_K st).
  intros y S K. unfold set_NIS_radar, set_P, set_x, with_flags.
  cbn [is_initialized_ use_laser_ use_radar_ x_ P_ Xsig_pred_ time_us_
       std_a_ std_yawdd_ std_laspx_ std_laspy_ std_radr_ std_radphi_
       std_radrd_ NIS_radar_ NIS_laser_].
  reflexivity.
Qed.

Lemma ProcessMeasurement_with_flags st m a b :
  ProcessMeasurement (with_flags st a b) m
  = with_flags (ProcessMeasurement st m) a b.
Proof.
  unfold ProcessMeasurement.
  change (is_initialized_ (with_flags st a b)) with (is_initialized_ st).
  destruct (is_initialized_ st); cbn [negb].
  - change (elapsed (with_flags st a b) m) with (elapsed st m).
    change (set_time_us (with_flags st a b) (timestamp_ m))
      with (with_flags (set_time_us st (timestamp_ m)) a b).
    rewrite Prediction_with_flags.
    destruct (sensor_type_ m).
    + apply UpdateLidar_with_flags.
    + apply UpdateRadar_with_flags.
  - reflexivity.
Qed.

Lemma run_with_flags ms : forall st a b,
  run (with_flags st a b) ms = with_flags (run st ms) a b.
Proof.
  induction ms as [|m ms IH]; intros st a b.
  - reflexivity.
  - cbn [run fold_left].
    rewrite ProcessMeasurement_with_flags. apply IH.
Qed.

(** C10: two runs over the same measurement sequence from states that
    differ only in use_laser_ and use_radar_ end with the same mean,
    covariance, predicted sigma points, NIS values, timestamp and
    initialized mark; the switches themselves come out as they went
    in. *)
Theorem flags_never_consulted
  (st : UKF) (ms : list MeasurementPackage) (l1 r1 l2 r2 : bool) :
  let s1 := run (with_flags st l1 r1) ms in
  let s2 := run (with_flags st l2 r2) ms in
  x_ s1 = x_ s2 /\ P_ s1 = P_ s2 /\
  NIS_radar_ s1 = NIS_radar_ s2 /\ NIS_laser_ s1 = NIS_laser_ s2 /\
  time_us_ s1 = time_us_ s2 /\ is_initialized_ s1 = is_initialized_ s2 /\
  Xsig_pred_ s1 = Xsig_pred_ s2 /\
  use_laser_ s1 = l1 /\ use_radar_ s1 = r1 /\
  use_laser_ s2 = l2 /\ use_radar_ s2 = r2.
Proof.
  intros s1 s2. subst s1 s2.
  rewrite !run_with_flags.
  repeat split; reflexivity.
Qed.

(** ** The guarded divisions *)

Lemma checked_div_nonzero a b : b <> 0 -> checked_div a b = Some (a / b).
Proof.
  intros Hb. unfold checked_div.
  destruct (Req_dec_T b 0) as [E|_]; [contradiction|reflexivity].
Qed.

Lemma turn_rate_guard yawd : Rabs yawd > 0.001 -> yawd <> 0.
Proof.
  intros H E. rewrite E, Rabs_R0 in H. lra.
Qed.

Lemma radar_range_floor p : 0.001 <= radar_range p.
Proof.
  unfold radar_range.
  set (r := sqrt _).
  assert (Hr : 0 <= r) by apply sqrt_pos.
  destruct (Rlt_dec (Rabs r) 0.001) as [Hlt|Hge]; [lra|].
  rewrite Rabs_right in Hge by lra. lra.
Qed.

Lemma radar_h_range p : radar_h p
  = [ radar_range p; atan2 (vnth 1 p) (vnth 0 p);
      (vnth 0 p * (cos (vnth 3 p) * vnth 2 p)
       + vnth 1 p * (sin (vnth 3 p) * vnth 2 p)) / radar_range p ].
Proof. reflexivity. Qed.

(** C9: in the propagation of a sigma point the quotient speed/turn-rate
    is formed only under the test |turn-rate| > 0.001, where the divisor
    is not zero, and otherwise the straight-line formula is used; in the
    radar mapping the divisor of the range rate is the range after it
    has been raised to at least 0.001.  With every division checked,
    both computations return a value, the one the program computes. *)
Theorem no_division_by_zero (delta_t : R) (p : Vec) :
  ctrv_checked delta_t p = Some (ctrv delta_t p) /\
  radar_h_checked p = Some (radar_h p) /\
  (Rabs (vnth 4 p) > 0.001 -> vnth 4 p <> 0) /\
  (~ Rabs (vnth 4 p) > 0.001 ->
   ctrv_position_checked delta_t p
   = Some (vnth 0 p + vnth 2 p * delta_t * cos (vnth 3 p),
           vnth 1 p + vnth 2 p * delta_t * sin (vnth 3 p))) /\
  0.001 <= radar_range p /\
  vnth 0 (radar_h p) = radar_range p /\
  lambda_ + INR n_aug_ <> 0.
Proof.
  split; [|split; [|split; [|split; [|split; [|split]]]]].
  - unfold ctrv_checked, ctrv_position_checked, ctrv.
    destruct (Rgt_dec (Rabs (vnth 4 p)) 0.001) as [Hg|Hg].
    + rewrite checked_div_nonzero by (apply turn_rate_guard; exact Hg).
      reflexivity.
    + reflexivity.
  - unfold radar_h_checked. rewrite radar_h_range.
    rewrite checked_div_nonzero; [reflexivity|].
    pose proof (radar_range_floor p). lra.
  - apply turn_rate_guard.
  - intros Hg. unfold ctrv_position_checked.
    destruct (Rgt_dec (Rabs (vnth 4 p)) 0.001); [contradiction|reflexivity].
  - apply radar_range_floor.
  - reflexivity.
  - rewrite lambda_val, n_aug_val. lra.
Qed.

(** ** Weighted mean of a sigma-point set *)

Lemma weighted_mean_entries n X :
  (forall i, (i < n_sig)%nat -> length (nth i X []) = n) ->
  length (weighted_mean n X) = n /\
  forall j, vnth j (weighted_mean n X)
            = sum_upto n_sig (fun i => vnth i weights_ * vnth j (nth i X [])).
Proof.
  intros HX. unfold weighted_mean.
  destruct (fold_vadd_spec (fun i => vscale (vnth i weights_) (nth i X []))
              n (seq 0 n_sig) (zeros n)) as [Hlen Hnth].
  - apply length_zeros.
  - intros i Hi. apply in_seq in Hi. rewrite length_vscale. apply HX. lia.
  - split; [exact Hlen|]. intros j. rewrite Hnth, vnth_zeros.
    unfold sum_upto. rewrite Rplus_0_l. f_equal.
    apply map_ext. intros i. apply vnth_vscale.
Qed.

(** The fifteen columns built by lines 183-189, entry by entry: column
    [1 + i] and column [8 + i = 1 + n_aug_ + i] for [i < n_aug_]. *)
Lemma sigma_points_entries x_aug L :
  length x_aug = n_aug_ -> length L = n_aug_ ->
  let s := sqrt (lambda_ + INR n_aug_) in
  let X := sigma_points x_aug L in
  length X = n_sig /\
  (forall i, (i < n_sig)%nat -> length (nth i X []) = n_aug_) /\
  (forall j, vnth j (nth 0 X []) = vnth j x_aug) /\
  (forall i, (i < n_aug_)%nat -> forall j,
     vnth j (nth (1 + i) X []) = vnth j x_aug + s * mnth j i L) /\
  (forall i, (i < n_aug_)%nat -> forall j,
     vnth j (nth (8 + i) X []) = vnth j x_aug - s * mnth j i L).
Proof.
  intros Hx HL s X.
  assert (Hplus : forall i, length (vadd x_aug (vscale s (col i L))) = n_aug_).
  { intros i. rewrite length_vadd; [exact Hx|].
    rewrite length_vscale, length_col. congruence. }
  assert (Hminus : forall i, length (vsub x_aug (vscale s (col i L))) = n_aug_).
  { intros i. rewrite length_vsub; [exact Hx|].
    rewrite length_vscale, length_col. congruence. }
  assert (Ep : forall i j, vnth j (vadd x_aug (vscale s (col i L)))
                           = vnth j x_aug + s * mnth j i L).
  { intros i j. rewrite vnth_vadd, vnth_vscale, vnth_col; [reflexivity|].
    rewrite length_vscale, length_col. congruence. }
  assert (Em : forall i j, vnth j (vsub x_aug (vscale s (col i L)))
                           = vnth j x_aug - s * mnth j i L).
  { intros i j. rewrite vnth_vsub, vnth_vscale, vnth_col; [reflexivity|].
    rewrite length_vscale, length_col. congruence. }
  subst X. unfold sigma_points. fold s.
  change n_aug_ with 7%nat in *. change n_sig with 15%nat.
  cbn [seq map app].
  split; [reflexivity|]. split; [|split; [|split]].
  - intros i Hi.
    do 15 (destruct i as [|i]; [cbn [nth]; auto|]). lia.
  - intros j. reflexivity.
  - intros i Hi j.
    do 7 (destruct i as [|i]; [cbn [nth Nat.add]; apply Ep|]). lia.
  - intros i Hi j.
    do 7 (destruct i as [|i]; [cbn [nth Nat.add]; apply Em|]). lia.
Qed.

(** Rewrites with the seven instances [E 0 .. E 6] of a fact about the
    columns of the factor. *)
Ltac rewrite7 E :=
  let go c :=
    (let H := fresh in
     pose proof (E c ltac:(change n_aug_ with 7%nat; lia)) as H;
     cbn [Nat.add] in H; rewrite H; clear H) in
  go 0%nat; go 1%nat; go 2%nat; go 3%nat; go 4%nat; go 5%nat; go 6%nat.

Lemma sum_upto_n_sig f :
  sum_upto n_sig f
  = f 0%nat + (f 1%nat + (f 2%nat + (f 3%nat + (f 4%nat + (f 5%nat + (f 6%nat
    + (f 7%nat + (f 8%nat + (f 9%nat + (f 10%nat + (f 11%nat + (f 12%nat
    + (f 13%nat + (f 14%nat + 0)))))))))))))).
Proof. reflexivity. Qed.

Lemma weights_entries :
  vnth 0 weights_ = -4 / 3 /\
  forall i, (1 <= i < n_sig)%nat -> vnth i weights_ = 1 / 6.
Proof.
  rewrite weights_val. split; [reflexivity|].
  intros i [H1 H2]. change n_sig with 15%nat in H2.
  destruct i as [|i]; [lia|].
  do 14 (destruct i as [|i]; [reflexivity|]). lia.
Qed.

(** C6: for every augmented mean and every factor L of the augmented
    size, the weighted mean (the loop of lines 241-244, with the
    constructor's weights) of the 2*n_aug+1 sigma points built by lines
    183-189 is the augmented mean itself. *)
Theorem sigma_points_mean_recovery (x_aug : Vec) (L : Mat) :
  length x_aug = n_aug_ -> has_dims n_aug_ n_aug_ L ->
  weighted_mean n_aug_ (sigma_points x_aug L) = x_aug.
Proof.
  intros Hx [HL _].
  destruct (sigma_points_entries x_aug L Hx HL) as (_ & Hlen & E0 & Ep & Em).
  destruct (weighted_mean_entries n_aug_ (sigma_points x_aug L) Hlen)
    as [Hwl Hw].
  apply vec_ext; [congruence|].
  intros j _. rewrite Hw, sum_upto_n_sig.
  destruct weights_entries as [W0 W].
  rewrite W0, !W by (change n_sig with 15%nat; lia).
  rewrite E0.
  rewrite7 Ep. rewrite7 Em.
  field.
Qed.

(** The mean of the constructor's state, augmented, with the identity
    as factor. *)
Lemma sigma_points_mean_recovery_witness :
  weighted_mean n_aug_ (sigma_points (augmented_mean UKF_new) (identity 7))
  = augmented_mean UKF_new.
Proof.
  apply sigma_points_mean_recovery.
  - reflexivity.
  - split; [reflexivity|]. repeat constructor.
Defined.

(** ** Lists of known length *)

Ltac explode v H :=
  lazymatch type of H with
  | length v = O => destruct v; [clear H | discriminate H]
  | length v = S _ =>
      let a := fresh "e" in
      destruct v as [|a v];
      [discriminate H | cbn [length] in H; apply eq_add_S in H; explode v H]
  end.

Ltac explode_rows :=
  repeat match goal with
         | H : Forall _ (_ :: _) |- _ =>
             let h := fresh "Hrow" in
             apply Forall_cons_iff in H; destruct H as [h H]
         | H : Forall _ [] |- _ => clear H
         end.

Ltac explode_mat P H :=
  let Hl := fresh "Hl" in
  let Hr := fresh "Hr" in
  destruct H as [Hl Hr]; explode P Hl; explode_rows;
  repeat match goal with
         | h : length ?r = _ |- _ => is_var r; explode r h
         end.

(** Unfolds the list-level operations on explicit lists, leaving the
    arithmetic on reals untouched. *)
Ltac mat_eval :=
  cbv [mmul mv dot col vnth mnth nth map seq ncols hd length transpose
       madd msub vadd vsub vscale mscale outer identity Nat.eqb fold_left
       app zeros mzeros repeat n_x_ n_aug_ n_z_radar vset firstn
       Nat.add Nat.mul Nat.sub].

Ltac mat_eval_in H :=
  cbv [mmul mv dot col vnth mnth nth map seq ncols hd length transpose
       madd msub vadd vsub vscale mscale outer identity Nat.eqb fold_left
       app zeros mzeros repeat n_x_ n_aug_ n_z_radar vset firstn
       Nat.add Nat.mul Nat.sub] in H.

(** Equality of explicit lists (of lists) of reals, entry by entry. *)
Ltac entries tac :=
  repeat match goal with
         | |- (_ :: _) = (_ :: _) => apply (f_equal2 cons)
         | |- @nil _ = @nil _ => reflexivity
         | |- @eq R _ _ => tac
         end.

(** ** The inverse at sizes two and three *)

Lemma inverse2_correct S :
  has_dims 2 2 S -> det2 S <> 0 -> Closed.inverse_of 2 S (inverse S).
Proof.
  intros HS Hd. explode_mat S HS.
  unfold Closed.inverse_of, inverse. cbn [length]. unfold inverse2, det2 in *.
  mat_eval. mat_eval_in Hd.
  split; repeat (f_equal; try (field; exact Hd)).
Qed.

Lemma inverse3_correct S :
  has_dims 3 3 S -> det3 S <> 0 -> Closed.inverse_of 3 S (inverse S).
Proof.
  intros HS Hd. explode_mat S HS.
  unfold Closed.inverse_of, inverse. cbn [length]. unfold inverse3, det3 in *.
  mat_eval. mat_eval_in Hd.
  split; repeat (f_equal; try (field; exact Hd)).
Qed.

Lemma has_dims_inverse2 S : length S = 2%nat -> has_dims 2 2 (inverse S).
Proof.
  intros H. unfold inverse. rewrite H. split; [reflexivity|].
  repeat constructor.
Qed.

Lemma has_dims_inverse3 S : length S = 3%nat -> has_dims 3 3 (inverse S).
Proof.
  intros H. unfold inverse. rewrite H. split; [reflexivity|].
  repeat constructor.
Qed.

(** ** Lidar update: the matrix code against the closed forms *)

Section LidarUpdate.

Variable st : UKF.
Hypothesis Hx : length (x_ st) = n_x_.
Hypothesis HP : has_dims n_x_ n_x_ (P_ st).

Lemma lidar_y_closed z :
  length z = 2%nat -> lidar_y st z = Closed.innovation (x_ st) z.
Proof.
  intros Hz. unfold lidar_y, Closed.innovation, H_laser.
  destruct (x_ st) as [|x0 [|x1 [|x2 [|x3 [|x4 [|]]]]]]; try discriminate Hx.
  explode z Hz. mat_eval. repeat (f_equal; try ring).
Qed.

Lemma lidar_S_closed :
  lidar_S st = Closed.innovation_cov (P_ st) (std_laspx_ st) (std_laspy_ st).
Proof.
  unfold lidar_S, Closed.innovation_cov, H_laser, R_laser.
  generalize (std_laspx_ st) (std_laspy_ st). intros rx ry.
  destruct HP as [Hl Hr]. revert Hl Hr.
  generalize (P_ st). intros P Hl Hr.
  change n_x_ with 5%nat in *.
  explode P Hl. explode_rows.
  repeat match goal with h : length ?r = _ |- _ => is_var r; explode r h end.
  mat_eval. repeat (f_equal; try ring).
Qed.

Lemma lidar_K_closed :
  lidar_K st = Closed.gain (P_ st) (inverse (lidar_S st)).
Proof.
  unfold lidar_K, Closed.gain, H_laser.
  assert (HSi : has_dims 2 2 (inverse (lidar_S st))).
  { apply has_dims_inverse2. reflexivity. }
  revert HSi. generalize (inverse (lidar_S st)). intros Si HSi.
  destruct HP as [Hl Hr]. revert Hl Hr.
  generalize (P_ st). intros P Hl Hr.
  change n_x_ with 5%nat in *.
  explode P Hl. explode_rows.
  repeat match goal with h : length ?r = _ |- _ => is_var r; explode r h end.
  destruct HSi as [HSl HSr]. explode Si HSl. explode_rows.
  repeat match goal with h : length ?r = _ |- _ => is_var r; explode r h end.
  mat_eval. repeat (f_equal; try ring).
Qed.

Lemma lidar_mean_closed K y :
  has_dims n_x_ 2 K -> length y = 2%nat ->
  vadd (x_ st) (mv K y) = Closed.corrected_mean (x_ st) K y.
Proof.
  intros HK Hy. unfold Closed.corrected_mean.
  destruct (x_ st) as [|x0 [|x1 [|x2 [|x3 [|x4 [|]]]]]]; try discriminate Hx.
  change n_x_ with 5%nat in *.
  explode y Hy. destruct HK as [HKl HKr]. explode K HKl. explode_rows.
  repeat match goal with h : length ?r = _ |- _ => is_var r; explode r h end.
  mat_eval. repeat (f_equal; try ring).
Qed.

Lemma lidar_cov_closed K :
  has_dims n_x_ 2 K ->
  mmul (msub (identity n_x_) (mmul K H_laser)) (P_ st)
  = Closed.corrected_cov (P_ st) K.
Proof.
  intros HK. unfold Closed.corrected_cov, H_laser.
  destruct HP as [Hl Hr]. revert Hl Hr.
  generalize (P_ st). intros P Hl Hr.
  change n_x_ with 5%nat in *.
  explode P Hl. explode_rows.
  repeat match goal with h : length ?r = _ |- _ => is_var r; explode r h end.
  destruct HK as [HKl HKr]. explode K HKl. explode_rows.
  repeat match goal with h : length ?r = _ |- _ => is_var r; explode r h end.
  mat_eval. repeat (f_equal; try ring).
Qed.

Lemma quad_form_closed y Si :
  has_dims 2 2 Si -> length y = 2%nat -> quad_form y Si = Closed.nis2 y Si.
Proof.
  intros HSi Hy. unfold quad_form, Closed.nis2.
  explode y Hy. destruct HSi as [HSl HSr]. explode Si HSl. explode_rows.
  repeat match goal with h : length ?r = _ |- _ => is_var r; explode r h end.
  mat_eval. ring.
Qed.

Lemma has_dims_lidar_S : has_dims 2 2 (lidar_S st).
Proof.
  rewrite lidar_S_closed. split; [reflexivity|]. repeat constructor.
Qed.

Lemma has_dims_lidar_K : has_dims n_x_ 2 (lidar_K st).
Proof.
  rewrite lidar_K_closed. split.
  - unfold Closed.gain. rewrite length_map, length_seq. reflexivity.
  - apply Forall_forall. intros r Hr. apply in_map_iff in Hr.
    destruct Hr as [j [<- _]]. reflexivity.
Qed.

End LidarUpdate.

(** C1: for every 5-entry mean x, 5x5 covariance P and 2-entry lidar
    measurement z, UpdateLidar computes the innovation y = z - H x, the
    innovation covariance S = H P H^T + diag(std_laspx^2, std_laspy^2),
    the gain K = P H^T S^-1, and stores x + K y as mean, (I - K H) P as
    covariance and y^T S^-1 y as lidar NIS; S^-1 is the inverse of S
    whenever S has one. *)
Theorem UpdateLidar_closed_form (st : UKF) (m : MeasurementPackage) :
  length (x_ st) = n_x_ ->
  has_dims n_x_ n_x_ (P_ st) ->
  length (raw_measurements_ m) = 2%nat ->
  let y := Closed.innovation (x_ st) (raw_measurements_ m) in
  let S := Closed.innovation_cov (P_ st) (std_laspx_ st) (std_laspy_ st) in
  let Si := inverse S in
  let K := Closed.gain (P_ st) Si in
  lidar_y st (raw_measurements_ m) = y /\
  lidar_S st = S /\
  lidar_K st = K /\
  (det2 S <> 0 -> Closed.inverse_of 2 S Si) /\
  x_ (UpdateLidar st m) = Closed.corrected_mean (x_ st) K y /\
  P_ (UpdateLidar st m) = Closed.corrected_cov (P_ st) K /\
  NIS_laser_ (UpdateLidar st m) = Closed.nis2 y Si.
Proof.
  intros Hx HP Hz y S Si K.
  pose proof (lidar_y_closed st Hx _ Hz) as Ey.
  pose proof (lidar_S_closed st HP) as ES.
  pose proof (lidar_K_closed st HP) as EK.
  pose proof (has_dims_lidar_K st HP) as HK.
  pose proof (has_dims_lidar_S st HP) as HS.
  fold y in Ey. fold S in ES. rewrite ES in EK, HS. fold Si K in EK.
  split; [exact Ey|]. split; [exact ES|]. split; [exact EK|].
  split; [intros Hd; apply inverse2_correct; assumption|].
  unfold UpdateLidar. rewrite Ey, ES, EK in *. fold Si.
  unfold set_NIS_laser, set_P, set_x.
  cbn [x_ P_ NIS_laser_].
  split; [|split].
  - apply lidar_mean_closed; [exact Hx|exact HK|reflexivity].
  - apply lidar_cov_closed; assumption.
  - apply quad_form_closed; [|reflexivity].
    apply has_dims_inverse2. reflexivity.
Qed.

(** The constructor's state and the laser record (1, 2). *)
Lemma UpdateLidar_closed_form_witness :
  let st := UKF_new in
  let m := mkMeas 1477010443050000 LASER [1; 2] in
  let y := Closed.innovation (x_ st) (raw_measurements_ m) in
  let S := Closed.innovation_cov (P_ st) (std_laspx_ st) (std_laspy_ st) in
  let K := Closed.gain (P_ st) (inverse S) in
  x_ (UpdateLidar st m) = Closed.corrected_mean (x_ st) K y /\
  P_ (UpdateLidar st m) = Closed.corrected_cov (P_ st) K /\
  NIS_laser_ (UpdateLidar st m) = Closed.nis2 y (inverse S).
Proof.
  intros st m y S K.
  refine (proj2 (proj2 (proj2 (proj2
    (UpdateLidar_closed_form st m eq_refl _ eq_refl))))).
  split; [reflexivity|]. repeat constructor.
Defined.

(** ** Radar update: the loops against the closed forms *)

Lemma radar_h_closed p : radar_h p = ClosedRadar.radar_point p.
Proof.
  rewrite radar_h_range. unfold ClosedRadar.radar_point.
  assert (E : radar_range p
              = Rmax (sqrt (vnth 0 p * vnth 0 p + vnth 1 p * vnth 1 p)) 0.001).
  { unfold radar_range. set (r := sqrt _).
    assert (Hr : 0 <= r) by apply sqrt_pos.
    destruct (Rlt_dec (Rabs r) 0.001) as [Hlt|Hge].
    - rewrite Rabs_right in Hlt by lra. rewrite Rmax_right; lra.
    - rewrite Rabs_right in Hge by lra. rewrite Rmax_left; lra. }
  rewrite E. repeat (f_equal; try ring).
Qed.

Lemma length_radar_h p : length (radar_h p) = n_z_radar.
Proof. reflexivity. Qed.

Lemma sum_upto_3 f :
  sum_upto 3 f = f 0%nat + (f 1%nat + (f 2%nat + 0)).
Proof. reflexivity. Qed.

Lemma length_normalized_diff k a b :
  length a = length b -> length (normalized_diff k a b) = length a.
Proof.
  intros H. unfold normalized_diff. rewrite length_vset. apply length_vsub, H.
Qed.

Lemma vnth_normalized_diff k a b j :
  length a = length b -> (k < length a)%nat ->
  vnth j (normalized_diff k a b)
  = Closed.angle_at k j (vnth j a - vnth j b).
Proof.
  intros H Hk. unfold normalized_diff, Closed.angle_at.
  destruct (Nat.eqb_spec j k) as [->|Hne].
  - rewrite vnth_vset_same by (rewrite length_vsub; assumption).
    rewrite vnth_vsub by assumption. apply normalize_angle_closed.
  - rewrite vnth_vset_other by assumption. apply vnth_vsub, H.
Qed.

Lemma has_dims_map_seq (f : nat -> nat -> R) m n :
  has_dims m n (map (fun j => map (fun k => f j k) (seq 0 n)) (seq 0 m)).
Proof.
  split.
  - rewrite length_map, length_seq. reflexivity.
  - apply Forall_forall. intros r Hr. apply in_map_iff in Hr.
    destruct Hr as [j [<- _]]. rewrite length_map, length_seq. reflexivity.
Qed.

Lemma mnth_map_seq (f : nat -> nat -> R) m n j k :
  (j < m)%nat -> (k < n)%nat ->
  mnth j k (map (fun j => map (fun k => f j k) (seq 0 n)) (seq 0 m)) = f j k.
Proof.
  intros Hj Hk. unfold mnth.
  rewrite nth_map_seq by assumption. apply vnth_map_seq. assumption.
Qed.

Lemma length_map_seq {A} (f : nat -> A) n : length (map f (seq 0 n)) = n.
Proof. rewrite length_map, length_seq. reflexivity. Qed.

Lemma residual_closed a b :
  length a = n_z_radar -> length b = n_z_radar ->
  normalized_diff 1 a b = ClosedRadar.residual a b.
Proof.
  intros Ha Hb.
  assert (Hab : length a = length b) by (rewrite Ha, Hb; reflexivity).
  apply vec_ext.
  - rewrite length_normalized_diff by exact Hab.
    unfold ClosedRadar.residual. rewrite length_map_seq. exact Ha.
  - intros j Hj. rewrite length_normalized_diff in Hj by exact Hab.
    rewrite vnth_normalized_diff
      by (try exact Hab; rewrite Ha; unfold n_z_radar; lia).
    unfold ClosedRadar.residual. rewrite Ha in Hj.
    rewrite vnth_map_seq by exact Hj. reflexivity.
Qed.

Lemma deviation_closed a b :
  length a = n_x_ -> length b = n_x_ ->
  normalized_diff 3 a b = Closed.deviation a b.
Proof.
  intros Ha Hb.
  assert (Hab : length a = length b) by (rewrite Ha, Hb; reflexivity).
  apply vec_ext.
  - rewrite length_normalized_diff by exact Hab.
    unfold Closed.deviation. rewrite length_map_seq. exact Ha.
  - intros j Hj. rewrite length_normalized_diff in Hj by exact Hab.
    rewrite vnth_normalized_diff
      by (try exact Hab; rewrite Ha; unfold n_x_; lia).
    unfold Closed.deviation. rewrite Ha in Hj.
    rewrite vnth_map_seq by exact Hj. reflexivity.
Qed.

Section RadarMeasurement.

Variable st : UKF.

Let X := Xsig_pred_ st.

Lemma radar_Zsig_nth i :
  (i < n_sig)%nat ->
  nth i (radar_Zsig st) [] = ClosedRadar.radar_point (nth i X []).
Proof.
  intros Hi. unfold radar_Zsig. rewrite nth_map_seq by assumption.
  apply radar_h_closed.
Qed.

Lemma radar_z_pred_closed :
  radar_z_pred st = ClosedRadar.measurement_mean X.
Proof.
  unfold radar_z_pred.
  destruct (weighted_mean_entries n_z_radar (radar_Zsig st)) as [Hl He].
  { intros i Hi. rewrite radar_Zsig_nth by assumption. reflexivity. }
  apply vec_ext.
  - rewrite Hl. unfold ClosedRadar.measurement_mean.
    rewrite length_map_seq. reflexivity.
  - intros j Hj. rewrite Hl in Hj. rewrite He.
    unfold ClosedRadar.measurement_mean. rewrite vnth_map_seq by assumption.
    unfold Closed.wsum. apply sum_upto_ext. intros i Hi.
    rewrite radar_Zsig_nth by assumption. reflexivity.
Qed.

Lemma length_measurement_mean : length (ClosedRadar.measurement_mean X) = n_z_radar.
Proof. apply length_map_seq. Qed.

Lemma radar_z_diff_nth i :
  (i < n_sig)%nat ->
  nth i (radar_z_diff st) []
  = ClosedRadar.residual (ClosedRadar.radar_point (nth i X []))
                         (ClosedRadar.measurement_mean X).
Proof.
  intros Hi. unfold radar_z_diff. rewrite nth_map_seq by assumption.
  rewrite radar_Zsig_nth by assumption. rewrite radar_z_pred_closed.
  apply residual_closed; [reflexivity|apply length_measurement_mean].
Qed.

Lemma length_residual a b : length (ClosedRadar.residual a b) = n_z_radar.
Proof. apply length_map_seq. Qed.

Lemma length_deviation a b : length (Closed.deviation a b) = n_x_.
Proof. apply length_map_seq. Qed.

Lemma has_dims_R_radar : has_dims n_z_radar n_z_radar (R_radar st).
Proof. split; [reflexivity|]. repeat constructor. Qed.

Lemma radar_S_closed :
  radar_S st = ClosedRadar.measurement_cov X (R_radar st).
Proof.
  unfold radar_S.
  destruct (fold_madd_spec
              (fun i => outer (vscale (vnth i weights_) (nth i (radar_z_diff st) []))
                              (nth i (radar_z_diff st) []))
              n_z_radar n_z_radar (seq 0 n_sig) (mzeros n_z_radar n_z_radar))
    as [Hd He].
  { apply has_dims_mzeros. }
  { intros i Hi. apply in_seq in Hi.
    rewrite radar_z_diff_nth by lia.
    pose proof (has_dims_outer
      (vscale (vnth i weights_)
         (ClosedRadar.residual (ClosedRadar.radar_point (nth i X []))
            (ClosedRadar.measurement_mean X)))
      (ClosedRadar.residual (ClosedRadar.radar_point (nth i X []))
            (ClosedRadar.measurement_mean X))) as H.
    rewrite length_vscale, !length_residual in H. exact H. }
  apply (mat_ext n_z_radar n_z_radar).
  - apply has_dims_madd; [exact Hd|apply has_dims_R_radar].
  - apply has_dims_map_seq.
  - intros j k Hj Hk.
    rewrite (mnth_madd n_z_radar _ n_z_radar) by (exact Hd || apply has_dims_R_radar).
    rewrite He, mnth_mzeros, Rplus_0_l.
    unfold ClosedRadar.measurement_cov.
    rewrite (mnth_map_seq _ n_z_radar n_z_radar) by assumption.
    f_equal. unfold Closed.wsum, sum_upto. f_equal.
    apply map_ext_in. intros i Hi. apply in_seq in Hi.
    rewrite radar_z_diff_nth by lia.
    rewrite mnth_outer, vnth_vscale. ring.
Qed.

Lemma has_dims_radar_S : has_dims n_z_radar n_z_radar (radar_S st).
Proof. rewrite radar_S_closed. apply has_dims_map_seq. Qed.

End RadarMeasurement.

Section RadarCross.

Variable st : UKF.
Hypothesis Hx : length (x_ st) = n_x_.
Hypothesis HX : forall i, (i < n_sig)%nat -> length (nth i (Xsig_pred_ st) []) = n_x_.

Let X := Xsig_pred_ st.

Lemma radar_Tc_closed :
  radar_Tc st = ClosedRadar.cross_cov X (x_ st).
Proof.
  unfold radar_Tc.
  destruct (fold_madd_spec
              (fun i => outer (vscale (vnth i weights_)
                                 (normalized_diff 3 (nth i (Xsig_pred_ st) []) (x_ st)))
                              (nth i (radar_z_diff st) []))
              n_x_ n_z_radar (seq 0 n_sig) (mzeros n_x_ n_z_radar))
    as [Hd He].
  { apply has_dims_mzeros. }
  { intros i Hi. apply in_seq in Hi.
    rewrite (radar_z_diff_nth st) by lia.
    rewrite deviation_closed by (try apply HX; try exact Hx; lia).
    pose proof (has_dims_outer
      (vscale (vnth i weights_) (Closed.deviation (nth i (Xsig_pred_ st) []) (x_ st)))
      (ClosedRadar.residual (ClosedRadar.radar_point (nth i X []))
            (ClosedRadar.measurement_mean X))) as H.
    rewrite length_vscale, length_residual, length_deviation in H. exact H. }
  apply (mat_ext n_x_ n_z_radar).
  - exact Hd.
  - apply has_dims_map_seq.
  - intros j k Hj Hk.
    rewrite He, mnth_mzeros, Rplus_0_l.
    unfold ClosedRadar.cross_cov.
    rewrite (mnth_map_seq _ n_x_ n_z_radar) by assumption.
    unfold Closed.wsum, sum_upto. f_equal.
    apply map_ext_in. intros i Hi. apply in_seq in Hi.
    rewrite (radar_z_diff_nth st) by lia.
    rewrite deviation_closed by (try apply HX; try exact Hx; lia).
    rewrite mnth_outer, vnth_vscale. unfold X. ring.
Qed.

Lemma has_dims_radar_Tc : has_dims n_x_ n_z_radar (radar_Tc st).
Proof. rewrite radar_Tc_closed. apply has_dims_map_seq. Qed.

End RadarCross.

Lemma radar_gain_closed Tc Si :
  has_dims n_x_ n_z_radar Tc -> has_dims n_z_radar n_z_radar Si ->
  mmul Tc Si = ClosedRadar.gain Tc Si.
Proof.
  intros HT HS. unfold ClosedRadar.gain, sum_upto.
  change n_x_ with 5%nat in *. change n_z_radar with 3%nat in *.
  explode_mat Tc HT. explode_mat Si HS.
  mat_eval. cbv [Rsum fold_right]. repeat (f_equal; try ring).
Qed.

Lemma radar_mean_closed x K r :
  length x = n_x_ -> has_dims n_x_ n_z_radar K -> length r = n_z_radar ->
  vadd x (mv K r) = ClosedRadar.corrected_mean x K r.
Proof.
  intros Hx HK Hr. unfold ClosedRadar.corrected_mean, sum_upto.
  change n_x_ with 5%nat in *. change n_z_radar with 3%nat in *.
  explode x Hx. explode r Hr. explode_mat K HK.
  mat_eval. cbv [Rsum fold_right]. repeat (f_equal; try ring).
Qed.

Lemma radar_cov_closed P K S :
  has_dims n_x_ n_x_ P -> has_dims n_x_ n_z_radar K ->
  has_dims n_z_radar n_z_radar S ->
  msub P (mmul (mmul K S) (transpose K)) = ClosedRadar.corrected_cov P K S.
Proof.
  intros HP HK HS. unfold ClosedRadar.corrected_cov, sum_upto.
  change n_x_ with 5%nat in *. change n_z_radar with 3%nat in *.
  explode_mat P HP. explode_mat K HK. explode_mat S HS.
  mat_eval. cbv [Rsum fold_right]. repeat (f_equal; try ring).
Qed.

Lemma radar_nis_closed r Si :
  length r = n_z_radar -> has_dims n_z_radar n_z_radar Si ->
  quad_form r Si = ClosedRadar.nis r Si.
Proof.
  intros Hr HS. unfold ClosedRadar.nis, quad_form, sum_upto.
  change n_z_radar with 3%nat in *.
  explode r Hr. explode_mat Si HS.
  mat_eval. cbv [Rsum fold_right]. ring.
Qed.

(** ** The radar update on explicit sigma points *)

Lemma normalize_angle_0 : normalize_angle 0 = 0.
Proof. apply normalize_angle_id. pose proof PI_RGT_0. lra. Qed.

Lemma radar_h_on_axis px v :
  0.001 <= px -> radar_h [px; 0; v; 0; 0] = [px; 0; v].
Proof.
  intros H. rewrite radar_h_range.
  assert (Er : radar_range [px; 0; v; 0; 0] = px).
  { unfold radar_range. cbn [vnth nth].
    replace (px * px + 0 * 0) with (px * px) by ring.
    rewrite sqrt_square by lra.
    destruct (Rlt_dec (Rabs px) 0.001) as [Hlt|_]; [|reflexivity].
    rewrite Rabs_right in Hlt by lra. lra. }
  rewrite Er. cbn [vnth nth].
  assert (Ea : atan2 0 px = 0).
  { unfold atan2. destruct (Rlt_dec 0 px) as [_|Hn]; [|lra].
    unfold Rdiv. rewrite Rmult_0_l. apply atan_0. }
  rewrite Ea, cos_0, sin_0.
  f_equal. f_equal. f_equal. field. lra.
Qed.

Lemma axis_Zsig P :
  radar_Zsig (axis_state P)
  = [ [5; 0; 1];
      [8; 0; 1]; [5; 0; 1]; [5; 0; 4]; [5; 0; 1];
      [5; 0; 1]; [5; 0; 1]; [5; 0; 1];
      [2; 0; 1]; [5; 0; 1]; [5; 0; -2]; [5; 0; 1];
      [5; 0; 1]; [5; 0; 1]; [5; 0; 1] ].
Proof.
  unfold radar_Zsig, axis_state, axis_points. cbn [Xsig_pred_].
  change n_sig with 15%nat. cbn [seq map nth].
  rewrite !radar_h_on_axis by lra. reflexivity.
Qed.

Lemma axis_z_pred P : radar_z_pred (axis_state P) = [5; 0; 1].
Proof.
  unfold radar_z_pred. rewrite axis_Zsig.
  unfold weighted_mean. rewrite weights_val.
  change n_sig with 15%nat. mat_eval. entries lra.
Qed.

Lemma axis_z_diff P :
  radar_z_diff (axis_state P)
  = [ [0; 0; 0];
      [3; 0; 0]; [0; 0; 0]; [0; 0; 3]; [0; 0; 0];
      [0; 0; 0]; [0; 0; 0]; [0; 0; 0];
      [-3; 0; 0]; [0; 0; 0]; [0; 0; -3]; [0; 0; 0];
      [0; 0; 0]; [0; 0; 0]; [0; 0; 0] ].
Proof.
  unfold radar_z_diff. rewrite axis_Zsig, axis_z_pred.
  change n_sig with 15%nat. cbn [seq map nth].
  unfold normalized_diff. cbn [vsub vnth nth vset].
  replace (0 - 0) with 0 by ring. rewrite normalize_angle_0.
  entries lra.
Qed.

Lemma axis_S P :
  radar_S (axis_state P)
  = [ [3.09; 0; 0]; [0; 0.0009; 0]; [0; 0; 3.09] ].
Proof.
  unfold radar_S. rewrite axis_z_diff, weights_val.
  unfold R_radar, axis_state. cbn [std_radr_ std_radphi_ std_radrd_].
  change n_sig with 15%nat. mat_eval. entries lra.
Qed.

Lemma axis_Tc P :
  radar_Tc (axis_state P)
  = [ [3; 0; 0]; [0; 0; 0]; [0; 0; 3]; [0; 0; 0]; [0; 0; 0] ].
Proof.
  unfold radar_Tc. rewrite axis_z_diff, weights_val.
  unfold axis_state, axis_points. cbn [Xsig_pred_ x_].
  change n_sig with 15%nat. cbn [seq fold_left nth].
  unfold normalized_diff. cbn [vsub vnth nth vset].
  replace (0 - 0) with 0 by ring. rewrite normalize_angle_0.
  mat_eval. entries lra.
Qed.

Lemma axis_det P : det3 (radar_S (axis_state P)) <> 0.
Proof. rewrite axis_S. unfold det3. cbv [mnth vnth nth]. lra. Qed.

Lemma axis_K P :
  radar_K (axis_state P)
  = [ [100 / 103; 0; 0]; [0; 0; 0]; [0; 0; 100 / 103];
      [0; 0; 0]; [0; 0; 0] ].
Proof.
  unfold radar_K. rewrite axis_S, axis_Tc.
  unfold inverse. cbn [length]. unfold inverse3, det3.
  mat_eval. entries ltac:(first [lra | field; lra | field]).
Qed.

(** The radar record (6, 0.1, 2) moves this mean. *)
Lemma axis_update_mean P :
  x_ (UpdateRadar (axis_state P) (mkMeas 0 RADAR [6; 0.1; 2]))
  = [5 + 100 / 103; 0; 1 + 100 / 103; 0; 0].
Proof.
  unfold UpdateRadar, set_NIS_radar, set_P, set_x. cbn [x_].
  rewrite axis_K. unfold radar_residual. rewrite axis_z_pred.
  cbn [raw_measurements_]. unfold normalized_diff.
  cbn [vsub vnth nth vset].
  replace (0.1 - 0) with 0.1 by lra.
  rewrite (normalize_angle_id 0.1) by (pose proof PI2_3_2; lra).
  unfold axis_state. cbn [x_]. mat_eval. entries lra.
Qed.

Lemma axis_update_cov P m :
  P_ (UpdateRadar (axis_state P) m)
  = msub P
      (mmul (mmul [ [100 / 103; 0; 0]; [0; 0; 0]; [0; 0; 100 / 103];
                    [0; 0; 0]; [0; 0; 0] ]
                  [ [3.09; 0; 0]; [0; 0.0009; 0]; [0; 0; 3.09] ])
            (transpose [ [100 / 103; 0; 0]; [0; 0; 0]; [0; 0; 100 / 103];
                         [0; 0; 0]; [0; 0; 0] ])).
Proof.
  unfold UpdateRadar, set_NIS_radar, set_P, set_x. cbn [P_].
  rewrite axis_K, axis_S. reflexivity.
Qed.

(** The closed form of the normalized angle is the angle moved by a
    whole number of turns into [-PI, PI]. *)
Lemma normalized_spec a :
  - PI <= Closed.normalized a <= PI /\
  exists k : Z, Closed.normalized a = a + 2 * IZR k * PI.
Proof.
  rewrite <- normalize_angle_closed. unfold normalize_angle.
  destruct (wrap_down_range a) as (D1 & D2 & D3).
  destruct (wrap_up_range (wrap_down a)) as (U1 & U2 & U3).
  split.
  - split; [exact U1|].
    destruct (Rle_or_lt (- PI) (wrap_down a)) as [Hle|Hlt].
    + rewrite U2 by exact Hle. exact D1.
    + left. apply U3. exact Hlt.
  - destruct (wrap_down_turns a) as [k1 H1].
    destruct (wrap_up_turns (wrap_down a)) as [k2 H2].
    exists (Z.of_nat k2 - Z.of_nat k1)%Z.
    rewrite H2, H1, minus_IZR, <- !INR_IZR_INZ. ring.
Qed.

(** C2: for every retained set of 15 predicted sigma points and every
    3-entry radar measurement, with the headings and the measured
    bearing of magnitude at most 2^53 (where the normalization loops
    return), UpdateRadar maps each point to (range floored at 0.001,
    atan2 bearing, range rate), takes the weighted mean, builds S from
    the bearing-normalized residuals plus
    diag(std_radr^2, std_radphi^2, std_radrd^2) and Tc from the
    heading-normalized state deviations and the same residuals; a
    normalized angle is the angle moved by a whole number of turns into
    [-PI, PI].  Where S has an inverse (its determinant is not zero),
    S^-1 is that inverse, K = Tc S^-1, and the update stores x + K r as
    mean, P - K S K^T as covariance and r^T S^-1 r as radar NIS, r
    being the bearing-normalized residual of the measurement. *)
Theorem UpdateRadar_closed_form (st : UKF) (m : MeasurementPackage) :
  length (x_ st) = n_x_ ->
  has_dims n_x_ n_x_ (P_ st) ->
  has_dims n_sig n_x_ (Xsig_pred_ st) ->
  length (raw_measurements_ m) = n_z_radar ->
  in_reach (vnth 3 (x_ st)) ->
  (forall i, (i < n_sig)%nat ->
     in_reach (vnth 3 (nth i (Xsig_pred_ st) []))) ->
  in_reach (vnth 1 (raw_measurements_ m)) ->
  let X := Xsig_pred_ st in
  let Rn := [ [std_radr_ st * std_radr_ st; 0; 0];
              [0; std_radphi_ st * std_radphi_ st; 0];
              [0; 0; std_radrd_ st * std_radrd_ st] ] in
  let zm := ClosedRadar.measurement_mean X in
  let S := ClosedRadar.measurement_cov X Rn in
  let Tc := ClosedRadar.cross_cov X (x_ st) in
  let Si := inverse S in
  let K := ClosedRadar.gain Tc Si in
  let r := ClosedRadar.residual (raw_measurements_ m) zm in
  radar_Zsig st
  = map (fun i => ClosedRadar.radar_point (nth i X [])) (seq 0 n_sig) /\
  radar_z_pred st = zm /\
  radar_S st = S /\
  radar_Tc st = Tc /\
  (forall a, - PI <= Closed.normalized a <= PI /\
             exists k : Z, Closed.normalized a = a + 2 * IZR k * PI) /\
  (det3 S <> 0 ->
   Closed.inverse_of 3 S Si /\
   radar_K st = K /\
   x_ (UpdateRadar st m) = ClosedRadar.corrected_mean (x_ st) K r /\
   P_ (UpdateRadar st m) = ClosedRadar.corrected_cov (P_ st) K S /\
   NIS_radar_ (UpdateRadar st m) = ClosedRadar.nis r Si).
Proof.
  intros Hx HP HXd Hz _ _ _ X Rn zm S Tc Si K r.
  assert (HX : forall i, (i < n_sig)%nat -> length (nth i (Xsig_pred_ st) []) = n_x_).
  { intros i Hi. apply (has_dims_nth n_sig); assumption. }
  pose proof (radar_z_pred_closed st) as Ez.
  pose proof (radar_S_closed st) as ES.
  pose proof (radar_Tc_closed st Hx HX) as ET.
  pose proof (has_dims_radar_S st) as HS.
  pose proof (has_dims_radar_Tc st Hx HX) as HT.
  fold X zm in Ez. change (R_radar st) with Rn in ES. fold X S in ES.
  fold X Tc in ET. rewrite ES in HS. rewrite ET in HT.
  assert (HSi : has_dims n_z_radar n_z_radar Si).
  { apply has_dims_inverse3. exact (proj1 HS). }
  assert (EK : radar_K st = K).
  { unfold radar_K. rewrite ES, ET. apply radar_gain_closed; assumption. }
  assert (HK : has_dims n_x_ n_z_radar K) by apply has_dims_map_seq.
  assert (Er : radar_residual st (raw_measurements_ m) = r).
  { unfold radar_residual. rewrite Ez.
    apply residual_closed; [exact Hz|apply length_map_seq]. }
  split.
  { unfold radar_Zsig. apply map_ext. intros i. apply radar_h_closed. }
  split; [exact Ez|]. split; [exact ES|]. split; [exact ET|].
  split; [exact normalized_spec|].
  intros Hd.
  split; [apply inverse3_correct; assumption|].
  split; [exact EK|].
  unfold UpdateRadar. rewrite ES, EK, Er. fold Si.
  unfold set_NIS_radar, set_P, set_x. cbn [x_ P_ NIS_radar_].
  split; [|split].
  - apply radar_mean_closed; [exact Hx|exact HK|apply length_map_seq].
  - apply radar_cov_closed; assumption.
  - apply radar_nis_closed; [apply length_map_seq|exact HSi].
Qed.

Lemma axis_state_in_reach P :
  in_reach (vnth 3 (x_ (axis_state P))) /\
  forall i, (i < n_sig)%nat ->
    in_reach (vnth 3 (nth i (Xsig_pred_ (axis_state P)) [])).
Proof.
  assert (H0 : in_reach 0).
  { unfold in_reach, angle_reach. rewrite Rabs_R0. lra. }
  split; [exact H0|].
  intros i Hi. change n_sig with 15%nat in Hi.
  do 15 (destruct i as [|i]; [exact H0|]). lia.
Qed.

(** The filter on the x axis with spread sigma points, and the radar
    record (6, 0.1, 2): S is diag(3.09, 0.0009, 3.09), the gain has the
    entries 100/103 for position x and for speed, and the update moves
    the mean from (5, 0, 1, 0, 0) to (5 + 100/103, 0, 1 + 100/103, 0, 0). *)
Lemma UpdateRadar_closed_form_witness :
  let st := axis_state (P_ UKF_new) in
  let m := mkMeas 0 RADAR [6; 0.1; 2] in
  let X := Xsig_pred_ st in
  let S := ClosedRadar.measurement_cov X (R_radar st) in
  let K := ClosedRadar.gain (ClosedRadar.cross_cov X (x_ st)) (inverse S) in
  let r := ClosedRadar.residual (raw_measurements_ m)
             (ClosedRadar.measurement_mean X) in
  det3 S <> 0 /\
  K = [ [100 / 103; 0; 0]; [0; 0; 0]; [0; 0; 100 / 103];
        [0; 0; 0]; [0; 0; 0] ] /\
  x_ (UpdateRadar st m) = ClosedRadar.corrected_mean (x_ st) K r /\
  P_ (UpdateRadar st m) = ClosedRadar.corrected_cov (P_ st) K S /\
  NIS_radar_ (UpdateRadar st m) = ClosedRadar.nis r (inverse S) /\
  x_ (UpdateRadar st m) = [5 + 100 / 103; 0; 1 + 100 / 103; 0; 0].
Proof.
  intros st m X S K r.
  assert (HP : has_dims n_x_ n_x_ (P_ st)).
  { split; [reflexivity|]. repeat constructor. }
  assert (HXd : has_dims n_sig n_x_ (Xsig_pred_ st)).
  { split; [reflexivity|]. repeat constructor. }
  assert (Hb : in_reach (vnth 1 (raw_measurements_ m))).
  { unfold in_reach, angle_reach. cbn [raw_measurements_ m vnth nth].
    rewrite Rabs_right; lra. }
  destruct (UpdateRadar_closed_form st m eq_refl HP HXd eq_refl
              (proj1 (axis_state_in_reach (P_ UKF_new)))
              (proj2 (axis_state_in_reach (P_ UKF_new))) Hb)
    as (_ & _ & ES & _ & _ & Hguard).
  assert (Hd : det3 S <> 0).
  { unfold S, X. change (R_radar st) with
      [ [std_radr_ st * std_radr_ st; 0; 0];
        [0; std_radphi_ st * std_radphi_ st; 0];
        [0; 0; std_radrd_ st * std_radrd_ st] ].
    rewrite <- ES. apply axis_det. }
  destruct (Hguard Hd) as (_ & EK & Hm & Hc & Hn).
  split; [exact Hd|].
  split; [transitivity (radar_K st); [symmetry; exact EK|apply axis_K]|].
  split; [exact Hm|]. split; [exact Hc|]. split; [exact Hn|].
  apply axis_update_mean.
Defined.

(** ** Prediction: the loops against the weighted sums *)

Lemma weighted_mean_closed n X :
  (forall i, (i < n_sig)%nat -> length (nth i X []) = n) ->
  weighted_mean n X = ClosedPrediction.mean n X.
Proof.
  intros HX. destruct (weighted_mean_entries n X HX) as [Hl He].
  apply vec_ext.
  - rewrite Hl. unfold ClosedPrediction.mean. rewrite length_map_seq.
    reflexivity.
  - intros j Hj. rewrite Hl in Hj. rewrite He.
    unfold ClosedPrediction.mean. rewrite vnth_map_seq by exact Hj.
    reflexivity.
Qed.

Lemma predicted_cov_closed X x :
  (forall i, (i < n_sig)%nat -> length (nth i X []) = n_x_) ->
  length x = n_x_ ->
  predicted_cov X x = ClosedPrediction.covariance X x.
Proof.
  intros HX Hx. unfold predicted_cov.
  destruct (fold_madd_spec
              (fun i => outer (vscale (vnth i weights_)
                                 (normalized_diff 3 (nth i X []) x))
                              (normalized_diff 3 (nth i X []) x))
              n_x_ n_x_ (seq 0 n_sig) (mzeros n_x_ n_x_)) as [Hd He].
  { apply has_dims_mzeros. }
  { intros i Hi. apply in_seq in Hi.
    rewrite deviation_closed by (try apply HX; try exact Hx; lia).
    pose proof (has_dims_outer
                  (vscale (vnth i weights_) (Closed.deviation (nth i X []) x))
                  (Closed.deviation (nth i X []) x)) as H.
    rewrite length_vscale, length_deviation in H. exact H. }
  apply (mat_ext n_x_ n_x_).
  - exact Hd.
  - apply has_dims_map_seq.
  - intros j k Hj Hk. rewrite He, mnth_mzeros, Rplus_0_l.
    unfold ClosedPrediction.covariance.
    rewrite (mnth_map_seq _ n_x_ n_x_) by assumption.
    unfold Closed.wsum, sum_upto. f_equal.
    apply map_ext_in. intros i Hi. apply in_seq in Hi.
    rewrite deviation_closed by (try apply HX; try exact Hx; lia).
    rewrite mnth_outer, vnth_vscale. ring.
Qed.

Lemma length_ctrv dt p : length (ctrv dt p) = n_x_.
Proof.
  unfold ctrv. destruct (Rgt_dec (Rabs (vnth 4 p)) 0.001); reflexivity.
Qed.

Lemma length_sigma_points x_aug L : length (sigma_points x_aug L) = n_sig.
Proof.
  unfold sigma_points. cbn [length]. rewrite length_app, !length_map_seq.
  reflexivity.
Qed.

(** The sigma points after propagation, whatever the state. *)
Lemma Xsig_pred_Prediction st dt :
  Xsig_pred_ (Prediction st dt)
  = map (ctrv dt)
        (sigma_points (augmented_mean st) (cholesky (augmented_cov st))).
Proof. reflexivity. Qed.

Lemma predicted_points_length st dt i :
  (i < n_sig)%nat -> length (nth i (Xsig_pred_ (Prediction st dt)) []) = n_x_.
Proof.
  intros Hi. rewrite Xsig_pred_Prediction.
  rewrite (nth_map_lt _ _ i [] []) by (rewrite length_sigma_points; exact Hi).
  apply length_ctrv.
Qed.

Lemma has_dims_Xsig_pred st dt :
  has_dims n_sig n_x_ (Xsig_pred_ (Prediction st dt)).
Proof.
  split.
  - rewrite Xsig_pred_Prediction, length_map. apply length_sigma_points.
  - apply Forall_forall. intros p Hp. rewrite Xsig_pred_Prediction in Hp.
    apply in_map_iff in Hp. destruct Hp as [q [<- _]]. apply length_ctrv.
Qed.

(** What Prediction stores, in closed form, for every state. *)
Lemma Prediction_closed st dt :
  let X := Xsig_pred_ (Prediction st dt) in
  x_ (Prediction st dt) = ClosedPrediction.mean n_x_ X /\
  P_ (Prediction st dt)
  = ClosedPrediction.covariance X (ClosedPrediction.mean n_x_ X).
Proof.
  intros X.
  assert (HX : forall i, (i < n_sig)%nat -> length (nth i X []) = n_x_).
  { intros i Hi. apply predicted_points_length. exact Hi. }
  assert (Ex : x_ (Prediction st dt) = ClosedPrediction.mean n_x_ X).
  { change (x_ (Prediction st dt)) with (weighted_mean n_x_ X).
    apply weighted_mean_closed. exact HX. }
  split; [exact Ex|].
  change (P_ (Prediction st dt))
    with (predicted_cov X (x_ (Prediction st dt))).
  rewrite Ex. apply predicted_cov_closed; [exact HX|].
  unfold ClosedPrediction.mean. apply length_map_seq.
Qed.

(** ** The Cholesky factor has the size of its argument *)

Lemma has_dims_cholesky A : has_dims (length A) (length A) (cholesky A).
Proof. unfold cholesky, lower_view. apply has_dims_map_seq. Qed.

(** ** The augmented mean and covariance *)

Lemma length_augmented_mean st :
  length (x_ st) = n_x_ -> length (augmented_mean st) = n_aug_.
Proof.
  intros H. unfold augmented_mean. rewrite length_app, H. reflexivity.
Qed.

Lemma vnth_augmented_mean st j :
  (j < length (x_ st))%nat -> vnth j (augmented_mean st) = vnth j (x_ st).
Proof.
  intros H. unfold augmented_mean, vnth. apply app_nth1. exact H.
Qed.

Lemma length_augmented_cov st :
  length (P_ st) = n_x_ -> length (augmented_cov st) = n_aug_.
Proof.
  intros H. unfold augmented_cov. rewrite length_app, length_map, H.
  reflexivity.
Qed.

Lemma mnth_augmented_cov st j k :
  has_dims n_x_ n_x_ (P_ st) -> (j < n_x_)%nat -> (k < n_x_)%nat ->
  mnth j k (augmented_cov st) = mnth j k (P_ st).
Proof.
  intros HP Hj Hk. unfold augmented_cov, mnth.
  rewrite app_nth1 by (rewrite length_map; destruct HP as [-> _]; exact Hj).
  rewrite (nth_map_lt _ _ j [] []) by (destruct HP as [-> _]; exact Hj).
  unfold vnth. apply app_nth1.
  rewrite (has_dims_nth n_x_ n_x_) by assumption. exact Hk.
Qed.

(** Entry [(j, k)] of [L L^T]. *)
Lemma mnth_gram n L j k :
  has_dims n n L -> (j < n)%nat -> (k < n)%nat ->
  mnth j k (mmul L (transpose L)) = sum_upto n (fun c => mnth j c L * mnth k c L).
Proof.
  intros HL Hj Hk.
  assert (Hn : ncols L = n).
  { destruct n as [|n]; [lia|]. apply (ncols_dims n). exact HL. }
  pose proof (has_dims_transpose L) as HT. rewrite Hn in HT.
  destruct HL as [HLl HLr].
  rewrite mnth_mmul.
  - rewrite dot_sum.
    + rewrite (has_dims_nth n n) by (try split; assumption).
      apply sum_upto_ext. intros c Hc.
      rewrite vnth_col, mnth_transpose by (rewrite Hn; exact Hc).
      reflexivity.
    + rewrite length_col. destruct HT as [-> _].
      apply (has_dims_nth n n); [split|]; assumption.
  - rewrite HLl. exact Hj.
  - destruct n as [|n]; [lia|]. rewrite (ncols_dims n (length L) _ HT).
    rewrite HLl. exact Hk.
Qed.

(** ** Prediction over no elapsed time *)

Lemma sqrt_lambda_sq :
  sqrt (lambda_ + INR n_aug_) * sqrt (lambda_ + INR n_aug_) = 3.
Proof.
  rewrite lambda_val, n_aug_val.
  replace (-4 + 7) with 3 by lra. apply sqrt_sqrt. lra.
Qed.

Lemma Rabs_bounds a b : Rabs a <= b -> - b <= a <= b.
Proof.
  unfold Rabs. destruct (Rcase_abs a); intros H; lra.
Qed.

Lemma ctrv_at_rest p :
  length p = n_aug_ -> ctrv 0 p = firstn n_x_ p.
Proof.
  intros Hp. change n_aug_ with 7%nat in Hp. explode p Hp.
  unfold ctrv. cbv [vnth nth firstn n_x_].
  destruct (Rgt_dec _ _).
  - replace (e2 + e3 * 0) with e2 by ring.
    repeat (f_equal; try ring).
  - repeat (f_equal; try ring).
Qed.

Lemma vnth_firstn n v j : (j < n)%nat -> vnth j (firstn n v) = vnth j v.
Proof.
  revert v j. induction n as [|n IH]; intros v j Hj; [lia|].
  destruct v as [|a v]; [reflexivity|].
  destruct j as [|j]; [reflexivity|].
  cbn [firstn]. rewrite !vnth_cons_S. apply IH. lia.
Qed.

(** ** The factor [llt] computes

    When the leading columns of [A] are those of [G G^T] for a lower
    triangular [G] with a positive diagonal, the loop meets the pivots
    [G(k,k)^2], writes these columns of [G], and leaves the others as
    they are in [A] if it returns at the first column after them. *)

Lemma dot_firstn k u v :
  (k <= length u)%nat -> (k <= length v)%nat ->
  dot (firstn k u) (firstn k v) = sum_upto k (fun c => vnth c u * vnth c v).
Proof.
  intros Hu Hv.
  rewrite dot_sum by (rewrite !length_firstn; lia).
  rewrite length_firstn, Nat.min_l by lia.
  apply sum_upto_ext. intros c Hc. rewrite !vnth_firstn by exact Hc.
  reflexivity.
Qed.

Lemma sum_upto_zero_tail m n f :
  (m <= n)%nat -> (forall c, (m <= c < n)%nat -> f c = 0) ->
  sum_upto n f = sum_upto m f.
Proof.
  induction n as [|n IH]; intros Hmn Hz.
  - replace m with 0%nat by lia. reflexivity.
  - destruct (Nat.eq_dec m (S n)) as [->|Hne]; [reflexivity|].
    rewrite sum_upto_S, IH, Hz by (try lia; intros c Hc; apply Hz; lia).
    ring.
Qed.

Lemma mnth_lower_view n M i j :
  (i < n)%nat -> (j < n)%nat ->
  mnth i j (lower_view n M) = if (j <=? i)%nat then mnth i j M else 0.
Proof.
  intros Hi Hj. unfold lower_view.
  apply (mnth_map_seq
           (fun i j => if (j <=? i)%nat then mnth i j M else 0) n n i j Hi Hj).
Qed.

Section Factor.

Variables (n m : nat) (A G : list (list R)).
Hypothesis HA : has_dims n n A.
Hypothesis Hm : (m <= n)%nat.
Hypothesis Hpos : forall k, (k < m)%nat -> 0 < mnth k k G.
Hypothesis Hfac :
  forall k i, (k < m)%nat -> (k <= i < n)%nat ->
    mnth i k A = sum_upto (S k) (fun c => mnth i c G * mnth k c G).

(** The copy after the columns before [k] have been factored. *)
Let factored (k : nat) (M : list (list R)) : Prop :=
  has_dims n n M /\
  forall i j, (i < n)%nat -> (j < n)%nat ->
    mnth i j M
    = if (j <? k)%nat
      then if (j <=? i)%nat then mnth i j G else mnth i j A
      else mnth i j A.

Lemma factored_start : factored 0 A.
Proof. split; [exact HA|]. intros i j _ _. reflexivity. Qed.

Lemma factored_row k M i c :
  factored k M -> (i < n)%nat -> (c < k)%nat -> (c <= i)%nat -> (k <= n)%nat ->
  vnth c (nth i M []) = mnth i c G.
Proof.
  intros [_ HM] Hi Hc Hci Hk.
  change (vnth c (nth i M [])) with (mnth i c M).
  rewrite HM by lia.
  destruct (Nat.ltb_spec c k); [|lia].
  destruct (Nat.leb_spec c i); [reflexivity|lia].
Qed.

Lemma factored_raw k M i j :
  factored k M -> (i < n)%nat -> (j < n)%nat -> (k <= j)%nat ->
  mnth i j M = mnth i j A.
Proof.
  intros [_ HM] Hi Hj Hkj. rewrite HM by assumption.
  destruct (Nat.ltb_spec j k); [lia|reflexivity].
Qed.

Lemma llt_pivot k M :
  factored k M -> (k < n)%nat ->
  mnth k k M - dot (firstn k (nth k M [])) (firstn k (nth k M []))
  = mnth k k A - sum_upto k (fun c => mnth k c G * mnth k c G).
Proof.
  intros HM Hk.
  assert (Hl : length (nth k M []) = n)
    by (apply (has_dims_nth n n); [exact (proj1 HM)|exact Hk]).
  rewrite (factored_raw k M k k HM Hk Hk) by lia.
  rewrite dot_firstn by lia.
  f_equal. apply sum_upto_ext. intros c Hc.
  rewrite (factored_row k M k c HM) by lia. reflexivity.
Qed.

Lemma llt_step_factored k M :
  factored k M -> (k < m)%nat ->
  exists M', llt_step k M = Some M' /\ factored (S k) M'.
Proof.
  intros HM Hk.
  assert (Hkn : (k < n)%nat) by lia.
  pose proof (Hpos k Hk) as Hg.
  assert (Ex : mnth k k M - dot (firstn k (nth k M [])) (firstn k (nth k M []))
               = mnth k k G * mnth k k G).
  { rewrite (llt_pivot k M HM Hkn).
    rewrite (Hfac k k Hk) by lia. rewrite sum_upto_S. ring. }
  unfold llt_step. cbv zeta. rewrite Ex.
  destruct (Rle_dec (mnth k k G * mnth k k G) 0) as [Hle|_]; [nra|].
  rewrite sqrt_square by lra.
  eexists. split; [reflexivity|].
  assert (HlM : length M = n) by exact (proj1 (proj1 HM)).
  assert (Hrow : forall i, (i < n)%nat -> length (nth i M []) = n).
  { intros i Hi. apply (has_dims_nth n n); [exact (proj1 HM)|exact Hi]. }
  rewrite HlM.
  split.
  - split; [apply length_map_seq|].
    apply Forall_forall. intros r Hr. apply in_map_iff in Hr.
    destruct Hr as [i [<- Hi]]. apply in_seq in Hi.
    destruct (i <? k)%nat; [apply Hrow; lia|].
    destruct (i =? k)%nat; rewrite length_vset; apply Hrow; lia.
  - intros i j Hi Hj. unfold mnth at 1.
    rewrite nth_map_seq by exact Hi.
    destruct (Nat.ltb_spec i k) as [Hik|Hik].
    + (* a row above: untouched *)
      change (vnth j (nth i M [])) with (mnth i j M).
      rewrite (proj2 HM) by assumption.
      destruct (Nat.ltb_spec j k) as [Hjk|Hjk];
        destruct (Nat.ltb_spec j (S k)) as [HjS|HjS]; try lia;
        try reflexivity.
      destruct (Nat.leb_spec j i); [lia|reflexivity].
    + destruct (Nat.eqb_spec i k) as [->|Hne].
      * (* the diagonal entry *)
        destruct (Nat.eq_dec j k) as [->|Hjk].
        -- rewrite vnth_vset_same by (rewrite Hrow; lia).
           destruct (Nat.ltb_spec k (S k)); [|lia].
           destruct (Nat.leb_spec k k); [reflexivity|lia].
        -- rewrite vnth_vset_other by exact Hjk.
           change (vnth j (nth k M [])) with (mnth k j M).
           rewrite (proj2 HM) by assumption.
           destruct (Nat.ltb_spec j k) as [Hjk'|Hjk'];
             destruct (Nat.ltb_spec j (S k)) as [HjS|HjS]; try lia;
             reflexivity.
      * (* a row below: column [k] is written *)
        assert (Hki : (k < i)%nat) by lia.
        destruct (Nat.eq_dec j k) as [->|Hjk].
        -- rewrite vnth_vset_same by (rewrite Hrow; lia).
           destruct (Nat.ltb_spec k (S k)); [|lia].
           destruct (Nat.leb_spec k i); [|lia].
           change (vnth k (nth i M [])) with (mnth i k M).
           rewrite (factored_raw k M i k HM Hi Hkn) by lia.
           rewrite dot_firstn by (rewrite Hrow; lia).
           rewrite (sum_upto_ext k _ (fun c => mnth i c G * mnth k c G)).
           ++ rewrite (Hfac k i Hk) by lia. rewrite sum_upto_S.
              field. lra.
           ++ intros c Hc.
              rewrite (factored_row k M i c HM) by lia.
              rewrite (factored_row k M k c HM) by lia. reflexivity.
        -- rewrite vnth_vset_other by exact Hjk.
           change (vnth j (nth i M [])) with (mnth i j M).
           rewrite (proj2 HM) by assumption.
           destruct (Nat.ltb_spec j k) as [Hjk'|Hjk'];
             destruct (Nat.ltb_spec j (S k)) as [HjS|HjS]; try lia;
             reflexivity.
Qed.

(** Where the loop stops: after all columns, or on a pivot that is not
    positive. *)
Hypothesis Hstop :
  m = n \/
  mnth m m A - sum_upto m (fun c => mnth m c G * mnth m c G) <= 0.

Lemma llt_step_stop M :
  factored m M -> (m < n)%nat -> llt_step m M = None.
Proof.
  intros HM Hmn. unfold llt_step. cbv zeta.
  rewrite (llt_pivot m M HM Hmn).
  destruct Hstop as [->|Hle]; [lia|].
  destruct (Rle_dec _ 0) as [_|Hn]; [reflexivity|contradiction].
Qed.

Lemma llt_unblocked_factored len : forall k M,
  (k + len = n)%nat -> (k <= m)%nat -> factored k M ->
  factored m (llt_unblocked (seq k len) M).
Proof.
  induction len as [|len IH]; intros k M Hlen Hk HM.
  - cbn [seq llt_unblocked]. replace m with k by lia. exact HM.
  - cbn [seq llt_unblocked].
    destruct (Nat.eq_dec k m) as [->|Hne].
    + rewrite llt_step_stop by (try exact HM; lia). exact HM.
    + destruct (llt_step_factored k M HM ltac:(lia)) as [M' [-> HM']].
      apply IH; [lia|lia|exact HM'].
Qed.

Lemma cholesky_entries i j :
  (i < n)%nat -> (j < n)%nat ->
  mnth i j (cholesky A)
  = if (j <=? i)%nat
    then if (j <? m)%nat then mnth i j G else mnth i j A
    else 0.
Proof.
  intros Hi Hj. unfold cholesky. cbv zeta.
  rewrite (proj1 HA).
  rewrite mnth_lower_view by assumption.
  destruct (Nat.leb_spec j i) as [Hji|Hji]; [|reflexivity].
  destruct (llt_unblocked_factored n 0 A ltac:(lia) ltac:(lia) factored_start)
    as [_ HM].
  rewrite HM by assumption.
  destruct (Nat.ltb_spec j m); [|reflexivity].
  destruct (Nat.leb_spec j i); [reflexivity|lia].
Qed.

End Factor.

(** On a matrix that has a Cholesky factor, [llt] computes it. *)
Lemma cholesky_of_factor n G A : is_factor n G A -> cholesky A = G.
Proof.
  intros (HG & Hlow & Hpos & HGG).
  destruct n as [|n].
  { destruct HG as [HG _]. destruct G; [|discriminate].
    subst A. reflexivity. }
  assert (Hc : ncols G = S n) by (apply (ncols_dims n); exact HG).
  assert (HA : has_dims (S n) (S n) A).
  { subst A. pose proof (has_dims_mmul G (transpose G)) as H.
    rewrite (proj1 HG) in H.
    assert (E : ncols (transpose G) = S n).
    { pose proof (has_dims_transpose G) as HT. rewrite Hc, (proj1 HG) in HT.
      apply (ncols_dims n). exact HT. }
    rewrite E in H. exact H. }
  apply (mat_ext (S n) (S n)).
  - pose proof (has_dims_cholesky A) as H. rewrite (proj1 HA) in H. exact H.
  - exact HG.
  - intros i j Hi Hj.
    rewrite (cholesky_entries (S n) (S n) A G HA (Nat.le_refl _) Hpos).
    + destruct (Nat.leb_spec j i) as [Hji|Hji].
      * destruct (Nat.ltb_spec j (S n)); [reflexivity|lia].
      * symmetry. apply Hlow; assumption.
    + intros k i' Hk Hi'. subst A.
      rewrite (mnth_gram (S n)) by (try exact HG; lia).
      apply sum_upto_zero_tail; [lia|].
      intros c Hc'. rewrite (Hlow k c) by lia. ring.
    + left. reflexivity.
    + exact Hi.
    + exact Hj.
Qed.

(** ** The factor of the augmented covariance *)

Ltac use_lower H :=
  let inst i j :=
    (let E := fresh in
     pose proof (H i j ltac:(lia) ltac:(unfold n_x_; lia)) as E;
     cbv [mnth vnth nth] in E) in
  inst 0%nat 1%nat; inst 0%nat 2%nat; inst 0%nat 3%nat; inst 0%nat 4%nat;
  inst 1%nat 2%nat; inst 1%nat 3%nat; inst 1%nat 4%nat;
  inst 2%nat 3%nat; inst 2%nat 4%nat; inst 3%nat 4%nat;
  subst.

Ltac seven_by_seven tac :=
  let i := fresh "i" in
  let j := fresh "j" in
  intros i j;
  do 7 (destruct i as [|i];
        [do 7 (destruct j as [|j]; [tac|]); intros; exfalso; lia|]);
  intros; exfalso; lia.

Lemma Rabs_sqr x : Rabs x * Rabs x = x * x.
Proof.
  unfold Rabs. destruct (Rcase_abs x); ring.
Qed.

Lemma cholesky_augmented_cov st G :
  is_factor n_x_ G (P_ st) ->
  cholesky (augmented_cov st)
  = augmented_factor G (std_a_ st) (std_yawdd_ st).
Proof.
  intros (HG & Hlow & Hpos & HGG).
  unfold augmented_cov. rewrite <- HGG. clear HGG.
  generalize (std_a_ st) (std_yawdd_ st). intros sa sy.
  change n_x_ with 5%nat in *.
  pose proof (Hpos 0%nat ltac:(lia)) as G0.
  pose proof (Hpos 1%nat ltac:(lia)) as G1.
  pose proof (Hpos 2%nat ltac:(lia)) as G2.
  pose proof (Hpos 3%nat ltac:(lia)) as G3.
  pose proof (Hpos 4%nat ltac:(lia)) as G4.
  clear Hpos.
  explode_mat G HG. use_lower Hlow.
  cbv [mnth vnth nth] in G0, G1, G2, G3, G4.
  unfold augmented_factor.
  pose proof (Rabs_sqr sa) as Ea. pose proof (Rabs_sqr sy) as Ey.
  pose proof (Rabs_pos sa) as Pa. pose proof (Rabs_pos sy) as Py.
  destruct (Req_dec_T sa 0) as [Za|Na]; [|destruct (Req_dec_T sy 0) as [Zy|Ny]];
    match goal with
    | |- cholesky ?A = ?F =>
        set (Aug := A); set (Fac := F);
        assert (HA : has_dims 7 7 Aug)
          by (split; [reflexivity|]; repeat constructor);
        assert (HF : has_dims 7 7 Fac)
          by (split; [reflexivity|]; repeat constructor);
        apply (mat_ext 7 7); [apply (has_dims_cholesky Aug)|exact HF|]
    end.
  - (* std_a = 0: return at column 5 *)
    subst sa. rewrite Rabs_R0 in *.
    intros i j Hi Hj.
    rewrite (cholesky_entries 7 5 Aug Fac HA ltac:(lia)); try assumption.
    + revert i j Hi Hj.
      seven_by_seven
        ltac:(intros _ _; subst Aug Fac; mat_eval;
              cbv [Nat.leb Nat.ltb]; rewrite ?Rabs_R0;
              try reflexivity; ring).
    + intros k Hk.
      do 5 (destruct k as [|k]; [subst Fac; mat_eval; assumption|]). lia.
    + intros k r Hk Hr.
      do 5 (destruct k as [|k];
            [do 7 (destruct r as [|r];
                   [try lia; subst Aug Fac; unfold sum_upto, Rsum; mat_eval;
                    cbv [fold_right]; rewrite ?Rabs_R0; ring|]); lia|]).
      lia.
    + right. subst Aug Fac. unfold sum_upto, Rsum. mat_eval. cbv [fold_right].
      rewrite ?Rabs_R0. lra.
  - (* std_yawdd = 0: return at column 6 *)
    { subst sy. rewrite Rabs_R0 in *.
      assert (Pa' : 0 < Rabs sa) by (apply Rabs_pos_lt; exact Na).
      intros i j Hi Hj.
      rewrite (cholesky_entries 7 6 Aug Fac HA ltac:(lia)); try assumption.
      * revert i j Hi Hj.
        seven_by_seven
          ltac:(intros _ _; subst Aug Fac; mat_eval;
                cbv [Nat.leb Nat.ltb]; rewrite ?Rabs_R0;
              try reflexivity; ring).
      * intros k Hk.
        do 6 (destruct k as [|k]; [subst Fac; mat_eval; assumption|]). lia.
      * intros k r Hk Hr.
        do 6 (destruct k as [|k];
              [do 7 (destruct r as [|r];
                     [try lia; subst Aug Fac; unfold sum_upto, Rsum; mat_eval;
                      cbv [fold_right];
                      rewrite ?Rabs_R0, ?Ea; ring|]); lia|]).
        lia.
      * right. subst Aug Fac. unfold sum_upto, Rsum. mat_eval. cbv [fold_right].
      rewrite ?Rabs_R0. lra.
      }
  - (* both deviations nonzero: all seven columns *)
    { assert (Pa' : 0 < Rabs sa) by (apply Rabs_pos_lt; exact Na).
      assert (Py' : 0 < Rabs sy) by (apply Rabs_pos_lt; exact Ny).
      intros i j Hi Hj.
      rewrite (cholesky_entries 7 7 Aug Fac HA ltac:(lia)); try assumption.
      * revert i j Hi Hj.
        seven_by_seven
          ltac:(intros _ _; subst Aug Fac; mat_eval;
                cbv [Nat.leb Nat.ltb]; rewrite ?Rabs_R0;
              try reflexivity; ring).
      * intros k Hk.
        do 7 (destruct k as [|k]; [subst Fac; mat_eval; assumption|]). lia.
      * intros k r Hk Hr.
        do 7 (destruct k as [|k];
              [do 7 (destruct r as [|r];
                     [try lia; subst Aug Fac; unfold sum_upto, Rsum; mat_eval;
                      cbv [fold_right];
                      rewrite ?Ea, ?Ey; ring|]); lia|]).
        lia.
      * left. reflexivity. }
Qed.

Section AtRest.

Variable st : UKF.
Hypothesis Hx : length (x_ st) = n_x_.
Hypothesis HP : has_dims n_x_ n_x_ (P_ st).

Let L := cholesky (augmented_cov st).
Let s := sqrt (lambda_ + INR n_aug_).
Let X := Xsig_pred_ (Prediction st 0).

Lemma has_dims_factor : has_dims n_aug_ n_aug_ L.
Proof.
  pose proof (has_dims_cholesky (augmented_cov st)) as H.
  rewrite length_augmented_cov in H by (exact (proj1 HP)). exact H.
Qed.

(** The propagated points at [delta_t = 0], entry by entry. *)
Lemma points_at_rest j :
  (j < n_x_)%nat ->
  vnth j (nth 0 X []) = vnth j (x_ st) /\
  (forall c, (c < n_aug_)%nat ->
     vnth j (nth (1 + c) X []) = vnth j (x_ st) + s * mnth j c L) /\
  (forall c, (c < n_aug_)%nat ->
     vnth j (nth (8 + c) X []) = vnth j (x_ st) - s * mnth j c L).
Proof.
  intros Hj.
  destruct (sigma_points_entries (augmented_mean st) L
              (length_augmented_mean st Hx) (proj1 has_dims_factor))
    as (Hlen & Hl & E0 & Ep & Em).
  assert (HXi : forall i, (i < n_sig)%nat ->
             vnth j (nth i X [])
             = vnth j (nth i (sigma_points (augmented_mean st) L) [])).
  { intros i Hi. unfold X. rewrite Xsig_pred_Prediction. fold L.
    rewrite (nth_map_lt _ _ i [] []) by (rewrite Hlen; exact Hi).
    rewrite ctrv_at_rest by (apply Hl; exact Hi).
    apply vnth_firstn. exact Hj. }
  assert (Ea : vnth j (augmented_mean st) = vnth j (x_ st)).
  { apply vnth_augmented_mean. rewrite Hx. exact Hj. }
  split; [|split].
  - rewrite HXi by (unfold n_sig, n_aug_; lia). rewrite E0. exact Ea.
  - intros c Hc. rewrite HXi by (unfold n_sig, n_aug_ in *; lia).
    rewrite Ep by exact Hc. rewrite Ea. reflexivity.
  - intros c Hc. rewrite HXi by (unfold n_sig, n_aug_ in *; lia).
    rewrite Em by exact Hc. rewrite Ea. reflexivity.
Qed.

Lemma mean_at_rest : x_ (Prediction st 0) = x_ st.
Proof.
  destruct (Prediction_closed st 0) as [Ex _]. rewrite Ex. fold X.
  apply vec_ext.
  - unfold ClosedPrediction.mean. rewrite length_map_seq. symmetry. exact Hx.
  - intros j Hj. unfold ClosedPrediction.mean in *.
    rewrite length_map_seq in Hj. rewrite vnth_map_seq by exact Hj.
    destruct (points_at_rest j Hj) as (E0 & Ep & Em).
    unfold Closed.wsum. rewrite sum_upto_n_sig.
    destruct weights_entries as [W0 W].
    rewrite W0, !W by (change n_sig with 15%nat; lia).
    rewrite E0.
    rewrite7 Ep.
    rewrite7 Em.
    field.
Qed.

Hypothesis Hnowrap :
  forall c, (c < n_aug_)%nat -> Rabs (s * mnth 3 c L) <= PI.

Lemma angle_at_small j c :
  (c < n_aug_)%nat ->
  Closed.angle_at 3 j (s * mnth j c L) = s * mnth j c L /\
  Closed.angle_at 3 j (- (s * mnth j c L)) = - (s * mnth j c L).
Proof.
  intros Hc. unfold Closed.angle_at.
  destruct (Nat.eqb_spec j 3) as [->|_]; [|split; reflexivity].
  pose proof (Hnowrap c Hc) as Hb. apply Rabs_bounds in Hb.
  rewrite <- !normalize_angle_closed.
  split; apply normalize_angle_id; lra.
Qed.

Lemma angle_at_zero j : Closed.angle_at 3 j 0 = 0.
Proof.
  unfold Closed.angle_at. destruct (Nat.eqb j 3); [|reflexivity].
  rewrite <- normalize_angle_closed.
  apply normalize_angle_id. pose proof PI_RGT_0. lra.
Qed.

(** The deviations from the mean at [delta_t = 0]. *)
Lemma deviations_at_rest j :
  (j < n_x_)%nat ->
  vnth j (Closed.deviation (nth 0 X []) (x_ st)) = 0 /\
  (forall c, (c < n_aug_)%nat ->
     vnth j (Closed.deviation (nth (1 + c) X []) (x_ st)) = s * mnth j c L) /\
  (forall c, (c < n_aug_)%nat ->
     vnth j (Closed.deviation (nth (8 + c) X []) (x_ st))
     = - (s * mnth j c L)).
Proof.
  intros Hj. destruct (points_at_rest j Hj) as (E0 & Ep & Em).
  unfold Closed.deviation. split; [|split].
  - rewrite vnth_map_seq by exact Hj. rewrite E0.
    replace (vnth j (x_ st) - vnth j (x_ st)) with 0 by ring.
    apply angle_at_zero.
  - intros c Hc. rewrite vnth_map_seq by exact Hj. rewrite Ep by exact Hc.
    replace (vnth j (x_ st) + s * mnth j c L - vnth j (x_ st))
      with (s * mnth j c L) by ring.
    apply angle_at_small. exact Hc.
  - intros c Hc. rewrite vnth_map_seq by exact Hj. rewrite Em by exact Hc.
    replace (vnth j (x_ st) - s * mnth j c L - vnth j (x_ st))
      with (- (s * mnth j c L)) by ring.
    apply angle_at_small. exact Hc.
Qed.

(** With no heading deviation wrapped, the covariance predicted at
    [delta_t = 0] is the leading block of [L L^T]. *)
Lemma cov_at_rest_entries j k :
  (j < n_x_)%nat -> (k < n_x_)%nat ->
  mnth j k (P_ (Prediction st 0))
  = sum_upto n_aug_ (fun c => mnth j c L * mnth k c L).
Proof.
  intros Hj Hk.
  destruct (Prediction_closed st 0) as [Ex EP]. rewrite EP, <- Ex.
  rewrite mean_at_rest. fold X.
  unfold ClosedPrediction.covariance.
  rewrite (mnth_map_seq _ n_x_ n_x_) by assumption.
  destruct (deviations_at_rest j Hj) as (J0 & Jp & Jm).
  destruct (deviations_at_rest k Hk) as (K0 & Kp & Km).
  unfold Closed.wsum. rewrite sum_upto_n_sig.
  destruct weights_entries as [W0 W].
  rewrite W0, !W by (change n_sig with 15%nat; lia).
  rewrite J0, K0.
  rewrite7 Jp.
  rewrite7 Jm.
  rewrite7 Kp.
  rewrite7 Km.
  change n_aug_ with 7%nat. unfold sum_upto. cbn [seq map Rsum fold_right].
  pose proof sqrt_lambda_sq as Hs. fold s in Hs.
  match goal with |- ?lhs = ?rhs =>
    transitivity (s * s / 3 * rhs); [field|rewrite Hs; field] end.
Qed.

End AtRest.

(** The rows of the state in the factor of the augmented covariance. *)
Lemma augmented_factor_rows G sa sy j c :
  has_dims n_x_ n_x_ G -> (j < n_x_)%nat -> (c < n_aug_)%nat ->
  mnth j c (augmented_factor G sa sy)
  = if (c <? n_x_)%nat then mnth j c G else 0.
Proof.
  intros HG Hj Hc. change n_x_ with 5%nat in *. change n_aug_ with 7%nat in *.
  explode_mat G HG. unfold augmented_factor.
  do 5 (destruct j as [|j];
        [do 7 (destruct c as [|c]; [reflexivity|]); lia|]).
  lia.
Qed.

Lemma has_dims_of_factor n G A : is_factor n G A -> has_dims n n A.
Proof.
  intros (HG & _ & _ & HGG).
  destruct n as [|n].
  { destruct HG as [HG _]. destruct G; [|discriminate].
    subst A. split; [reflexivity|constructor]. }
  assert (Hc : ncols G = S n) by (apply (ncols_dims n); exact HG).
  subst A. pose proof (has_dims_mmul G (transpose G)) as H.
  rewrite (proj1 HG) in H.
  assert (E : ncols (transpose G) = S n).
  { pose proof (has_dims_transpose G) as HT. rewrite Hc, (proj1 HG) in HT.
    apply (ncols_dims n). exact HT. }
  rewrite E in H. exact H.
Qed.

(** A covariance with the Cholesky factor [G] whose heading row,
    scaled by [sqrt (lambda + n_aug)], stays within [PI], is left as it
    is by a prediction over no time. *)
Lemma cov_at_rest st G :
  length (x_ st) = n_x_ -> is_factor n_x_ G (P_ st) ->
  (forall c, (c < n_x_)%nat ->
     Rabs (sqrt (lambda_ + INR n_aug_) * mnth 3 c G) <= PI) ->
  P_ (Prediction st 0) = P_ st.
Proof.
  intros Hx HG Hnowrap.
  pose proof (has_dims_of_factor _ _ _ HG) as HP.
  pose proof (cholesky_augmented_cov st G HG) as EL.
  destruct HG as (HGd & Hlow & Hpos & HGG).
  assert (Hrow : forall j c, (j < n_x_)%nat -> (c < n_aug_)%nat ->
            mnth j c (cholesky (augmented_cov st))
            = if (c <? n_x_)%nat then mnth j c G else 0).
  { intros j c Hj Hc. rewrite EL. apply augmented_factor_rows; assumption. }
  assert (HnowrapL : forall c, (c < n_aug_)%nat ->
            Rabs (sqrt (lambda_ + INR n_aug_)
                  * mnth 3 c (cholesky (augmented_cov st))) <= PI).
  { intros c Hc.
    rewrite Hrow by (try assumption; unfold n_x_; lia).
    destruct (Nat.ltb_spec c n_x_) as [Hc5|Hc5]; [apply Hnowrap; exact Hc5|].
    rewrite Rmult_0_r, Rabs_R0. pose proof PI_RGT_0. lra. }
  apply (mat_ext n_x_ n_x_).
  - destruct (Prediction_closed st 0) as [_ EP]. rewrite EP.
    apply has_dims_map_seq.
  - exact HP.
  - intros j k Hj Hk.
    rewrite (cov_at_rest_entries st Hx HP HnowrapL) by assumption.
    rewrite <- HGG. rewrite (mnth_gram n_x_) by assumption.
    rewrite (sum_upto_zero_tail n_x_ n_aug_).
    + apply sum_upto_ext. intros c Hc.
      rewrite !Hrow by (try assumption; unfold n_x_, n_aug_ in *; lia).
      destruct (Nat.ltb_spec c n_x_); [reflexivity|lia].
    + unfold n_x_, n_aug_. lia.
    + intros c Hc. rewrite (Hrow j c) by (try assumption; lia).
      destruct (Nat.ltb_spec c n_x_); [lia|ring].
Qed.

(** ** Factors of explicit matrices *)

Lemma sqrt_eq t e : 0 <= t -> e = t * t -> sqrt e = t.
Proof. intros Ht ->. apply sqrt_square. exact Ht. Qed.

(** [G] is a Cholesky factor of [A], both given entry by entry. *)
Ltac factor_check :=
  split; [split; [reflexivity|repeat constructor]|];
  split;
  [ let i := fresh "i" in
    let j := fresh "j" in
    intros i j ? ?; unfold n_x_ in *;
    do 5 (destruct j as [|j];
          [do 5 (destruct i as [|i]; [try lia; try reflexivity|]); lia|]);
    lia
  | split;
    [ let k := fresh "k" in
      intros k ?; unfold n_x_ in *;
      do 5 (destruct k as [|k]; [cbv [mnth vnth nth]; lra|]); lia
    | mat_eval; entries ltac:(first [ring | field; lra]) ] ].

Lemma diag_factor d :
  0 < d ->
  is_factor n_x_
    [ [1; 0; 0; 0; 0]; [0; 1; 0; 0; 0]; [0; 0; 1; 0; 0];
      [0; 0; 0; d; 0]; [0; 0; 0; 0; 1] ]
    [ [1; 0; 0; 0; 0]; [0; 1; 0; 0; 0]; [0; 0; 1; 0; 0];
      [0; 0; 0; d * d; 0]; [0; 0; 0; 0; 1] ].
Proof. intros Hd. factor_check. Qed.

Lemma cholesky_diag5 d :
  0 < d ->
  cholesky (augmented_cov (zero_noise_state
              [ [1; 0; 0; 0; 0]; [0; 1; 0; 0; 0]; [0; 0; 1; 0; 0];
                [0; 0; 0; d * d; 0]; [0; 0; 0; 0; 1] ]))
  = [ [1; 0; 0; 0; 0; 0; 0]; [0; 1; 0; 0; 0; 0; 0]; [0; 0; 1; 0; 0; 0; 0];
      [0; 0; 0; d; 0; 0; 0]; [0; 0; 0; 0; 1; 0; 0]; [0; 0; 0; 0; 0; 0; 0];
      [0; 0; 0; 0; 0; 0; 0] ].
Proof.
  intros Hd.
  rewrite (cholesky_augmented_cov
             (zero_noise_state
                [ [1; 0; 0; 0; 0]; [0; 1; 0; 0; 0]; [0; 0; 1; 0; 0];
                  [0; 0; 0; d * d; 0]; [0; 0; 0; 0; 1] ])
             _ (diag_factor d Hd)).
  unfold augmented_factor, zero_noise_state, sample_state.
  cbn [std_a_ std_yawdd_ map app zeros repeat n_x_].
  destruct (Req_dec_T 0 0) as [_|Hn]; [|contradiction].
  rewrite Rabs_R0. entries lra.
Qed.

Lemma sqrt_lambda_bounds : 1 < sqrt (lambda_ + INR n_aug_) < 2.
Proof.
  pose proof sqrt_lambda_sq as H.
  assert (0 <= sqrt (lambda_ + INR n_aug_)) by apply sqrt_pos.
  split; nra.
Qed.

Lemma PI_bounds : 3 < PI <= 4.
Proof.
  pose proof PI2_3_2. pose proof PI_4. lra.
Qed.

Lemma normalize_angle_above a :
  PI < a <= 3 * PI -> normalize_angle a = a - 2 * PI.
Proof.
  intros [H1 H2]. unfold normalize_angle.
  rewrite wrap_down_loop.
  destruct (Rgt_dec a PI) as [_|Hn]; [|lra].
  destruct (wrap_down_range (a - 2 * PI)) as (_ & E & _).
  rewrite E by lra.
  destruct (wrap_up_range (a - 2 * PI)) as (_ & E' & _).
  apply E'. lra.
Qed.

Lemma normalize_angle_below a :
  - (3 * PI) <= a < - PI -> normalize_angle a = a + 2 * PI.
Proof.
  intros [H1 H2]. unfold normalize_angle.
  destruct (wrap_down_range a) as (_ & E & _).
  pose proof PI_RGT_0.
  rewrite E by lra.
  rewrite wrap_up_loop.
  destruct (Rlt_dec a (- PI)) as [_|Hn]; [|lra].
  destruct (wrap_up_range (a + 2 * PI)) as (_ & E' & _).
  apply E'. lra.
Qed.

(** A heading variance of 12 with zero process noise: the heading
    entries of the two sigma points of the heading column lie 6 rad
    from the mean, the normalization moves them to 6 - 2 PI and
    2 PI - 6, and the heading variance comes out as (6 - 2 PI)^2 / 3
    instead of 12. *)
Lemma Prediction_at_rest_wraps_heading :
  let st := zero_noise_state wide_heading_cov in
  std_a_ st = 0 /\ std_yawdd_ st = 0 /\
  x_ (Prediction st 0) = x_ st /\
  mnth 3 3 (P_ st) = 12 /\
  mnth 3 3 (P_ (Prediction st 0)) = (6 - 2 * PI) * (6 - 2 * PI) / 3 /\
  P_ (Prediction st 0) <> P_ st.
Proof.
  intros st.
  assert (Hx : length (x_ st) = n_x_) by reflexivity.
  assert (HP : has_dims n_x_ n_x_ (P_ st)).
  { split; [reflexivity|]. repeat constructor. }
  assert (EL : cholesky (augmented_cov st)
               = [ [1; 0; 0; 0; 0; 0; 0]; [0; 1; 0; 0; 0; 0; 0];
                   [0; 0; 1; 0; 0; 0; 0]; [0; 0; 0; sqrt 12; 0; 0; 0];
                   [0; 0; 0; 0; 1; 0; 0]; [0; 0; 0; 0; 0; 0; 0];
                   [0; 0; 0; 0; 0; 0; 0] ]).
  { pose proof (cholesky_diag5 (sqrt 12) (sqrt_lt_R0 12 ltac:(lra))) as H.
    rewrite sqrt_sqrt in H by lra. exact H. }
  assert (Es : sqrt (lambda_ + INR n_aug_) * sqrt 12 = 6).
  { rewrite <- sqrt_mult by (rewrite ?lambda_val, ?n_aug_val; lra).
    rewrite lambda_val, n_aug_val.
    apply sqrt_eq; lra. }
  assert (E33 : mnth 3 3 (P_ (Prediction st 0))
                = (6 - 2 * PI) * (6 - 2 * PI) / 3).
  { destruct (Prediction_closed st 0) as [Ex EP]. rewrite EP, <- Ex.
    rewrite (mean_at_rest st Hx HP).
    unfold ClosedPrediction.covariance.
    rewrite (mnth_map_seq _ n_x_ n_x_) by (unfold n_x_; lia).
    assert (H3 : (3 < n_x_)%nat) by (unfold n_x_; lia).
    destruct (points_at_rest st Hx HP 3 H3) as (E0 & Ep & Em).
    rewrite EL in Ep, Em.
    unfold Closed.wsum. rewrite sum_upto_n_sig.
    destruct weights_entries as [W0 W].
    rewrite W0, !W by (change n_sig with 15%nat; lia).
    unfold Closed.deviation.
    rewrite !vnth_map_seq by exact H3.
    rewrite E0.
    rewrite7 Ep. rewrite7 Em.
    unfold st, zero_noise_state, sample_state. cbn [mnth vnth nth x_].
    rewrite Es, !Rmult_0_r.
    unfold Closed.angle_at. cbn [Nat.eqb].
    rewrite <- !normalize_angle_closed.
    replace (0 + 0 - 0) with 0 by ring.
    replace (0 - 0 - 0) with 0 by ring.
    replace (0 - 0) with 0 by ring.
    replace (0 + 6 - 0) with 6 by ring.
    replace (0 - 6 - 0) with (- 6) by ring.
    pose proof PI_bounds as HPI.
    rewrite (normalize_angle_id 0) by lra.
    rewrite (normalize_angle_above 6) by lra.
    rewrite (normalize_angle_below (- 6)) by lra.
    field. }
  split; [reflexivity|]. split; [reflexivity|].
  split; [apply mean_at_rest; assumption|].
  split; [reflexivity|]. split; [exact E33|].
  intros E. assert (E' : mnth 3 3 (P_ (Prediction st 0)) = 12).
  { rewrite E. reflexivity. }
  rewrite E33 in E'. pose proof PI_bounds as HPI. nra.
Qed.

(** On a covariance that is positive semi-definite without being
    definite, [llt] returns at the first pivot that is zero and the
    factor holds the entries of the covariance itself from that column
    on.  With no variance in position x it returns at once: the factor
    is the covariance, and the variance 4 of position y comes back as
    16. *)
Lemma cholesky_singular :
  cholesky (augmented_cov (zero_noise_state singular_cov))
  = [ [0; 0; 0; 0; 0; 0; 0]; [0; 4; 0; 0; 0; 0; 0]; [0; 0; 1; 0; 0; 0; 0];
      [0; 0; 0; 1; 0; 0; 0]; [0; 0; 0; 0; 1; 0; 0]; [0; 0; 0; 0; 0; 0; 0];
      [0; 0; 0; 0; 0; 0; 0] ].
Proof.
  set (A := augmented_cov (zero_noise_state singular_cov)).
  assert (HA : has_dims 7 7 A) by (split; [reflexivity|]; repeat constructor).
  apply (mat_ext 7 7);
    [apply (has_dims_cholesky A)|split; [reflexivity|]; repeat constructor|].
  intros i j Hi Hj.
  rewrite (cholesky_entries 7 0 A [] HA ltac:(lia)); try assumption.
  - revert i j Hi Hj.
    seven_by_seven
      ltac:(intros _ _; subst A;
            unfold augmented_cov, zero_noise_state, sample_state, singular_cov;
            cbn [P_ std_a_ std_yawdd_]; mat_eval; cbv [Nat.leb Nat.ltb];
            try reflexivity; ring).
  - intros k Hk. lia.
  - intros k r Hk. lia.
  - right. subst A.
    unfold augmented_cov, zero_noise_state, sample_state, singular_cov.
    cbn [P_ std_a_ std_yawdd_]. unfold sum_upto, Rsum. mat_eval.
    cbv [fold_right]. lra.
Qed.

Lemma Prediction_at_rest_on_singular :
  let st := zero_noise_state singular_cov in
  std_a_ st = 0 /\ std_yawdd_ st = 0 /\
  symmetric n_x_ (P_ st) /\ psd n_x_ (P_ st) /\
  mnth 1 1 (P_ st) = 4 /\
  mnth 1 1 (P_ (Prediction st 0)) = 16 /\
  P_ (Prediction st 0) <> P_ st.
Proof.
  intros st.
  assert (Hx : length (x_ st) = n_x_) by reflexivity.
  assert (HP : has_dims n_x_ n_x_ (P_ st)).
  { split; [reflexivity|]. repeat constructor. }
  assert (Hnowrap : forall c, (c < n_aug_)%nat ->
            Rabs (sqrt (lambda_ + INR n_aug_)
                  * mnth 3 c (cholesky (augmented_cov st))) <= PI).
  { intros c Hc. unfold st. rewrite cholesky_singular.
    pose proof sqrt_lambda_bounds as Hs. pose proof PI_bounds as HPI.
    change n_aug_ with 7%nat in Hc.
    do 7 (destruct c as [|c];
          [cbv [mnth vnth nth];
           rewrite ?Rmult_0_r, ?Rmult_1_r, ?Rabs_R0;
           try (rewrite Rabs_right by lra); lra|]).
    lia. }
  assert (E11 : mnth 1 1 (P_ (Prediction st 0)) = 16).
  { rewrite (cov_at_rest_entries st Hx HP Hnowrap) by (unfold n_x_; lia).
    unfold st. rewrite cholesky_singular.
    change n_aug_ with 7%nat. unfold sum_upto, Rsum. mat_eval.
    cbv [fold_right]. ring. }
  split; [reflexivity|]. split; [reflexivity|].
  split.
  { intros i j Hi Hj. unfold n_x_ in *.
    do 5 (destruct i as [|i];
          [do 5 (destruct j as [|j]; [reflexivity|]); lia|]).
    lia. }
  split.
  { intros u Hu. change n_x_ with 5%nat in Hu. explode u Hu.
    unfold st, zero_noise_state, sample_state, singular_cov.
    cbv [P_ mnth vnth nth map seq dot mv].
    match goal with
    | |- 0 <= ?f =>
        match f with
        | ?u0 * _ + (?u1 * _ + (?u2 * _ + (?u3 * _ + (?u4 * _ + 0)))) =>
            replace f with (4 * (u1 * u1) + u2 * u2 + u3 * u3 + u4 * u4)
              by ring;
            pose proof (Rle_0_sqr u1); pose proof (Rle_0_sqr u2);
            pose proof (Rle_0_sqr u3); pose proof (Rle_0_sqr u4)
        end
    end.
    unfold Rsqr in *. lra. }
  split; [reflexivity|]. split; [exact E11|].
  intros E. assert (E' : mnth 1 1 (P_ (Prediction st 0)) = 4).
  { rewrite E. reflexivity. }
  rewrite E11 in E'. lra.
Qed.

(** C5, as the claim states it, fails in two ways, each with zero
    process noise and no elapsed time: a heading variance of 12 comes
    back as (6 - 2 PI)^2 / 3, because the normalization wraps the two
    heading sigma points; and on a covariance that is positive
    semi-definite but singular the variance 4 of position y comes back
    as 16, because [llt] returns at the zero pivot. *)
Lemma Prediction_at_rest_changes_covariance :
  (let st := zero_noise_state wide_heading_cov in
   std_a_ st = 0 /\ std_yawdd_ st = 0 /\
   has_factor n_x_ (P_ st) /\
   mnth 3 3 (P_ st) = 12 /\
   mnth 3 3 (P_ (Prediction st 0)) = (6 - 2 * PI) * (6 - 2 * PI) / 3 /\
   P_ (Prediction st 0) <> P_ st) /\
  (let st := zero_noise_state singular_cov in
   std_a_ st = 0 /\ std_yawdd_ st = 0 /\
   symmetric n_x_ (P_ st) /\ psd n_x_ (P_ st) /\
   mnth 1 1 (P_ st) = 4 /\
   mnth 1 1 (P_ (Prediction st 0)) = 16 /\
   P_ (Prediction st 0) <> P_ st).
Proof.
  split.
  - destruct Prediction_at_rest_wraps_heading as (H1 & H2 & _ & H4 & H5 & H6).
    split; [exact H1|]. split; [exact H2|].
    split; [|split; [exact H4|split; [exact H5|exact H6]]].
    exists [ [1; 0; 0; 0; 0]; [0; 1; 0; 0; 0]; [0; 0; 1; 0; 0];
             [0; 0; 0; sqrt 12; 0]; [0; 0; 0; 0; 1] ].
    pose proof (diag_factor (sqrt 12) (sqrt_lt_R0 12 ltac:(lra))) as H.
    rewrite sqrt_sqrt in H by lra. exact H.
  - exact Prediction_at_rest_on_singular.
Qed.

(** C5, amended: Prediction with delta_t = 0 leaves the mean unchanged,
    whatever the covariance and the process noise.  It leaves the
    covariance unchanged when the covariance has a Cholesky factor G
    (it is symmetric positive definite) and no entry of the heading row
    of G, scaled by sqrt(lambda + n_aug), exceeds PI in absolute value
    (no heading deviation is wrapped); this for any process noise, zero
    in particular. *)
Theorem Prediction_at_rest (st : UKF) :
  length (x_ st) = n_x_ ->
  has_dims n_x_ n_x_ (P_ st) ->
  x_ (Prediction st 0) = x_ st /\
  (forall G,
     is_factor n_x_ G (P_ st) ->
     (forall c, (c < n_x_)%nat ->
        Rabs (sqrt (lambda_ + INR n_aug_) * mnth 3 c G) <= PI) ->
     P_ (Prediction st 0) = P_ st).
Proof.
  intros Hx HP. split.
  - apply mean_at_rest; assumption.
  - intros G HG Hnowrap. apply (cov_at_rest st G); assumption.
Qed.

Lemma identity_factor : is_factor n_x_ (identity 5) (identity 5).
Proof.
  pose proof (diag_factor 1 Rlt_0_1) as H.
  replace (1 * 1) with 1 in H by ring. exact H.
Qed.

Lemma identity_no_wrap c :
  (c < n_x_)%nat ->
  Rabs (sqrt (lambda_ + INR n_aug_) * mnth 3 c (identity 5)) <= PI.
Proof.
  intros Hc.
  pose proof sqrt_lambda_bounds as Hs. pose proof PI_bounds as HPI.
  change n_x_ with 5%nat in Hc.
  do 5 (destruct c as [|c];
        [cbv [identity mnth vnth nth map seq Nat.eqb];
         rewrite ?Rmult_0_r, ?Rmult_1_r, ?Rabs_R0;
         try (rewrite Rabs_right by lra); lra|]).
  lia.
Qed.

(** Zero process noise, unit covariance. *)
Lemma Prediction_at_rest_witness :
  let st := zero_noise_state (identity 5) in
  std_a_ st = 0 /\ std_yawdd_ st = 0 /\
  x_ (Prediction st 0) = x_ st /\ P_ (Prediction st 0) = P_ st.
Proof.
  intros st.
  assert (HP : has_dims n_x_ n_x_ (P_ st)).
  { split; [reflexivity|]. repeat constructor. }
  destruct (Prediction_at_rest st eq_refl HP) as [Hmean Hcov].
  split; [reflexivity|]. split; [reflexivity|]. split; [exact Hmean|].
  apply (Hcov (identity 5)); [exact identity_factor|exact identity_no_wrap].
Defined.

(** ** Symmetry and positivity of the covariance *)

Lemma Prediction_symmetric st dt : symmetric n_x_ (P_ (Prediction st dt)).
Proof.
  destruct (Prediction_closed st dt) as [_ EP]. rewrite EP.
  intros j k Hj Hk. unfold ClosedPrediction.covariance.
  rewrite !(mnth_map_seq _ n_x_ n_x_) by assumption.
  unfold Closed.wsum. apply sum_upto_ext. intros i _. ring.
Qed.

Lemma gain_entries P Si j :
  (j < n_x_)%nat ->
  mnth j 0 (Closed.gain P Si)
  = mnth j 0 P * mnth 0 0 Si + mnth j 1 P * mnth 1 0 Si /\
  mnth j 1 (Closed.gain P Si)
  = mnth j 0 P * mnth 0 1 Si + mnth j 1 P * mnth 1 1 Si.
Proof.
  intros Hj.
  assert (E : nth j (Closed.gain P Si) []
              = [ mnth j 0 P * mnth 0 0 Si + mnth j 1 P * mnth 1 0 Si;
                  mnth j 0 P * mnth 0 1 Si + mnth j 1 P * mnth 1 1 Si ]).
  { unfold Closed.gain. rewrite nth_map_seq by exact Hj. reflexivity. }
  split; rewrite (mnth_row j _ (Closed.gain P Si)), E; reflexivity.
Qed.

Lemma inverse2_entries S :
  mnth 0 0 (inverse2 S) = mnth 1 1 S / det2 S /\
  mnth 0 1 (inverse2 S) = - mnth 0 1 S / det2 S /\
  mnth 1 0 (inverse2 S) = - mnth 1 0 S / det2 S /\
  mnth 1 1 (inverse2 S) = mnth 0 0 S / det2 S.
Proof. repeat split; reflexivity. Qed.

Lemma UpdateLidar_cov st m :
  length (x_ st) = n_x_ -> has_dims n_x_ n_x_ (P_ st) ->
  P_ (UpdateLidar st m)
  = Closed.corrected_cov (P_ st)
      (Closed.gain (P_ st) (inverse2 (lidar_S st))).
Proof.
  intros Hx HP.
  pose proof (lidar_K_closed st HP) as EK.
  pose proof (has_dims_lidar_K st HP) as HK.
  unfold UpdateLidar, set_NIS_laser, set_P, set_x. cbn [P_].
  rewrite (lidar_cov_closed st HP (lidar_K st) HK), EK.
  reflexivity.
Qed.

Lemma UpdateLidar_symmetric st m :
  length (x_ st) = n_x_ -> has_dims n_x_ n_x_ (P_ st) ->
  symmetric n_x_ (P_ st) -> symmetric n_x_ (P_ (UpdateLidar st m)).
Proof.
  intros Hx HP Hsym. rewrite UpdateLidar_cov by assumption.
  intros j k Hj Hk. unfold Closed.corrected_cov.
  rewrite !(mnth_map_seq _ n_x_ n_x_) by assumption.
  destruct (gain_entries (P_ st) (inverse2 (lidar_S st)) j Hj) as [-> ->].
  destruct (gain_entries (P_ st) (inverse2 (lidar_S st)) k Hk) as [-> ->].
  destruct (inverse2_entries (lidar_S st)) as (-> & -> & -> & ->).
  rewrite (lidar_S_closed st HP). unfold Closed.innovation_cov.
  cbn [mnth vnth nth].
  change (nth 0 (nth 1 (P_ st) []) 0) with (mnth 1 0 (P_ st)).
  change (nth 1 (nth 0 (P_ st) []) 0) with (mnth 0 1 (P_ st)).
  assert (H0 : (0 < n_x_)%nat) by (unfold n_x_; lia).
  assert (H1 : (1 < n_x_)%nat) by (unfold n_x_; lia).
  rewrite (Hsym 1%nat 0%nat H1 H0).
  rewrite (Hsym j k Hj Hk), (Hsym j 0%nat Hj H0), (Hsym j 1%nat Hj H1).
  rewrite (Hsym 0%nat k H0 Hk), (Hsym 1%nat k H1 Hk).
  unfold Rdiv. ring.
Qed.

(** Equal entries of a symmetric 5x5 matrix given by its entries. *)
Ltac use_symmetry H :=
  let inst i j :=
    (let E := fresh in
     pose proof (H i j ltac:(unfold n_x_; lia) ltac:(unfold n_x_; lia)) as E;
     cbv [mnth vnth nth] in E) in
  inst 1%nat 0%nat; inst 2%nat 0%nat; inst 3%nat 0%nat; inst 4%nat 0%nat;
  inst 2%nat 1%nat; inst 3%nat 1%nat; inst 4%nat 1%nat;
  inst 3%nat 2%nat; inst 4%nat 2%nat; inst 4%nat 3%nat;
  subst.

Lemma UpdateLidar_psd st m :
  length (x_ st) = n_x_ -> has_dims n_x_ n_x_ (P_ st) ->
  symmetric n_x_ (P_ st) -> psd n_x_ (P_ st) ->
  det2 (lidar_S st) <> 0 ->
  psd n_x_ (P_ (UpdateLidar st m)).
Proof.
  intros Hx HP Hsym Hpsd Hd.
  rewrite UpdateLidar_cov by assumption.
  rewrite (lidar_S_closed st HP) in *.
  revert HP Hsym Hpsd Hd.
  generalize (std_laspx_ st) (std_laspy_ st) (P_ st).
  intros rx ry P HP Hsym Hpsd Hd u Hu.
  change n_x_ with 5%nat in *.
  explode_mat P HP.
  use_symmetry Hsym.
  unfold Closed.corrected_cov, Closed.gain, inverse2, Closed.innovation_cov,
    det2 in *.
  cbv [mnth vnth nth] in Hd.
  match type of Hpsd with
  | psd 5 [ [?p00; ?p01; ?p02; ?p03; ?p04]; [_; ?p11; ?p12; ?p13; ?p14];
            _; _; _ ] =>
      match goal with
      | |- 0 <= dot [?u0; ?u1; ?u2; ?u3; ?u4] _ =>
          pose (b0 := p00 * u0 + p01 * u1 + p02 * u2 + p03 * u3 + p04 * u4);
          pose (b1 := p01 * u0 + p11 * u1 + p12 * u2 + p13 * u3 + p14 * u4);
          pose (d := (p00 + rx * rx) * (p11 + ry * ry) - p01 * p01);
          pose (c0 := ((p11 + ry * ry) * b0 - p01 * b1) / d);
          pose (c1 := ((p00 + rx * rx) * b1 - p01 * b0) / d);
          pose proof (Hpsd [u0 - c0; u1 - c1; u2; u3; u4] eq_refl) as Hq
      end
  end.
  cbv [mnth vnth nth map seq n_x_ dot mv] in Hq |- *.
  match goal with
  | |- 0 <= ?e =>
      match type of Hq with
      | 0 <= ?h =>
          replace e with (h + (rx * c0) * (rx * c0) + (ry * c1) * (ry * c1))
            by (unfold c0, c1, d, b0, b1; field; exact Hd)
      end
  end.
  pose proof (Rle_0_sqr (rx * c0)) as H1.
  pose proof (Rle_0_sqr (ry * c1)) as H2.
  unfold Rsqr in H1, H2. lra.
Qed.

(** With nonzero lidar noise the innovation covariance of a positive
    semi-definite [P_] has a positive determinant. *)
Lemma lidar_S_det_pos st :
  has_dims n_x_ n_x_ (P_ st) -> symmetric n_x_ (P_ st) -> psd n_x_ (P_ st) ->
  std_laspx_ st <> 0 -> std_laspy_ st <> 0 ->
  0 < det2 (lidar_S st).
Proof.
  intros HP Hsym Hpsd.
  rewrite (lidar_S_closed st HP).
  revert HP Hsym Hpsd.
  generalize (std_laspx_ st) (std_laspy_ st) (P_ st).
  intros rx ry P HP Hsym Hpsd Hrx Hry.
  change n_x_ with 5%nat in *.
  explode_mat P HP. use_symmetry Hsym.
  unfold Closed.innovation_cov, det2. cbv [mnth vnth nth].
  match type of Hpsd with
  | psd 5 [ [?p00; ?p01; _; _; _]; [_; ?p11; _; _; _]; _; _; _ ] =>
      pose proof (Hpsd [1; 0; 0; 0; 0] eq_refl) as H0;
      pose proof (Hpsd [0; 1; 0; 0; 0] eq_refl) as H1;
      pose proof (Hpsd [p11; - p01; 0; 0; 0] eq_refl) as H2;
      pose proof (Hpsd [p01; - (p00 + 1); 0; 0; 0] eq_refl) as H3;
      cbv [mnth vnth nth map seq dot mv] in H0, H1, H2, H3;
      assert (A : 0 <= p00) by lra;
      assert (B : 0 <= p11) by lra;
      match type of H2 with
      | 0 <= ?e =>
          replace e with (p11 * (p00 * p11 - p01 * p01)) in H2 by ring
      end;
      match type of H3 with
      | 0 <= ?e =>
          replace e with ((p00 + 1) * (p00 + 1) * p11
                          - (p00 + 2) * (p01 * p01)) in H3 by ring
      end;
      assert (Hminor : 0 <= p00 * p11 - p01 * p01);
      [ destruct (Rle_lt_dec p11 0) as [Hz|Hpos];
        [ assert (E : p11 = 0) by lra; rewrite E in *;
          assert (0 <= p01 * p01) by nra; nra
        | nra ]
      | ]
  end.
  assert (0 < rx * rx) by nra.
  assert (0 < ry * ry) by nra.
  nra.
Qed.

Lemma UpdateRadar_cov st m :
  length (x_ st) = n_x_ -> has_dims n_x_ n_x_ (P_ st) ->
  has_dims n_sig n_x_ (Xsig_pred_ st) ->
  let S := ClosedRadar.measurement_cov (Xsig_pred_ st) (R_radar st) in
  let K := ClosedRadar.gain (ClosedRadar.cross_cov (Xsig_pred_ st) (x_ st))
                            (inverse S) in
  P_ (UpdateRadar st m) = ClosedRadar.corrected_cov (P_ st) K S.
Proof.
  intros Hx HP HXd S K.
  assert (HX : forall i, (i < n_sig)%nat ->
                 length (nth i (Xsig_pred_ st) []) = n_x_).
  { intros i Hi. apply (has_dims_nth n_sig); assumption. }
  pose proof (radar_S_closed st) as ES. fold S in ES.
  pose proof (radar_Tc_closed st Hx HX) as ET.
  pose proof (has_dims_radar_S st) as HS. rewrite ES in HS.
  pose proof (has_dims_radar_Tc st Hx HX) as HT. rewrite ET in HT.
  assert (EK : radar_K st = K).
  { unfold radar_K. rewrite ES, ET. apply radar_gain_closed; [exact HT|].
    apply has_dims_inverse3. exact (proj1 HS). }
  unfold UpdateRadar, set_NIS_radar, set_P, set_x. cbn [P_].
  rewrite ES, EK. apply radar_cov_closed; [exact HP| |exact HS].
  apply has_dims_map_seq.
Qed.

Lemma measurement_cov_symmetric X st a b :
  (a < n_z_radar)%nat -> (b < n_z_radar)%nat ->
  mnth a b (ClosedRadar.measurement_cov X (R_radar st))
  = mnth b a (ClosedRadar.measurement_cov X (R_radar st)).
Proof.
  intros Ha Hb. unfold ClosedRadar.measurement_cov.
  rewrite !(mnth_map_seq _ n_z_radar n_z_radar) by assumption.
  f_equal.
  - unfold Closed.wsum. apply sum_upto_ext. intros i _. ring.
  - unfold n_z_radar in *.
    do 3 (destruct a as [|a]; [do 3 (destruct b as [|b]; [reflexivity|]); lia|]).
    lia.
Qed.

Lemma UpdateRadar_symmetric st m :
  length (x_ st) = n_x_ -> has_dims n_x_ n_x_ (P_ st) ->
  has_dims n_sig n_x_ (Xsig_pred_ st) ->
  symmetric n_x_ (P_ st) -> symmetric n_x_ (P_ (UpdateRadar st m)).
Proof.
  intros Hx HP HXd Hsym. rewrite UpdateRadar_cov by assumption.
  intros j k Hj Hk. unfold ClosedRadar.corrected_cov.
  rewrite !(mnth_map_seq _ n_x_ n_x_) by assumption.
  rewrite (Hsym j k Hj Hk).
  set (S := ClosedRadar.measurement_cov (Xsig_pred_ st) (R_radar st)).
  set (K := ClosedRadar.gain _ _).
  change n_z_radar with 3%nat. rewrite !sum_upto_3.
  assert (S10 : mnth 1 0 S = mnth 0 1 S)
    by (apply measurement_cov_symmetric; unfold n_z_radar; lia).
  assert (S20 : mnth 2 0 S = mnth 0 2 S)
    by (apply measurement_cov_symmetric; unfold n_z_radar; lia).
  assert (S21 : mnth 2 1 S = mnth 1 2 S)
    by (apply measurement_cov_symmetric; unfold n_z_radar; lia).
  rewrite S10, S20, S21. ring.
Qed.

(** C3, amended: for every mean, every symmetric covariance and every
    measurement, the covariance is symmetric after Prediction, after
    UpdateLidar and after UpdateRadar; after UpdateLidar it is also
    positive semi-definite when it was so before and the innovation
    covariance S has an inverse.  After Prediction and after
    UpdateRadar it need not be positive semi-definite: the central
    weight is negative. *)
Theorem covariance_stays_symmetric
  (st : UKF) (delta_t : R) (m : MeasurementPackage) :
  length (x_ st) = n_x_ ->
  has_dims n_x_ n_x_ (P_ st) ->
  has_dims n_sig n_x_ (Xsig_pred_ st) ->
  symmetric n_x_ (P_ st) ->
  symmetric n_x_ (P_ (Prediction st delta_t)) /\
  symmetric n_x_ (P_ (UpdateLidar st m)) /\
  symmetric n_x_ (P_ (UpdateRadar st m)) /\
  (psd n_x_ (P_ st) -> det2 (lidar_S st) <> 0 ->
   psd n_x_ (P_ (UpdateLidar st m))).
Proof.
  intros Hx HP HXd Hsym.
  split; [apply Prediction_symmetric|].
  split; [apply UpdateLidar_symmetric; assumption|].
  split; [apply UpdateRadar_symmetric; assumption|].
  intros Hpsd Hd.
  apply UpdateLidar_psd; assumption.
Qed.

Lemma UKF_new_cov_symmetric : symmetric n_x_ (P_ UKF_new).
Proof.
  intros i j Hi Hj. unfold n_x_ in *.
  do 5 (destruct i as [|i];
        [do 5 (destruct j as [|j]; [reflexivity|]); lia|]).
  lia.
Qed.

Lemma UKF_new_cov_psd : psd n_x_ (P_ UKF_new).
Proof.
  intros u Hu. change n_x_ with 5%nat in Hu. explode u Hu.
  cbv [UKF_new P_ mnth vnth nth map seq dot mv].
  match goal with
  | |- 0 <= ?e =>
      match e with
      | ?u0 * _ + (?u1 * _ + (?u2 * _ + (?u3 * _ + (?u4 * _ + 0)))) =>
          replace e with (0.5 * (u0 * u0) + 0.5 * ((u1 + u4) * (u1 + u4))
                          + 0.5 * (u2 * u2) + 0.5 * (u3 * u3)) by field;
          pose proof (Rle_0_sqr u0); pose proof (Rle_0_sqr (u1 + u4));
          pose proof (Rle_0_sqr u2); pose proof (Rle_0_sqr u3)
      end
  end.
  unfold Rsqr in *. lra.
Qed.

(** The constructor's state, 50 ms, the laser record (1, 2). *)
Lemma covariance_stays_symmetric_witness :
  let st := UKF_new in
  let m := mkMeas 1477010443050000 LASER [1; 2] in
  symmetric n_x_ (P_ (Prediction st 0.05)) /\
  symmetric n_x_ (P_ (UpdateLidar st m)) /\
  symmetric n_x_ (P_ (UpdateRadar st m)) /\
  psd n_x_ (P_ (UpdateLidar st m)).
Proof.
  intros st m.
  assert (HP : has_dims n_x_ n_x_ (P_ st)).
  { split; [reflexivity|]. repeat constructor. }
  assert (HX : has_dims n_sig n_x_ (Xsig_pred_ st)).
  { split; [reflexivity|]. repeat constructor. }
  destruct (covariance_stays_symmetric st 0.05 m eq_refl HP HX
              UKF_new_cov_symmetric) as (H1 & H2 & H3 & H4).
  split; [exact H1|]. split; [exact H2|]. split; [exact H3|].
  apply H4.
  - apply UKF_new_cov_psd.
  - assert (Hd : 0 < det2 (lidar_S st)).
    { apply (lidar_S_det_pos st HP UKF_new_cov_symmetric UKF_new_cov_psd).
      - unfold st, UKF_new. cbn [std_laspx_]. lra.
      - unfold st, UKF_new. cbn [std_laspy_]. lra. }
    lra.
Defined.

(** ** A prediction whose covariance is not positive semi-definite *)

Lemma correlated_cov_valid a e :
  has_dims n_x_ n_x_ (correlated_cov a e) /\
  symmetric n_x_ (correlated_cov a e) /\
  psd n_x_ (correlated_cov a e).
Proof.
  split; [|split].
  - split; [reflexivity|]. repeat constructor.
  - intros i j Hi Hj. unfold n_x_ in *.
    do 5 (destruct i as [|i];
          [do 5 (destruct j as [|j]; [reflexivity|]); lia|]).
    lia.
  - intros u Hu. change n_x_ with 5%nat in Hu. explode u Hu.
    cbv [correlated_cov mnth vnth nth map seq dot mv].
    match goal with
    | |- 0 <= ?f =>
        match f with
        | ?u0 * _ + (?u1 * _ + (?u2 * _ + (?u3 * _ + (?u4 * _ + 0)))) =>
            replace f with ((u0 + a * u3) * (u0 + a * u3)
                            + (u1 + a * u3) * (u1 + a * u3)
                            + (u2 + a * u3) * (u2 + a * u3)
                            + (a * u3) * (a * u3) + (e * u4) * (e * u4))
              by ring;
            pose proof (Rle_0_sqr (u0 + a * u3));
            pose proof (Rle_0_sqr (u1 + a * u3));
            pose proof (Rle_0_sqr (u2 + a * u3));
            pose proof (Rle_0_sqr (a * u3));
            pose proof (Rle_0_sqr (e * u4))
        end
    end.
    unfold Rsqr in *. lra.
Qed.

Lemma correlated_factor a e :
  0 < a -> 0 < e ->
  is_factor n_x_
    [ [1; 0; 0; 0; 0]; [0; 1; 0; 0; 0]; [0; 0; 1; 0; 0];
      [a; a; a; a; 0]; [0; 0; 0; 0; e] ]
    (correlated_cov a e).
Proof. intros Ha He. unfold correlated_cov. factor_check. Qed.

Lemma cholesky_correlated x a e sa sy :
  0 < a -> 0 < e -> 0 < sa -> 0 < sy ->
  cholesky (augmented_cov (sample_state x (correlated_cov a e) sa sy))
  = [ [1; 0; 0; 0; 0; 0; 0]; [0; 1; 0; 0; 0; 0; 0]; [0; 0; 1; 0; 0; 0; 0];
      [a; a; a; a; 0; 0; 0]; [0; 0; 0; 0; e; 0; 0]; [0; 0; 0; 0; 0; sa; 0];
      [0; 0; 0; 0; 0; 0; sy] ].
Proof.
  intros Ha He Hsa Hsy.
  rewrite (cholesky_augmented_cov
             (sample_state x (correlated_cov a e) sa sy) _
             (correlated_factor a e Ha He)).
  unfold augmented_factor, sample_state.
  cbn [std_a_ std_yawdd_ map app zeros repeat n_x_].
  destruct (Req_dec_T sa 0) as [Hz|_]; [lra|].
  rewrite !Rabs_right by lra. reflexivity.
Qed.

Lemma sqrt_lambda_val : sqrt (lambda_ + INR n_aug_) = sqrt 3.
Proof. rewrite lambda_val, n_aug_val. f_equal. lra. Qed.

(** Position x of a propagated point on the straight-line branch. *)
Lemma ctrv_px_straight dt p :
  Rabs (vnth 4 p) <= 0.001 ->
  vnth 0 (ctrv dt p)
  = vnth 0 p + vnth 2 p * dt * cos (vnth 3 p)
    + 0.5 * vnth 5 p * dt * dt * cos (vnth 3 p).
Proof.
  intros H. unfold ctrv.
  destruct (Rgt_dec (Rabs (vnth 4 p)) 0.001) as [Hg|_]; [lra|reflexivity].
Qed.

Lemma quad_form_e0 A :
  has_dims n_x_ n_x_ A ->
  dot [1; 0; 0; 0; 0] (mv A [1; 0; 0; 0; 0]) = mnth 0 0 A.
Proof.
  intros HA. change n_x_ with 5%nat in HA. explode_mat A HA.
  cbv [mnth vnth nth map dot mv]. ring.
Qed.

Lemma deviation_entry_0 a b :
  vnth 0 (Closed.deviation a b) = vnth 0 a - vnth 0 b.
Proof. reflexivity. Qed.

(** The fifteen propagated positions x for [turning_state] after one
    second; [s] is the square root of 3.  The factor of the augmented
    covariance has the rows (1,0,0,0,0,0,0), (0,1,0,0,0,0,0),
    (0,0,1,0,0,0,0), (a,a,a,a,0,0,0), (0,0,0,0,e,0,0),
    (0,0,0,0,0,1/2,0), (0,0,0,0,0,0,2) with [a = PI/s] and
    [e = 1/2000].  Every sigma point has a turn rate of at most
    [s/2000 <= 0.001] in absolute value, so each takes the
    straight-line branch [p_x + v * cos yaw]; the points of columns
    0 to 3 have the heading [s * a = PI] (or [-PI]) and move backwards,
    the others keep the heading 0. *)
Lemma turning_points :
  let X := Xsig_pred_ (Prediction turning_state 1) in
  let s := sqrt 3 in
  map (fun i => vnth 0 (nth i X [])) (seq 0 n_sig)
  = [ 9; s - 9; - 9; - (9 + s); - 9; 9; 9 + s / 4; 9;
      - s - 9; - 9; - (9 - s); - 9; 9; 9 - s / 4; 9 ].
Proof.
  intros X s.
  assert (Hs3 : 0 < s) by (apply sqrt_lt_R0; lra).
  assert (Hss : s * s = 3) by (apply sqrt_sqrt; lra).
  assert (Hs2 : s < 2) by nra.
  assert (EL := cholesky_correlated [0; 0; 9; 0; 0] (PI / sqrt 3) (1 / 2000)
                  0.5 2).
  fold s in EL.
  assert (EX : X = map (ctrv 1)
     [ [0; 0; 9; 0; 0; 0; 0];
       [0 + s * 1; 0 + s * 0; 9 + s * 0; 0 + s * (PI / s); 0 + s * 0;
        0 + s * 0; 0 + s * 0];
       [0 + s * 0; 0 + s * 1; 9 + s * 0; 0 + s * (PI / s); 0 + s * 0;
        0 + s * 0; 0 + s * 0];
       [0 + s * 0; 0 + s * 0; 9 + s * 1; 0 + s * (PI / s); 0 + s * 0;
        0 + s * 0; 0 + s * 0];
       [0 + s * 0; 0 + s * 0; 9 + s * 0; 0 + s * (PI / s); 0 + s * 0;
        0 + s * 0; 0 + s * 0];
       [0 + s * 0; 0 + s * 0; 9 + s * 0; 0 + s * 0; 0 + s * (1 / 2000);
        0 + s * 0; 0 + s * 0];
       [0 + s * 0; 0 + s * 0; 9 + s * 0; 0 + s * 0; 0 + s * 0;
        0 + s * 0.5; 0 + s * 0];
       [0 + s * 0; 0 + s * 0; 9 + s * 0; 0 + s * 0; 0 + s * 0;
        0 + s * 0; 0 + s * 2];
       [0 - s * 1; 0 - s * 0; 9 - s * 0; 0 - s * (PI / s); 0 - s * 0;
        0 - s * 0; 0 - s * 0];
       [0 - s * 0; 0 - s * 1; 9 - s * 0; 0 - s * (PI / s); 0 - s * 0;
        0 - s * 0; 0 - s * 0];
       [0 - s * 0; 0 - s * 0; 9 - s * 1; 0 - s * (PI / s); 0 - s * 0;
        0 - s * 0; 0 - s * 0];
       [0 - s * 0; 0 - s * 0; 9 - s * 0; 0 - s * (PI / s); 0 - s * 0;
        0 - s * 0; 0 - s * 0];
       [0 - s * 0; 0 - s * 0; 9 - s * 0; 0 - s * 0; 0 - s * (1 / 2000);
        0 - s * 0; 0 - s * 0];
       [0 - s * 0; 0 - s * 0; 9 - s * 0; 0 - s * 0; 0 - s * 0;
        0 - s * 0.5; 0 - s * 0];
       [0 - s * 0; 0 - s * 0; 9 - s * 0; 0 - s * 0; 0 - s * 0;
        0 - s * 0; 0 - s * 2] ]).
  { unfold X. rewrite Xsig_pred_Prediction. unfold turning_state. fold s.
    rewrite EL; try lra.
    - unfold sigma_points, augmented_mean, sample_state.
      rewrite sqrt_lambda_val. fold s. reflexivity.
    - apply Rdiv_lt_0_compat; [apply PI_RGT_0|exact Hs3]. }
  rewrite EX. change n_sig with 15%nat.
  cbn [seq map nth].
  assert (Hpi : s * (PI / s) = PI) by (field; lra).
  rewrite !ctrv_px_straight;
    cbn [vnth nth];
    rewrite ?Hpi, ?Rmult_0_r, ?Rplus_0_l, ?Rminus_0_r, ?Rplus_0_r,
            ?Rabs_R0;
    try lra.
  - replace (0 - PI) with (- PI) by ring.
    rewrite cos_neg, cos_PI, cos_0.
    repeat (f_equal; try lra).
  - replace (0 - s * (1 / 2000)) with (- (s * (1 / 2000))) by ring.
    rewrite Rabs_Ropp, Rabs_right by nra. nra.
  - rewrite Rabs_right by nra. nra.
Qed.

(** From a symmetric positive semi-definite covariance (position and
    speed correlated with the heading), speed 9 and one second of
    elapsed time, the predicted variance of position x is -2271/16:
    four pairs of sigma points turn by PI and land behind the origin,
    and the central point, which does not, carries the weight -4/3. *)
Lemma Prediction_breaks_psd :
  let st := turning_state in
  length (x_ st) = n_x_ /\ has_dims n_x_ n_x_ (P_ st) /\
  symmetric n_x_ (P_ st) /\ psd n_x_ (P_ st) /\
  vnth 0 (x_ (Prediction st 1)) = - 15 /\
  mnth 0 0 (P_ (Prediction st 1)) = - 2271 / 16 /\
  ~ psd n_x_ (P_ (Prediction st 1)).
Proof.
  intros st.
  destruct (correlated_cov_valid (PI / sqrt 3) (1 / 2000)) as (Hd & Hsym & Hpsd).
  destruct (Prediction_closed st 1) as [Ex EP].
  pose proof turning_points as HX. cbv zeta in HX. fold st in HX.
  remember (Xsig_pred_ (Prediction st 1)) as X eqn:EqX.
  change n_sig with 15%nat in HX. cbn [seq map] in HX.
  injection HX as X0 X1 X2 X3 X4 X5 X6 X7 X8 X9 X10 X11 X12 X13 X14.
  assert (Hss : sqrt 3 * sqrt 3 = 3) by (apply sqrt_sqrt; lra).
  destruct weights_entries as [W0 W].
  assert (Em : vnth 0 (x_ (Prediction st 1)) = - 15).
  { rewrite Ex. unfold ClosedPrediction.mean.
    rewrite vnth_map_seq by (unfold n_x_; lia).
    unfold Closed.wsum. rewrite sum_upto_n_sig.
    rewrite W0, !W by (change n_sig with 15%nat; lia).
    rewrite X0, X1, X2, X3, X4, X5, X6, X7, X8, X9, X10, X11, X12, X13, X14.
    field. }
  assert (Ec : mnth 0 0 (P_ (Prediction st 1)) = - 2271 / 16).
  { rewrite EP, <- Ex. unfold ClosedPrediction.covariance.
    rewrite (mnth_map_seq _ n_x_ n_x_) by (unfold n_x_; lia).
    unfold Closed.wsum. rewrite sum_upto_n_sig.
    rewrite W0, !W by (change n_sig with 15%nat; lia).
    rewrite !deviation_entry_0, Em.
    rewrite X0, X1, X2, X3, X4, X5, X6, X7, X8, X9, X10, X11, X12, X13, X14.
    match goal with
    | |- ?lhs = _ =>
        transitivity (- 768 + (3744 + 4 * (sqrt 3 * sqrt 3)
                               + sqrt 3 * sqrt 3 / 8) / 6);
        [field|rewrite Hss; field]
    end. }
  split; [reflexivity|]. split; [exact Hd|]. split; [exact Hsym|].
  split; [exact Hpsd|]. split; [exact Em|]. split; [exact Ec|].
  intros Hneg.
  pose proof (Hneg [1; 0; 0; 0; 0] eq_refl) as H.
  rewrite quad_form_e0 in H.
  - rewrite Ec in H. lra.
  - rewrite EP. apply has_dims_map_seq.
Qed.

(** The radar update subtracts K S K^T from the covariance whatever
    the covariance is: from a covariance of zero (symmetric, positive
    semi-definite) with sigma points spread in position x, the variance
    of position x after the update is -300/103. *)
Lemma UpdateRadar_breaks_psd :
  let st := axis_state (mzeros 5 5) in
  let m := mkMeas 0 RADAR [6; 0.1; 2] in
  length (x_ st) = n_x_ /\ has_dims n_x_ n_x_ (P_ st) /\
  has_dims n_sig n_x_ (Xsig_pred_ st) /\
  symmetric n_x_ (P_ st) /\ psd n_x_ (P_ st) /\
  det3 (radar_S st) <> 0 /\
  mnth 0 0 (P_ (UpdateRadar st m)) = - 300 / 103 /\
  ~ psd n_x_ (P_ (UpdateRadar st m)).
Proof.
  intros st m.
  assert (Ec : mnth 0 0 (P_ (UpdateRadar st m)) = - 300 / 103).
  { unfold st. rewrite axis_update_cov. mat_eval. lra. }
  split; [reflexivity|].
  split; [split; [reflexivity|]; repeat constructor|].
  split; [split; [reflexivity|]; repeat constructor|].
  split.
  { intros i j Hi Hj. unfold n_x_ in *.
    do 5 (destruct i as [|i];
          [do 5 (destruct j as [|j]; [reflexivity|]); lia|]).
    lia. }
  split.
  { intros u Hu. change n_x_ with 5%nat in Hu. explode u Hu.
    unfold st, axis_state. cbn [P_]. mat_eval. lra. }
  split; [apply axis_det|].
  split; [exact Ec|].
  intros Hneg.
  pose proof (Hneg [1; 0; 0; 0; 0] eq_refl) as H.
  rewrite quad_form_e0 in H.
  - rewrite Ec in H. lra.
  - unfold st. rewrite axis_update_cov.
    split; [reflexivity|]. repeat constructor.
Qed.

(** C3, as the claim states it, fails for Prediction and for
    UpdateRadar: each turns a symmetric positive semi-definite
    covariance into one with a negative variance of position x. *)
Lemma psd_not_preserved :
  (let st := turning_state in
   length (x_ st) = n_x_ /\ has_dims n_x_ n_x_ (P_ st) /\
   symmetric n_x_ (P_ st) /\ psd n_x_ (P_ st) /\
   vnth 0 (x_ (Prediction st 1)) = - 15 /\
   mnth 0 0 (P_ (Prediction st 1)) = - 2271 / 16 /\
   ~ psd n_x_ (P_ (Prediction st 1))) /\
  (let st := axis_state (mzeros 5 5) in
   let m := mkMeas 0 RADAR [6; 0.1; 2] in
   length (x_ st) = n_x_ /\ has_dims n_x_ n_x_ (P_ st) /\
   has_dims n_sig n_x_ (Xsig_pred_ st) /\
   symmetric n_x_ (P_ st) /\ psd n_x_ (P_ st) /\
   det3 (radar_S st) <> 0 /\
   mnth 0 0 (P_ (UpdateRadar st m)) = - 300 / 103 /\
   ~ psd n_x_ (P_ (UpdateRadar st m))).
Proof.
  split; [exact Prediction_breaks_psd|exact UpdateRadar_breaks_psd].
Qed.

(** * Further properties of the filter *)

(** ** What each step leaves alone *)

Lemma Prediction_frame st dt :
  is_initialized_ (Prediction st dt) = is_initialized_ st /\
  time_us_ (Prediction st dt) = time_us_ st /\
  noise_config (Prediction st dt) = noise_config st /\
  NIS_radar_ (Prediction st dt) = NIS_radar_ st /\
  NIS_laser_ (Prediction st dt) = NIS_laser_ st.
Proof. repeat split; reflexivity. Qed.

Lemma UpdateLidar_frame st m :
  is_initialized_ (UpdateLidar st m) = is_initialized_ st /\
  time_us_ (UpdateLidar st m) = time_us_ st /\
  noise_config (UpdateLidar st m) = noise_config st /\
  NIS_radar_ (UpdateLidar st m) = NIS_radar_ st /\
  Xsig_pred_ (UpdateLidar st m) = Xsig_pred_ st.
Proof. repeat split; reflexivity. Qed.

Lemma UpdateRadar_frame st m :
  is_initialized_ (UpdateRadar st m) = is_initialized_ st /\
  time_us_ (UpdateRadar st m) = time_us_ st /\
  noise_config (UpdateRadar st m) = noise_config st /\
  NIS_laser_ (UpdateRadar st m) = NIS_laser_ st /\
  Xsig_pred_ (UpdateRadar st m) = Xsig_pred_ st.
Proof. repeat split; reflexivity. Qed.

Lemma ProcessMeasurement_frame st m :
  is_initialized_ (ProcessMeasurement st m) = true /\
  time_us_ (ProcessMeasurement st m) = timestamp_ m /\
  noise_config (ProcessMeasurement st m) = noise_config st.
Proof.
  unfold ProcessMeasurement.
  destruct (is_initialized_ st) eqn:Hinit; cbn [negb].
  - set (s := Prediction _ _).
    assert (Hs : is_initialized_ s = true /\
                 time_us_ s = timestamp_ m /\
                 noise_config s = noise_config st).
    { unfold s.
      destruct (Prediction_frame (set_time_us st (timestamp_ m))
                  (elapsed st m)) as (H1 & H2 & H3 & _).
      rewrite H1, H2, H3. repeat split. exact Hinit. }
    destruct Hs as (H1 & H2 & H3).
    destruct (sensor_type_ m).
    + destruct (UpdateLidar_frame s m) as (L1 & L2 & L3 & _).
      rewrite L1, L2, L3. repeat split; assumption.
    + destruct (UpdateRadar_frame s m) as (L1 & L2 & L3 & _).
      rewrite L1, L2, L3. repeat split; assumption.
  - repeat split; reflexivity.
Qed.

Lemma run_snoc st ms m :
  run st (ms ++ [m]) = ProcessMeasurement (run st ms) m.
Proof. unfold run. rewrite fold_left_app. reflexivity. Qed.

(** X1: whatever the state and the measurements before, after the last
    measurement of a sequence the filter is marked initialized and its
    reference time is the timestamp of that measurement. *)
Theorem run_records_last_timestamp
  (st : UKF) (ms : list MeasurementPackage) (m : MeasurementPackage) :
  is_initialized_ (run st (ms ++ [m])) = true /\
  time_us_ (run st (ms ++ [m])) = timestamp_ m.
Proof.
  rewrite run_snoc.
  destruct (ProcessMeasurement_frame (run st ms) m) as (H1 & H2 & _).
  split; assumption.
Qed.

(** X2: no sequence of measurements changes any of the seven noise
    standard deviations: the configuration the filter ends with is the
    one it started with. *)
Theorem run_keeps_noise_config (st : UKF) (ms : list MeasurementPackage) :
  noise_config (run st ms) = noise_config st.
Proof.
  revert st. induction ms as [|m ms IH]; intros st.
  - reflexivity.
  - cbn [run fold_left]. fold (run (ProcessMeasurement st m) ms).
    rewrite IH.
    destruct (ProcessMeasurement_frame st m) as (_ & _ & H). exact H.
Qed.

(** X3: an initialized filter fed laser records only never writes the
    radar NIS, and fed radar records only never writes the laser NIS. *)
Theorem NIS_written_by_its_sensor_only
  (st : UKF) (ms : list MeasurementPackage) :
  is_initialized_ st = true ->
  (Forall (fun m => sensor_type_ m = LASER) ms ->
   NIS_radar_ (run st ms) = NIS_radar_ st) /\
  (Forall (fun m => sensor_type_ m = RADAR) ms ->
   NIS_laser_ (run st ms) = NIS_laser_ st).
Proof.
  revert st. induction ms as [|m ms IH]; intros st Hinit.
  - split; reflexivity.
  - assert (Hnext : is_initialized_ (ProcessMeasurement st m) = true)
      by apply ProcessMeasurement_frame.
    destruct (IH _ Hnext) as [IHl IHr].
    cbn [run fold_left]. fold (run (ProcessMeasurement st m) ms).
    split; intros Hall; inversion Hall as [|? ? Hm Hms]; subst.
    + rewrite IHl by exact Hms.
      unfold ProcessMeasurement. rewrite Hinit, Hm. cbn [negb].
      destruct (UpdateLidar_frame
                  (Prediction (set_time_us st (timestamp_ m)) (elapsed st m)) m)
        as (_ & _ & _ & H & _).
      rewrite H. reflexivity.
    + rewrite IHr by exact Hms.
      unfold ProcessMeasurement. rewrite Hinit, Hm. cbn [negb].
      destruct (UpdateRadar_frame
                  (Prediction (set_time_us st (timestamp_ m)) (elapsed st m)) m)
        as (_ & _ & _ & H & _).
      rewrite H. reflexivity.
Qed.

(** The constructor's state after its first record, then two laser
    records. *)
Lemma NIS_written_by_its_sensor_only_witness :
  let st := ProcessMeasurement UKF_new (mkMeas 0 LASER [1; 2]) in
  let ms := [mkMeas 50000 LASER [1; 2]; mkMeas 100000 LASER [2; 2]] in
  NIS_radar_ (run st ms) = NIS_radar_ st.
Proof.
  intros st ms.
  refine (proj1 (NIS_written_by_its_sensor_only st ms eq_refl) _).
  repeat constructor.
Defined.

(** ** The shape of the state is an invariant *)

Lemma Prediction_well_formed st dt : well_formed (Prediction st dt).
Proof.
  split.
  - change (x_ (Prediction st dt))
      with (weighted_mean n_x_ (Xsig_pred_ (Prediction st dt))).
    apply weighted_mean_entries. intros i Hi.
    apply predicted_points_length. exact Hi.
  - destruct (Prediction_closed st dt) as [_ EP]. rewrite EP.
    apply has_dims_map_seq.
Qed.

Lemma UpdateLidar_well_formed st m :
  well_formed st -> well_formed (UpdateLidar st m).
Proof.
  intros [Hx HP]. split.
  - change (x_ (UpdateLidar st m))
      with (vadd (x_ st)
                 (mv (lidar_K st) (lidar_y st (raw_measurements_ m)))).
    rewrite length_vadd; [exact Hx|].
    rewrite length_mv, Hx. symmetry.
    exact (proj1 (has_dims_lidar_K st HP)).
  - rewrite UpdateLidar_cov by assumption. apply has_dims_map_seq.
Qed.

Lemma UpdateRadar_well_formed st m :
  well_formed st -> has_dims n_sig n_x_ (Xsig_pred_ st) ->
  well_formed (UpdateRadar st m).
Proof.
  intros [Hx HP] HXd.
  assert (HX : forall i, (i < n_sig)%nat ->
                 length (nth i (Xsig_pred_ st) []) = n_x_).
  { intros i Hi. apply (has_dims_nth n_sig); assumption. }
  split.
  - change (x_ (UpdateRadar st m))
      with (vadd (x_ st)
                 (mv (radar_K st) (radar_residual st (raw_measurements_ m)))).
    rewrite length_vadd; [exact Hx|].
    rewrite length_mv, Hx. unfold radar_K, mmul. rewrite length_map.
    symmetry. exact (proj1 (has_dims_radar_Tc st Hx HX)).
  - rewrite UpdateRadar_cov by assumption. apply has_dims_map_seq.
Qed.

Lemma ProcessMeasurement_well_formed st m :
  well_formed st -> well_formed (ProcessMeasurement st m).
Proof.
  intros Hwf. unfold ProcessMeasurement.
  destruct (is_initialized_ st); cbn [negb].
  - set (s := Prediction _ _).
    assert (Hs : well_formed s) by apply Prediction_well_formed.
    destruct (sensor_type_ m).
    + apply UpdateLidar_well_formed. exact Hs.
    + apply UpdateRadar_well_formed; [exact Hs|].
      apply has_dims_Xsig_pred.
  - destruct Hwf as [Hx HP]. split; [|exact HP].
    change (length (initial_position (x_ st) m) = n_x_).
    unfold initial_position.
    destruct (sensor_type_ m); rewrite !length_vset; exact Hx.
Qed.

(** X4: a filter whose mean has 5 entries and whose covariance is 5 by 5
    keeps that shape through any sequence of laser records of two
    entries and radar records of three entries. *)
Theorem run_keeps_shape (st : UKF) (ms : list MeasurementPackage) :
  well_formed st -> Forall valid_measurement ms -> well_formed (run st ms).
Proof.
  revert st. induction ms as [|m ms IH]; intros st Hwf Hms.
  - exact Hwf.
  - cbn [run fold_left]. fold (run (ProcessMeasurement st m) ms).
    inversion Hms as [|? ? _ Hrest]; subst.
    apply IH; [|exact Hrest].
    apply ProcessMeasurement_well_formed, Hwf.
Qed.

Lemma UKF_new_well_formed : well_formed UKF_new.
Proof.
  split; [reflexivity|]. split; [reflexivity|]. repeat constructor.
Qed.

(** The constructor's state and three records. *)
Lemma run_keeps_shape_witness :
  well_formed (run UKF_new [ mkMeas 0 LASER [1; 2];
                             mkMeas 50000 RADAR [5; 0; 1];
                             mkMeas 100000 LASER [2; 2] ]).
Proof.
  apply run_keeps_shape; [apply UKF_new_well_formed|].
  repeat constructor.
Defined.

(** ** The normalized angle is the same angle *)

(** X5: the normalized angle differs from the input by a whole number
    of turns, so it has the same sine and cosine; normalizing a second
    time changes nothing. *)
Theorem normalize_angle_same_direction (a : R) :
  (exists k : Z, normalize_angle a = a + 2 * IZR k * PI) /\
  sin (normalize_angle a) = sin a /\
  cos (normalize_angle a) = cos a /\
  normalize_angle (normalize_angle a) = normalize_angle a.
Proof.
  destruct (wrap_down_turns a) as [k1 H1].
  destruct (wrap_up_turns (wrap_down a)) as [k2 H2].
  split; [|split; [|split]].
  - exists (Z.of_nat k2 - Z.of_nat k1)%Z. unfold normalize_angle.
    rewrite H2, H1, minus_IZR, <- !INR_IZR_INZ. ring.
  - unfold normalize_angle. rewrite H2, sin_period.
    rewrite <- (sin_period (wrap_down a) k1), H1. f_equal. ring.
  - unfold normalize_angle. rewrite H2, cos_period.
    rewrite <- (cos_period (wrap_down a) k1), H1. f_equal. ring.
  - apply normalize_angle_id. unfold normalize_angle.
    destruct (wrap_up_range (wrap_down a)) as (U1 & U2 & U3).
    destruct (wrap_down_range a) as (D1 & _ & _).
    split; [exact U1|].
    destruct (Rle_or_lt (- PI) (wrap_down a)) as [Hle|Hlt].
    + rewrite U2 by exact Hle. exact D1.
    + left. apply U3. exact Hlt.
Qed.

(** ** The predicted mean of speed, heading and turn rate *)

Lemma wsum_linear f g h c d :
  Closed.wsum (fun i => f i + g i * c + h i * d)
  = Closed.wsum f + Closed.wsum g * c + Closed.wsum h * d.
Proof. unfold Closed.wsum. rewrite !sum_upto_n_sig. ring. Qed.

Lemma wsum_ext f g :
  (forall i, (i < n_sig)%nat -> f i = g i) -> Closed.wsum f = Closed.wsum g.
Proof.
  intros H. unfold Closed.wsum. apply sum_upto_ext.
  intros i Hi. rewrite (H i Hi). reflexivity.
Qed.

(** Each entry of the augmented mean is the weighted mean of that entry
    over the sigma points. *)
Lemma wsum_sigma_entry x_aug L j :
  length x_aug = n_aug_ -> length L = n_aug_ ->
  Closed.wsum (fun i => vnth j (nth i (sigma_points x_aug L) []))
  = vnth j x_aug.
Proof.
  intros Hx HL.
  destruct (sigma_points_entries x_aug L Hx HL) as (_ & _ & E0 & Ep & Em).
  unfold Closed.wsum. rewrite sum_upto_n_sig.
  destruct weights_entries as [W0 W].
  rewrite W0, !W by (change n_sig with 15%nat; lia).
  rewrite E0. rewrite7 Ep. rewrite7 Em. field.
Qed.

(** Speed, heading and turn rate of a propagated point: the same on
    both branches. *)
Lemma ctrv_linear_entries dt p :
  vnth 2 (ctrv dt p) = vnth 2 p + vnth 5 p * dt /\
  vnth 3 (ctrv dt p)
  = vnth 3 p + vnth 4 p * dt + 0.5 * vnth 6 p * dt * dt /\
  vnth 4 (ctrv dt p) = vnth 4 p + vnth 6 p * dt.
Proof.
  unfold ctrv.
  destruct (Rgt_dec (Rabs (vnth 4 p)) 0.001); repeat split; reflexivity.
Qed.

(** Speed, heading and turn rate of the predicted mean. *)
Lemma predicted_mean_linear (st : UKF) (delta_t : R) :
  length (x_ st) = n_x_ -> length (P_ st) = n_x_ ->
  vnth 2 (x_ (Prediction st delta_t)) = vnth 2 (x_ st) /\
  vnth 3 (x_ (Prediction st delta_t))
  = vnth 3 (x_ st) + vnth 4 (x_ st) * delta_t /\
  vnth 4 (x_ (Prediction st delta_t)) = vnth 4 (x_ st).
Proof.
  intros Hx HP.
  set (L := cholesky (augmented_cov st)).
  set (Sig := sigma_points (augmented_mean st) L).
  assert (HL : length L = n_aug_).
  { unfold L. rewrite (proj1 (has_dims_cholesky (augmented_cov st))).
    apply length_augmented_cov. exact HP. }
  assert (Ha : length (augmented_mean st) = n_aug_)
    by (apply length_augmented_mean; exact Hx).
  assert (Hmean : forall j, (j < n_x_)%nat ->
            vnth j (x_ (Prediction st delta_t))
            = Closed.wsum (fun i => vnth j (ctrv delta_t (nth i Sig [])))).
  { intros j Hj. destruct (Prediction_closed st delta_t) as [Ex _].
    rewrite Ex. unfold ClosedPrediction.mean.
    rewrite vnth_map_seq by exact Hj.
    apply wsum_ext. intros i Hi. rewrite Xsig_pred_Prediction.
    fold L. fold Sig.
    rewrite (nth_map_lt _ _ i [] [])
      by (unfold Sig; rewrite length_sigma_points; exact Hi).
    reflexivity. }
  assert (Hc : forall j, Closed.wsum (fun i => vnth j (nth i Sig []))
                         = vnth j (augmented_mean st)).
  { intros j. apply wsum_sigma_entry; assumption. }
  assert (H5 : vnth 5 (augmented_mean st) = 0 /\
               vnth 6 (augmented_mean st) = 0).
  { unfold augmented_mean, vnth.
    rewrite !app_nth2 by (rewrite Hx; unfold n_x_; lia).
    rewrite Hx. split; reflexivity. }
  destruct H5 as [H5 H6].
  assert (Hj : forall j, (j < n_x_)%nat ->
            vnth j (augmented_mean st) = vnth j (x_ st)).
  { intros j Hlt. apply vnth_augmented_mean. rewrite Hx. exact Hlt. }
  split; [|split].
  - rewrite Hmean by (unfold n_x_; lia).
    rewrite (wsum_ext _ (fun i => vnth 2 (nth i Sig [])
                                  + vnth 5 (nth i Sig []) * delta_t
                                  + vnth 5 (nth i Sig []) * 0)).
    + rewrite wsum_linear, !Hc, H5, Hj by (unfold n_x_; lia). ring.
    + intros i _.
      destruct (ctrv_linear_entries delta_t (nth i Sig [])) as (E & _ & _).
      rewrite E. ring.
  - rewrite Hmean by (unfold n_x_; lia).
    rewrite (wsum_ext _ (fun i => vnth 3 (nth i Sig [])
                                  + vnth 4 (nth i Sig []) * delta_t
                                  + vnth 6 (nth i Sig [])
                                    * (0.5 * delta_t * delta_t))).
    + rewrite wsum_linear, !Hc, H6, !Hj by (unfold n_x_; lia). ring.
    + intros i _.
      destruct (ctrv_linear_entries delta_t (nth i Sig [])) as (_ & E & _).
      rewrite E. ring.
  - rewrite Hmean by (unfold n_x_; lia).
    rewrite (wsum_ext _ (fun i => vnth 4 (nth i Sig [])
                                  + vnth 6 (nth i Sig []) * delta_t
                                  + vnth 6 (nth i Sig []) * 0)).
    + rewrite wsum_linear, !Hc, H6, Hj by (unfold n_x_; lia). ring.
    + intros i _.
      destruct (ctrv_linear_entries delta_t (nth i Sig [])) as (_ & _ & E).
      rewrite E. ring.
Qed.

(** X6: Prediction leaves the speed and the turn rate of the mean as
    they were and advances the heading of the mean by turn rate times
    elapsed time, for every covariance and every process noise. *)
Theorem Prediction_constant_speed_and_turn_rate (st : UKF) (delta_t : R) :
  length (x_ st) = n_x_ -> length (P_ st) = n_x_ ->
  vnth 2 (x_ (Prediction st delta_t)) = vnth 2 (x_ st) /\
  vnth 3 (x_ (Prediction st delta_t))
  = vnth 3 (x_ st) + vnth 4 (x_ st) * delta_t /\
  vnth 4 (x_ (Prediction st delta_t)) = vnth 4 (x_ st).
Proof. apply predicted_mean_linear. Qed.

(** The constructor's state, 50 ms. *)
Lemma Prediction_constant_speed_and_turn_rate_witness :
  vnth 2 (x_ (Prediction UKF_new 0.05)) = 9 /\
  vnth 3 (x_ (Prediction UKF_new 0.05)) = 0 + 0 * 0.05 /\
  vnth 4 (x_ (Prediction UKF_new 0.05)) = 0.
Proof.
  exact (Prediction_constant_speed_and_turn_rate UKF_new 0.05
           eq_refl eq_refl).
Defined.

(** ** The radar measurement function *)

Lemma radar_range_covers p :
  sqrt (vnth 0 p * vnth 0 p + vnth 1 p * vnth 1 p) <= radar_range p.
Proof.
  unfold radar_range.
  set (r := sqrt _).
  assert (Hr : 0 <= r) by apply sqrt_pos.
  destruct (Rlt_dec (Rabs r) 0.001) as [Hlt|Hge]; [|lra].
  rewrite Rabs_right in Hlt by lra. lra.
Qed.

(** X7: the range rate the radar measurement function computes for a
    sigma point never exceeds the speed of the point in absolute value,
    whatever the position and the heading, also where the range has
    been raised to 0.001. *)
Theorem radar_range_rate_within_speed (p : Vec) :
  Rabs (vnth 2 (radar_h p)) <= Rabs (vnth 2 p).
Proof.
  rewrite radar_h_range. rewrite !vnth_cons_S, vnth_cons_0.
  pose proof (radar_range_covers p) as Hc.
  pose proof (radar_range_floor p) as Hf.
  revert Hc Hf.
  generalize (radar_range p) (vnth 0 p) (vnth 1 p) (vnth 2 p) (vnth 3 p).
  intros r x y v psi Hc Hf.
  pose proof (sin2_cos2 psi) as Hsc. unfold Rsqr in Hsc.
  set (c := cos psi) in *. set (s := sin psi) in *.
  assert (Hxy : 0 <= x * x + y * y) by nra.
  pose proof (sqrt_sqrt _ Hxy) as Hq.
  pose proof (sqrt_pos (x * x + y * y)) as Hp.
  set (rho := sqrt (x * x + y * y)) in *.
  set (t := x * c + y * s).
  assert (Ht : t * t <= rho * rho).
  { assert (E : t * t + (x * s - y * c) * (x * s - y * c)
                = (x * x + y * y) * (s * s + c * c))
      by (unfold t; ring).
    rewrite Hsc in E.
    pose proof (Rle_0_sqr (x * s - y * c)) as H0. unfold Rsqr in H0.
    lra. }
  assert (Hlo : - rho <= t).
  { destruct (Rle_lt_dec (- rho) t) as [H|H]; [exact H|]. nra. }
  assert (Hhi : t <= rho).
  { destruct (Rle_lt_dec t rho) as [H|H]; [exact H|]. nra. }
  replace ((x * (c * v) + y * (s * v)) / r) with (v * (t / r))
    by (unfold t; field; lra).
  rewrite Rabs_mult.
  assert (Hq1 : Rabs (t / r) <= 1).
  { apply Rabs_le. split.
    - apply Rmult_le_reg_r with r; [lra|].
      unfold Rdiv. rewrite Rmult_assoc, Rinv_l by lra. lra.
    - apply Rmult_le_reg_r with r; [lra|].
      unfold Rdiv. rewrite Rmult_assoc, Rinv_l by lra. lra. }
  pose proof (Rabs_pos v) as Hv.
  pose proof (Rabs_pos (t / r)) as Hq0.
  nra.
Qed.

(** ** Initialization from a radar record, read back *)

(** The angle of the point at distance [r] in direction [phi]. *)
Lemma atan2_polar r phi :
  0 < r -> - PI < phi <= PI -> atan2 (r * sin phi) (r * cos phi) = phi.
Proof.
  intros Hr [Hlo Hhi].
  pose proof PI_RGT_0 as Hpi.
  unfold atan2.
  destruct (Rlt_le_dec phi (- (PI / 2))) as [H1|H1].
  - (* third quadrant *)
    assert (Hc : cos phi < 0).
    { rewrite <- cos_neg. apply cos_lt_0; lra. }
    assert (Hs : sin phi < 0) by (apply sin_lt_0_var; lra).
    assert (Hc' : 0 < cos (phi + PI)) by (rewrite neg_cos; lra).
    destruct (Rlt_dec 0 (r * cos phi)) as [H|_]; [nra|].
    destruct (Rlt_dec (r * cos phi) 0) as [_|H]; [|nra].
    destruct (Rle_dec 0 (r * sin phi)) as [H|_]; [nra|].
    replace (r * sin phi / (r * cos phi)) with (tan (phi + PI)).
    + rewrite atan_tan by lra. ring.
    + unfold tan. rewrite neg_sin, neg_cos. field. lra.
  - destruct (Req_dec phi (- (PI / 2))) as [E|N].
    + subst phi. rewrite cos_neg, sin_neg, cos_PI2, sin_PI2.
      destruct (Rlt_dec 0 (r * 0)) as [H|_]; [lra|].
      destruct (Rlt_dec (r * 0) 0) as [H|_]; [lra|].
      destruct (Rlt_dec 0 (r * - (1))) as [H|_]; [lra|].
      destruct (Rlt_dec (r * - (1)) 0) as [_|H]; [reflexivity|lra].
    + destruct (Rlt_le_dec phi (PI / 2)) as [H2|H2].
      * (* right half plane *)
        assert (Hc : 0 < cos phi) by (apply cos_gt_0; lra).
        destruct (Rlt_dec 0 (r * cos phi)) as [_|H]; [|nra].
        replace (r * sin phi / (r * cos phi)) with (tan phi)
          by (unfold tan; field; lra).
        apply atan_tan. lra.
      * destruct (Req_dec phi (PI / 2)) as [E|N2].
        -- subst phi. rewrite cos_PI2, sin_PI2.
           destruct (Rlt_dec 0 (r * 0)) as [H|_]; [lra|].
           destruct (Rlt_dec (r * 0) 0) as [H|_]; [lra|].
           destruct (Rlt_dec 0 (r * 1)) as [_|H]; [reflexivity|lra].
        -- (* second quadrant *)
           assert (Hc : cos phi < 0) by (apply cos_lt_0; lra).
           assert (Hs : 0 <= sin phi) by (apply sin_ge_0; lra).
           assert (Hc' : 0 < cos (phi - PI)).
           { pose proof (neg_cos (phi - PI)) as E.
             replace (phi - PI + PI) with phi in E by ring. lra. }
           destruct (Rlt_dec 0 (r * cos phi)) as [H|_]; [nra|].
           destruct (Rlt_dec (r * cos phi) 0) as [_|H]; [|nra].
           destruct (Rle_dec 0 (r * sin phi)) as [_|H]; [|nra].
           replace (r * sin phi / (r * cos phi)) with (tan (phi - PI)).
           ++ rewrite atan_tan by lra. ring.
           ++ pose proof (neg_cos (phi - PI)) as Ec.
              pose proof (neg_sin (phi - PI)) as Es.
              replace (phi - PI + PI) with phi in Ec, Es by ring.
              unfold tan. rewrite Ec, Es. field. lra.
Qed.

(** The range of the point at distance [r] in direction [phi], when
    [r] is not below the floor. *)
Lemma radar_range_polar r phi rest :
  0.001 <= r -> radar_range (r * cos phi :: r * sin phi :: rest) = r.
Proof.
  intros Hr. unfold radar_range. rewrite vnth_cons_S, !vnth_cons_0.
  pose proof (sin2_cos2 phi) as E. unfold Rsqr in E.
  replace (r * cos phi * (r * cos phi) + r * sin phi * (r * sin phi))
    with (r * r * (sin phi * sin phi + cos phi * cos phi)) by ring.
  rewrite E, Rmult_1_r, sqrt_square by lra.
  destruct (Rlt_dec (Rabs r) 0.001) as [H|_]; [|reflexivity].
  rewrite Rabs_right in H by lra. lra.
Qed.

(** X8: in exact arithmetic (the narrowing of range and bearing to
    float at lines 106-107 taken as the identity, so in the code up to
    float precision), a filter initialized from a radar record with
    range at least 0.001 and bearing of magnitude at most 3 holds a
    mean that the radar measurement function maps back to that range
    and that bearing. *)
Theorem radar_initialization_round_trip (st : UKF) (m : MeasurementPackage) :
  is_initialized_ st = false ->
  sensor_type_ m = RADAR ->
  (2 <= length (x_ st))%nat ->
  0.001 <= vnth 0 (raw_measurements_ m) ->
  Rabs (vnth 1 (raw_measurements_ m)) <= 3 ->
  vnth 0 (radar_h (x_ (ProcessMeasurement st m)))
  = vnth 0 (raw_measurements_ m) /\
  vnth 1 (radar_h (x_ (ProcessMeasurement st m)))
  = vnth 1 (raw_measurements_ m).
Proof.
  intros Hi Hs Hlen Hro Hphi.
  unfold ProcessMeasurement. rewrite Hi. cbn [negb].
  unfold initial_position. rewrite Hs.
  cbn [x_ set_x set_is_initialized set_time_us].
  destruct (x_ st) as [|a [|b rest]]; cbn [length] in Hlen; try lia.
  cbn [vset].
  set (ro := vnth 0 (raw_measurements_ m)) in *.
  set (phi := vnth 1 (raw_measurements_ m)) in *.
  rewrite radar_h_range. rewrite !vnth_cons_S, !vnth_cons_0.
  split.
  - apply radar_range_polar. exact Hro.
  - apply atan2_polar; [lra|].
    apply Rabs_bounds in Hphi. pose proof PI_bounds. lra.
Qed.

(** The constructor's state and a radar record at range 0.3, bearing
    0.1. *)
Lemma radar_initialization_round_trip_witness :
  vnth 0 (radar_h (x_ (ProcessMeasurement UKF_new
                         (mkMeas 0 RADAR [0.3; 0.1; 0]))))
  = 0.3 /\
  vnth 1 (radar_h (x_ (ProcessMeasurement UKF_new
                         (mkMeas 0 RADAR [0.3; 0.1; 0]))))
  = 0.1.
Proof.
  refine (radar_initialization_round_trip UKF_new
            (mkMeas 0 RADAR [0.3; 0.1; 0]) eq_refl eq_refl _ _ _).
  - cbn. lia.
  - cbn. lra.
  - cbn. rewrite Rabs_right; lra.
Defined.

(** ** The distance a propagated point travels *)

Lemma sin_sqr_le x : sin x * sin x <= x * x.
Proof.
  assert (Hpos : forall y, 0 < y -> sin y * sin y <= y * y).
  { intros y Hy.
    pose proof (sin_lt_x y Hy) as Hlt.
    destruct (Rle_lt_dec 1 y) as [H1|H1].
    - pose proof (SIN_bound y) as [Hl Hu]. nra.
    - assert (0 <= sin y).
      { apply sin_ge_0; [lra|]. pose proof PI_bounds. lra. }
      nra. }
  destruct (Rtotal_order x 0) as [H|[H|H]].
  - pose proof (Hpos (- x) ltac:(lra)) as E. rewrite sin_neg in E. nra.
  - subst x. rewrite sin_0. lra.
  - apply Hpos. exact H.
Qed.

Lemma cos_lower_bound b : 2 - 2 * cos b <= b * b.
Proof.
  pose proof (cos_2a_sin (b / 2)) as E.
  replace (2 * (b / 2)) with b in E by field.
  pose proof (sin_sqr_le (b / 2)) as H.
  rewrite E. nra.
Qed.

(** X9: a point propagated with no acceleration noise moves by at most
    speed times elapsed time, on the turning branch as on the straight
    one, where it moves by exactly that much. *)
Theorem ctrv_displacement_bounded (delta_t : R) (p : Vec) :
  vnth 5 p = 0 ->
  let dx := vnth 0 (ctrv delta_t p) - vnth 0 p in
  let dy := vnth 1 (ctrv delta_t p) - vnth 1 p in
  dx * dx + dy * dy <= (vnth 2 p * delta_t) * (vnth 2 p * delta_t) /\
  (Rabs (vnth 4 p) <= 0.001 ->
   dx * dx + dy * dy = (vnth 2 p * delta_t) * (vnth 2 p * delta_t)).
Proof.
  intros H5 dx dy. subst dx dy. unfold ctrv. rewrite H5.
  generalize (vnth 0 p) (vnth 1 p) (vnth 2 p) (vnth 3 p) (vnth 4 p).
  intros px py v yaw yawd.
  pose proof (sin2_cos2 yaw) as Hsc. unfold Rsqr in Hsc.
  destruct (Rgt_dec (Rabs yawd) 0.001) as [Hg|Hs];
    rewrite vnth_cons_S, !vnth_cons_0.
  - split; [|intros Hle; lra].
    assert (Hy : yawd <> 0) by (apply turn_rate_guard; exact Hg).
    set (b := yawd * delta_t).
    pose proof (cos_lower_bound b) as Hb.
    pose proof (cos_minus (yaw + b) yaw) as Hm.
    replace (yaw + b - yaw) with b in Hm by ring.
    pose proof (sin2_cos2 (yaw + b)) as Hsc'. unfold Rsqr in Hsc'.
    match goal with
    | |- ?l <= _ =>
        replace l with ((v / yawd) * (v / yawd) * (2 - 2 * cos b))
    end.
    + replace (v * delta_t * (v * delta_t))
        with ((v / yawd) * (v / yawd) * (b * b))
        by (unfold b; field; exact Hy).
      apply Rmult_le_compat_l; [|exact Hb].
      pose proof (Rle_0_sqr (v / yawd)) as H0. exact H0.
    + rewrite Hm.
      replace (2 - 2 * (cos (yaw + b) * cos yaw + sin (yaw + b) * sin yaw))
        with ((sin (yaw + b) * sin (yaw + b) + cos (yaw + b) * cos (yaw + b))
              + (sin yaw * sin yaw + cos yaw * cos yaw)
              - 2 * (cos (yaw + b) * cos yaw + sin (yaw + b) * sin yaw))
        by (rewrite Hsc, Hsc'; ring).
      ring.
  - assert (E : (px + v * delta_t * cos yaw
                 + 0.5 * 0 * delta_t * delta_t * cos yaw - px)
                * (px + v * delta_t * cos yaw
                   + 0.5 * 0 * delta_t * delta_t * cos yaw - px)
                + (py + v * delta_t * sin yaw
                   + 0.5 * 0 * delta_t * delta_t * sin yaw - py)
                  * (py + v * delta_t * sin yaw
                     + 0.5 * 0 * delta_t * delta_t * sin yaw - py)
                = v * delta_t * (v * delta_t)).
    { transitivity
        (v * delta_t * (v * delta_t)
         * (sin yaw * sin yaw + cos yaw * cos yaw)); [ring|].
      rewrite Hsc. ring. }
    split; [rewrite E; lra | intros _; exact E].
Qed.

(** A point turning at 0.5 rad/s, 50 ms. *)
Lemma ctrv_displacement_bounded_witness :
  let p := [1; 2; 5; 0.3; 0.5; 0; 0.1] in
  let dx := vnth 0 (ctrv 0.05 p) - vnth 0 p in
  let dy := vnth 1 (ctrv 0.05 p) - vnth 1 p in
  dx * dx + dy * dy <= (vnth 2 p * 0.05) * (vnth 2 p * 0.05) /\
  (Rabs (vnth 4 p) <= 0.001 ->
   dx * dx + dy * dy = (vnth 2 p * 0.05) * (vnth 2 p * 0.05)).
Proof.
  exact (ctrv_displacement_bounded 0.05 [1; 2; 5; 0.3; 0.5; 0; 0.1] eq_refl).
Defined.

(** ** What a lidar update does to the uncertainty *)

(** The quadratic form of the inverse of a positive definite 2x2
    matrix. *)
Lemma quad2_nonneg s00 s01 s11 a b :
  0 < s00 -> 0 < s00 * s11 - s01 * s01 ->
  0 <= (s11 * (a * a) - 2 * (s01 * (a * b)) + s00 * (b * b))
       / (s00 * s11 - s01 * s01).
Proof.
  intros H0 Hd.
  set (d := s00 * s11 - s01 * s01) in *.
  assert (Hn : 0 <= s11 * (a * a) - 2 * (s01 * (a * b)) + s00 * (b * b)).
  { apply Rmult_le_reg_l with s00; [exact H0|].
    replace (s00 * (s11 * (a * a) - 2 * (s01 * (a * b)) + s00 * (b * b)))
      with ((s00 * b - s01 * a) * (s00 * b - s01 * a) + d * (a * a))
      by (unfold d; ring).
    pose proof (Rle_0_sqr (s00 * b - s01 * a)) as H1.
    pose proof (Rle_0_sqr a) as H2. unfold Rsqr in H1, H2.
    assert (0 <= d * (a * a)) by (apply Rmult_le_pos; lra).
    lra. }
  apply Rmult_le_pos; [exact Hn|].
  apply Rlt_le, Rinv_0_lt_compat. exact Hd.
Qed.

(** X10: a lidar update never adds uncertainty: for a symmetric
    positive semi-definite covariance and nonzero lidar noise, the
    covariance before the update minus the covariance after it is
    positive semi-definite, so no direction of the state has a larger
    variance after the update than before. *)
Theorem UpdateLidar_reduces_uncertainty (st : UKF) (m : MeasurementPackage) :
  length (x_ st) = n_x_ -> has_dims n_x_ n_x_ (P_ st) ->
  symmetric n_x_ (P_ st) -> psd n_x_ (P_ st) ->
  std_laspx_ st <> 0 -> std_laspy_ st <> 0 ->
  psd n_x_ (msub (P_ st) (P_ (UpdateLidar st m))).
Proof.
  intros Hx HP Hsym Hpsd Hrx Hry.
  pose proof (lidar_S_det_pos st HP Hsym Hpsd Hrx Hry) as Hd.
  rewrite UpdateLidar_cov by assumption.
  rewrite (lidar_S_closed st HP) in *.
  revert HP Hsym Hpsd Hrx Hry Hd.
  generalize (std_laspx_ st) (std_laspy_ st) (P_ st).
  intros rx ry P HP Hsym Hpsd Hrx Hry Hd u Hu.
  change n_x_ with 5%nat in *.
  explode_mat P HP.
  use_symmetry Hsym.
  unfold Closed.corrected_cov, Closed.gain, inverse2, Closed.innovation_cov,
    det2 in *.
  cbv [mnth vnth nth] in Hd.
  match type of Hpsd with
  | psd 5 [ [?p00; ?p01; ?p02; ?p03; ?p04]; [_; ?p11; ?p12; ?p13; ?p14];
            _; _; _ ] =>
      match goal with
      | |- 0 <= dot [?u0; ?u1; ?u2; ?u3; ?u4] _ =>
          pose (b0 := p00 * u0 + p01 * u1 + p02 * u2 + p03 * u3 + p04 * u4);
          pose (b1 := p01 * u0 + p11 * u1 + p12 * u2 + p13 * u3 + p14 * u4);
          pose proof (Hpsd [1; 0; 0; 0; 0] eq_refl) as H00;
          pose proof (quad2_nonneg (p00 + rx * rx) p01 (p11 + ry * ry)
                        b0 b1) as Hq
      end
  end.
  cbv [mnth vnth nth map seq dot mv] in H00.
  assert (Hs : 0 < rx * rx).
  { pose proof (Rle_0_sqr rx) as H. unfold Rsqr in H.
    destruct (Rle_lt_dec (rx * rx) 0) as [H'|H']; [|exact H'].
    exfalso. apply Hrx. nra. }
  specialize (Hq ltac:(lra) Hd).
  cbv [mnth vnth nth map seq n_x_ dot mv msub vsub].
  match goal with
  | |- 0 <= ?e =>
      match type of Hq with
      | 0 <= ?h => replace e with h by (unfold b0, b1; field; lra)
      end
  end.
  exact Hq.
Qed.

(** The constructor's state and the laser record (1, 2). *)
Lemma UpdateLidar_reduces_uncertainty_witness :
  psd n_x_ (msub (P_ UKF_new)
                 (P_ (UpdateLidar UKF_new
                        (mkMeas 1477010443050000 LASER [1; 2])))).
Proof.
  refine (UpdateLidar_reduces_uncertainty UKF_new
            (mkMeas 1477010443050000 LASER [1; 2]) eq_refl _
            UKF_new_cov_symmetric UKF_new_cov_psd _ _).
  - split; [reflexivity|]. repeat constructor.
  - unfold UKF_new. cbn [std_laspx_]. lra.
  - unfold UKF_new. cbn [std_laspy_]. lra.
Defined.

(** X11: the lidar NIS is never negative when the covariance is
    symmetric positive semi-definite and the lidar noise is not zero. *)
Theorem NIS_laser_nonnegative (st : UKF) (m : MeasurementPackage) :
  length (x_ st) = n_x_ -> has_dims n_x_ n_x_ (P_ st) ->
  symmetric n_x_ (P_ st) -> psd n_x_ (P_ st) ->
  std_laspx_ st <> 0 -> std_laspy_ st <> 0 ->
  length (raw_measurements_ m) = 2%nat ->
  0 <= NIS_laser_ (UpdateLidar st m).
Proof.
  intros Hx HP Hsym Hpsd Hrx Hry Hz.
  pose proof (lidar_S_det_pos st HP Hsym Hpsd Hrx Hry) as Hd.
  unfold UpdateLidar, set_NIS_laser, set_P, set_x. cbn [NIS_laser_].
  rewrite (lidar_y_closed st Hx _ Hz).
  rewrite quad_form_closed;
    [| apply has_dims_inverse2; apply (has_dims_lidar_S st HP) | reflexivity].
  rewrite (lidar_S_closed st HP) in *.
  generalize (Closed.innovation (x_ st) (raw_measurements_ m)). intros y.
  revert HP Hsym Hpsd Hrx Hry Hd.
  generalize (std_laspx_ st) (std_laspy_ st) (P_ st).
  intros rx ry P HP Hsym Hpsd Hrx Hry Hd.
  change n_x_ with 5%nat in *.
  explode_mat P HP.
  use_symmetry Hsym.
  change (inverse (Closed.innovation_cov ?P rx ry))
    with (inverse2 (Closed.innovation_cov P rx ry)).
  unfold Closed.nis2, inverse2, Closed.innovation_cov, det2 in *.
  cbv [mnth vnth nth] in Hd.
  match type of Hpsd with
  | psd 5 [ [?p00; ?p01; _; _; _]; [_; ?p11; _; _; _]; _; _; _ ] =>
      pose proof (Hpsd [1; 0; 0; 0; 0] eq_refl) as H00;
      pose proof (quad2_nonneg (p00 + rx * rx) p01 (p11 + ry * ry)
                    (vnth 0 y) (vnth 1 y)) as Hq
  end.
  cbv [mnth vnth nth map seq dot mv] in H00.
  assert (Hs : 0 < rx * rx).
  { pose proof (Rle_0_sqr rx) as H. unfold Rsqr in H.
    destruct (Rle_lt_dec (rx * rx) 0) as [H'|H']; [|exact H'].
    exfalso. apply Hrx. nra. }
  specialize (Hq ltac:(lra) Hd).
  revert Hq. generalize (vnth 0 y) (vnth 1 y). intros y0 y1 Hq.
  cbv [mnth vnth nth].
  match goal with
  | |- 0 <= ?e =>
      match type of Hq with
      | 0 <= ?h => replace e with h by (field; lra)
      end
  end.
  exact Hq.
Qed.

(** The constructor's state and the laser record (1, 2). *)
Lemma NIS_laser_nonnegative_witness :
  0 <= NIS_laser_ (UpdateLidar UKF_new
                     (mkMeas 1477010443050000 LASER [1; 2])).
Proof.
  refine (NIS_laser_nonnegative UKF_new
            (mkMeas 1477010443050000 LASER [1; 2]) eq_refl _
            UKF_new_cov_symmetric UKF_new_cov_psd _ _ eq_refl).
  - split; [reflexivity|]. repeat constructor.
  - unfold UKF_new. cbn [std_laspx_]. lra.
  - unfold UKF_new. cbn [std_laspy_]. lra.
Defined.

(** ** A measurement that agrees with the prediction *)

(** X12: where the innovation covariance has an inverse, a lidar record
    that repeats the two position entries of the mean changes no entry
    of the mean and gives the lidar NIS 0. *)
Theorem UpdateLidar_agreeing_measurement (st : UKF) (m : MeasurementPackage) :
  length (x_ st) = n_x_ -> has_dims n_x_ n_x_ (P_ st) ->
  det2 (lidar_S st) <> 0 ->
  raw_measurements_ m = [vnth 0 (x_ st); vnth 1 (x_ st)] ->
  x_ (UpdateLidar st m) = x_ st /\ NIS_laser_ (UpdateLidar st m) = 0.
Proof.
  intros Hx HP _ Hz.
  assert (Ey : lidar_y st (raw_measurements_ m) = [0; 0]).
  { rewrite (lidar_y_closed st Hx) by (rewrite Hz; reflexivity).
    unfold Closed.innovation. rewrite Hz.
    rewrite vnth_cons_S, !vnth_cons_0. f_equal; [ring|f_equal; ring]. }
  unfold UpdateLidar, set_NIS_laser, set_P, set_x. cbn [x_ NIS_laser_].
  rewrite Ey. split.
  - rewrite (lidar_mean_closed st Hx (lidar_K st) [0; 0]
               (has_dims_lidar_K st HP) eq_refl).
    unfold Closed.corrected_mean.
    generalize (lidar_K st). intros K.
    apply vec_ext.
    + rewrite length_map_seq. symmetry. exact Hx.
    + intros j Hj. rewrite length_map_seq in Hj.
      rewrite vnth_map_seq by exact Hj.
      rewrite vnth_cons_S, !vnth_cons_0. ring.
  - rewrite quad_form_closed;
      [| apply has_dims_inverse2; apply (has_dims_lidar_S st HP)
       | reflexivity].
    generalize (inverse (lidar_S st)). intros Si.
    unfold Closed.nis2. rewrite vnth_cons_S, !vnth_cons_0. ring.
Qed.

(** The constructor's state, mean (1, 1, 9, 0, 0), and the laser record
    (1, 1); the gain of that state is not zero. *)
Lemma UpdateLidar_agreeing_measurement_witness :
  x_ (UpdateLidar UKF_new (mkMeas 0 LASER [1; 1])) = x_ UKF_new /\
  NIS_laser_ (UpdateLidar UKF_new (mkMeas 0 LASER [1; 1])) = 0.
Proof.
  assert (HP : has_dims n_x_ n_x_ (P_ UKF_new)).
  { split; [reflexivity|]. repeat constructor. }
  refine (UpdateLidar_agreeing_measurement UKF_new (mkMeas 0 LASER [1; 1])
            eq_refl HP _ eq_refl).
  assert (Hd : 0 < det2 (lidar_S UKF_new)).
  { apply (lidar_S_det_pos UKF_new HP UKF_new_cov_symmetric UKF_new_cov_psd).
    - unfold UKF_new. cbn [std_laspx_]. lra.
    - unfold UKF_new. cbn [std_laspy_]. lra. }
  lra.
Defined.

Lemma length_radar_z_pred st : length (radar_z_pred st) = n_z_radar.
Proof.
  rewrite radar_z_pred_closed. unfold ClosedRadar.measurement_mean.
  apply length_map_seq.
Qed.

Lemma has_dims_radar_K st :
  length (x_ st) = n_x_ ->
  (forall i, (i < n_sig)%nat -> length (nth i (Xsig_pred_ st) []) = n_x_) ->
  has_dims n_x_ n_z_radar (radar_K st).
Proof.
  intros Hx HX. unfold radar_K.
  rewrite radar_gain_closed.
  - unfold ClosedRadar.gain. apply has_dims_map_seq.
  - apply has_dims_radar_Tc; assumption.
  - apply has_dims_inverse3. apply (proj1 (has_dims_radar_S st)).
Qed.

(** X13: where the measurement covariance S has an inverse, a radar
    record equal to the predicted measurement mean changes no entry of
    the mean and gives the radar NIS 0: the residual is zero in every
    component, the bearing component after its normalization too. *)
Theorem UpdateRadar_agreeing_measurement (st : UKF) (m : MeasurementPackage) :
  length (x_ st) = n_x_ ->
  (forall i, (i < n_sig)%nat -> length (nth i (Xsig_pred_ st) []) = n_x_) ->
  det3 (radar_S st) <> 0 ->
  raw_measurements_ m = radar_z_pred st ->
  x_ (UpdateRadar st m) = x_ st /\ NIS_radar_ (UpdateRadar st m) = 0.
Proof.
  intros Hx HX _ Hz.
  pose proof (length_radar_z_pred st) as Hl.
  assert (Er : radar_residual st (raw_measurements_ m) = [0; 0; 0]).
  { unfold radar_residual. rewrite Hz.
    rewrite residual_closed by exact Hl.
    unfold ClosedRadar.residual, n_z_radar. cbn [seq map].
    unfold Closed.angle_at. cbn [Nat.eqb].
    rewrite <- normalize_angle_closed.
    replace (vnth 0 (radar_z_pred st) - vnth 0 (radar_z_pred st))
      with 0 by ring.
    replace (vnth 1 (radar_z_pred st) - vnth 1 (radar_z_pred st))
      with 0 by ring.
    replace (vnth 2 (radar_z_pred st) - vnth 2 (radar_z_pred st))
      with 0 by ring.
    rewrite normalize_angle_0. reflexivity. }
  unfold UpdateRadar, set_NIS_radar, set_P, set_x. cbn [x_ NIS_radar_].
  rewrite Er. split.
  - rewrite (radar_mean_closed (x_ st) (radar_K st) [0; 0; 0] Hx
               (has_dims_radar_K st Hx HX) eq_refl).
    unfold ClosedRadar.corrected_mean.
    generalize (radar_K st). intros K.
    apply vec_ext.
    + rewrite length_map_seq. symmetry. exact Hx.
    + intros j Hj. rewrite length_map_seq in Hj.
      rewrite vnth_map_seq by exact Hj.
      unfold n_z_radar. rewrite sum_upto_3.
      rewrite !vnth_cons_S, !vnth_cons_0. ring.
  - rewrite radar_nis_closed;
      [| reflexivity
       | apply has_dims_inverse3; apply (proj1 (has_dims_radar_S st)) ].
    generalize (inverse (radar_S st)). intros Si.
    unfold ClosedRadar.nis, n_z_radar. rewrite !sum_upto_3.
    rewrite !vnth_cons_S, !vnth_cons_0. ring.
Qed.

(** The filter on the x axis with spread sigma points, whose gain is
    not zero (100/103 for position x and for speed), and the radar
    record (5, 0, 1) its measurement function predicts. *)
Lemma UpdateRadar_agreeing_measurement_witness :
  let st := axis_state (P_ UKF_new) in
  let m := mkMeas 0 RADAR [5; 0; 1] in
  mnth 0 0 (radar_K st) = 100 / 103 /\
  raw_measurements_ m = radar_z_pred st /\
  x_ (UpdateRadar st m) = x_ st /\
  NIS_radar_ (UpdateRadar st m) = 0.
Proof.
  intros st m.
  assert (Hz : raw_measurements_ m = radar_z_pred st).
  { unfold st. rewrite axis_z_pred. reflexivity. }
  split; [unfold st; rewrite axis_K; reflexivity|].
  split; [exact Hz|].
  refine (UpdateRadar_agreeing_measurement st m eq_refl _
            (axis_det (P_ UKF_new)) Hz).
  intros i Hi. change n_sig with 15%nat in Hi.
  do 15 (destruct i as [|i]; [reflexivity|]). lia.
Defined.

(** ** The predicted covariance of speed and turn rate *)

Section LinearEntries.

Variable st : UKF.
Variable delta_t : R.
Hypothesis Hx : length (x_ st) = n_x_.
Hypothesis HP : has_dims n_x_ n_x_ (P_ st).

Let L := cholesky (augmented_cov st).
Let s := sqrt (lambda_ + INR n_aug_).
Let X := Xsig_pred_ (Prediction st delta_t).

(** Entry [j] of the state is driven by noise entry [j'], linearly. *)
Let driven (j j' : nat) : Prop :=
  (j = 2%nat /\ j' = 5%nat) \/ (j = 4%nat /\ j' = 6%nat).

Lemma driven_point j j' p :
  driven j j' -> vnth j (ctrv delta_t p) = vnth j p + vnth j' p * delta_t.
Proof.
  destruct (ctrv_linear_entries delta_t p) as (E2 & _ & E4).
  intros [[-> ->]|[-> ->]]; assumption.
Qed.

Lemma driven_deviations j j' :
  driven j j' ->
  vnth j (Closed.deviation (nth 0 X []) (x_ (Prediction st delta_t))) = 0 /\
  (forall c, (c < n_aug_)%nat ->
     vnth j (Closed.deviation (nth (1 + c) X []) (x_ (Prediction st delta_t)))
     = s * (mnth j c L + mnth j' c L * delta_t)) /\
  (forall c, (c < n_aug_)%nat ->
     vnth j (Closed.deviation (nth (8 + c) X []) (x_ (Prediction st delta_t)))
     = - (s * (mnth j c L + mnth j' c L * delta_t))).
Proof.
  intros Hd.
  assert (HL : length L = n_aug_).
  { unfold L. rewrite (proj1 (has_dims_cholesky (augmented_cov st))).
    apply length_augmented_cov. exact (proj1 HP). }
  destruct (sigma_points_entries (augmented_mean st) L
              (length_augmented_mean st Hx) HL)
    as (Hlen & Hl & E0 & Ep & Em).
  assert (Hj : (j < n_x_)%nat)
    by (unfold n_x_; destruct Hd as [[-> _]|[-> _]]; lia).
  assert (Hj3 : Nat.eqb j 3 = false)
    by (destruct Hd as [[-> _]|[-> _]]; reflexivity).
  assert (HXi : forall i, (i < n_sig)%nat ->
             vnth j (nth i X [])
             = vnth j (nth i (sigma_points (augmented_mean st) L) [])
               + vnth j' (nth i (sigma_points (augmented_mean st) L) [])
                 * delta_t).
  { intros i Hi. unfold X. rewrite Xsig_pred_Prediction. fold L.
    rewrite (nth_map_lt _ _ i [] []) by (rewrite Hlen; exact Hi).
    apply driven_point. exact Hd. }
  assert (Em' : vnth j (x_ (Prediction st delta_t)) = vnth j (x_ st)).
  { destruct (predicted_mean_linear st delta_t Hx (proj1 HP))
      as (M2 & _ & M4).
    destruct Hd as [[-> _]|[-> _]]; assumption. }
  assert (Ea : vnth j (augmented_mean st) = vnth j (x_ st)).
  { apply vnth_augmented_mean. rewrite Hx. exact Hj. }
  assert (Ea' : vnth j' (augmented_mean st) = 0).
  { unfold augmented_mean, vnth.
    destruct Hd as [[_ ->]|[_ ->]];
      rewrite app_nth2 by (rewrite Hx; unfold n_x_; lia);
      rewrite Hx; reflexivity. }
  unfold Closed.deviation, Closed.angle_at.
  split; [|split].
  - rewrite vnth_map_seq by exact Hj. rewrite Hj3.
    rewrite HXi by (unfold n_sig, n_aug_; lia).
    rewrite (E0 j), (E0 j'), Em', Ea, Ea'. ring.
  - intros c Hc. rewrite vnth_map_seq by exact Hj. rewrite Hj3.
    rewrite HXi by (unfold n_sig, n_aug_ in *; lia).
    rewrite (Ep c Hc j), (Ep c Hc j'), Em', Ea, Ea'. fold s. ring.
  - intros c Hc. rewrite vnth_map_seq by exact Hj. rewrite Hj3.
    rewrite HXi by (unfold n_sig, n_aug_ in *; lia).
    rewrite (Em c Hc j), (Em c Hc j'), Em', Ea, Ea'. fold s. ring.
Qed.

Lemma driven_cov j j' k k' :
  driven j j' -> driven k k' ->
  mnth j k (P_ (Prediction st delta_t))
  = sum_upto n_aug_
      (fun c => (mnth j c L + mnth j' c L * delta_t)
                * (mnth k c L + mnth k' c L * delta_t)).
Proof.
  intros Hdj Hdk.
  assert (Hj : (j < n_x_)%nat)
    by (unfold n_x_; destruct Hdj as [[-> ->]|[-> ->]]; lia).
  assert (Hk : (k < n_x_)%nat)
    by (unfold n_x_; destruct Hdk as [[-> ->]|[-> ->]]; lia).
  destruct (Prediction_closed st delta_t) as [Ex EP].
  rewrite EP, <- Ex. fold X.
  unfold ClosedPrediction.covariance.
  rewrite (mnth_map_seq _ n_x_ n_x_) by assumption.
  destruct (driven_deviations j j' Hdj) as (J0 & Jp & Jm).
  destruct (driven_deviations k k' Hdk) as (K0 & Kp & Km).
  unfold Closed.wsum. rewrite sum_upto_n_sig.
  destruct weights_entries as [W0 W].
  rewrite W0, !W by (change n_sig with 15%nat; lia).
  rewrite J0, K0.
  rewrite7 Jp.
  rewrite7 Jm.
  rewrite7 Kp.
  rewrite7 Km.
  change n_aug_ with 7%nat. unfold sum_upto. cbn [seq map Rsum fold_right].
  pose proof sqrt_lambda_sq as Hs. fold s in Hs.
  match goal with |- ?lhs = ?rhs =>
    transitivity (s * s / 3 * rhs); [field|rewrite Hs; field] end.
Qed.

End LinearEntries.

(** X14: for a covariance that has a Cholesky factor (a symmetric
    positive definite one), Prediction adds (std_a * delta_t)^2 to the
    variance of the speed and leaves the covariance of speed and turn
    rate as it was; to the variance of the turn rate it adds
    (std_yawdd * delta_t)^2 when std_a is not zero, and
    (std_yawdd^2 * delta_t)^2 when std_a is zero: the factorization of
    the augmented covariance then returns at the zero pivot of std_a
    and the last diagonal entry of the factor is the variance
    std_yawdd^2 itself, not its square root. *)
Theorem Prediction_speed_and_turn_rate_covariance (st : UKF) (delta_t : R) :
  length (x_ st) = n_x_ -> has_factor n_x_ (P_ st) ->
  let P' := P_ (Prediction st delta_t) in
  mnth 2 2 P'
  = mnth 2 2 (P_ st) + (std_a_ st * delta_t) * (std_a_ st * delta_t) /\
  mnth 4 4 P'
  = mnth 4 4 (P_ st)
    + (if Req_dec_T (std_a_ st) 0
       then (std_yawdd_ st * std_yawdd_ st * delta_t)
            * (std_yawdd_ st * std_yawdd_ st * delta_t)
       else (std_yawdd_ st * delta_t) * (std_yawdd_ st * delta_t)) /\
  mnth 2 4 P' = mnth 2 4 (P_ st) /\
  mnth 4 2 P' = mnth 4 2 (P_ st).
Proof.
  intros Hx [G HG] P'. subst P'.
  pose proof (has_dims_of_factor _ _ _ HG) as HP.
  pose proof (cholesky_augmented_cov st G HG) as EL.
  assert (D2 : (2%nat = 2%nat /\ 5%nat = 5%nat)
               \/ (2%nat = 4%nat /\ 5%nat = 6%nat)) by (left; split; reflexivity).
  assert (D4 : (4%nat = 2%nat /\ 6%nat = 5%nat)
               \/ (4%nat = 4%nat /\ 6%nat = 6%nat)) by (right; split; reflexivity).
  pose proof (driven_cov st delta_t Hx HP 2 5 2 5 D2 D2) as E22.
  pose proof (driven_cov st delta_t Hx HP 4 6 4 6 D4 D4) as E44.
  pose proof (driven_cov st delta_t Hx HP 2 5 4 6 D2 D4) as E24.
  pose proof (driven_cov st delta_t Hx HP 4 6 2 5 D4 D2) as E42.
  rewrite E22, E44, E24, E42. clear E22 E44 E24 E42.
  rewrite EL. clear EL HP.
  destruct HG as (HGd & Hlow & _ & HGG). rewrite <- HGG. clear HGG.
  generalize (std_a_ st) (std_yawdd_ st). intros sa sy.
  change n_x_ with 5%nat in *. change n_aug_ with 7%nat.
  explode_mat G HGd. use_lower Hlow.
  unfold augmented_factor.
  pose proof (Rabs_sqr sa) as Ea. pose proof (Rabs_sqr sy) as Ey.
  replace (sa * delta_t * (sa * delta_t))
    with (Rabs sa * Rabs sa * (delta_t * delta_t)) by (rewrite Ea; ring).
  replace (sy * delta_t * (sy * delta_t))
    with (Rabs sy * Rabs sy * (delta_t * delta_t)) by (rewrite Ey; ring).
  clear Ea Ey.
  destruct (Req_dec_T sa 0) as [Za|Na];
    unfold sum_upto, Rsum; mat_eval; cbv [fold_right];
    repeat split; ring.
Qed.

(** Unit covariance, the constructor's process noise (0.5 and 2),
    50 ms: the variance of the speed grows by 0.000625, the variance of
    the turn rate by 0.01. *)
Lemma Prediction_speed_and_turn_rate_covariance_witness :
  let st := sample_state [1; 1; 9; 0; 0] (identity 5) 0.5 2 in
  let P' := P_ (Prediction st 0.05) in
  mnth 2 2 P' = 1 + 0.000625 /\
  mnth 4 4 P' = 1 + 0.01 /\
  mnth 2 4 P' = 0 /\
  mnth 4 2 P' = 0.
Proof.
  intros st P'. subst P'.
  assert (HF : has_factor n_x_ (P_ st)).
  { exists (identity 5). exact identity_factor. }
  destruct (Prediction_speed_and_turn_rate_covariance st 0.05 eq_refl HF)
    as (H22 & H44 & H24 & H42).
  change (std_a_ st) with 0.5 in H22, H44.
  change (std_yawdd_ st) with 2 in H44.
  change (P_ st) with (identity 5) in H22, H44, H24, H42.
  destruct (Req_dec_T 0.5 0) as [Hz|_]; [lra|].
  rewrite H22, H44, H24, H42.
  cbv [identity mnth vnth nth map seq Nat.eqb].
  repeat split; lra.
Defined.

(** ** Only differences of time stamps matter *)

Ltac project_state :=
  cbn [is_initialized_ use_laser_ use_radar_ x_ P_ Xsig_pred_ time_us_
       std_a_ std_yawdd_ std_laspx_ std_laspy_ std_radr_ std_radphi_
       std_radrd_ NIS_radar_ NIS_laser_].

Lemma Prediction_set_time_us st dt t :
  Prediction (set_time_us st t) dt = set_time_us (Prediction st dt) t.
Proof.
  unfold Prediction.
  change (augmented_mean (set_time_us st t)) with (augmented_mean st).
  change (augmented_cov (set_time_us st t)) with (augmented_cov st).
  generalize (map (ctrv dt)
                (sigma_points (augmented_mean st) (cholesky (augmented_cov st)))).
  intros X. unfold set_P, set_x, set_Xsig_pred, set_time_us.
  project_state. reflexivity.
Qed.

Lemma UpdateLidar_set_time_us st m t :
  UpdateLidar (set_time_us st t) m = set_time_us (UpdateLidar st m) t.
Proof.
  unfold UpdateLidar.
  assert (HS : lidar_S (set_time_us st t) = lidar_S st) by reflexivity.
  assert (HK : lidar_K (set_time_us st t) = lidar_K st).
  { unfold lidar_K. rewrite HS. reflexivity. }
  assert (Hy : forall z, lidar_y (set_time_us st t) z = lidar_y st z)
    by reflexivity.
  rewrite HS, HK, Hy.
  generalize (lidar_y st (raw_measurements_ m)) (lidar_S st) (lidar_K st).
  intros y S K. unfold set_NIS_laser, set_P, set_x, set_time_us.
  project_state. reflexivity.
Qed.

Lemma radar_set_time_us st t :
  radar_S (set_time_us st t) = radar_S st /\
  radar_K (set_time_us st t) = radar_K st /\
  (forall z, radar_residual (set_time_us st t) z = radar_residual st z).
Proof.
  assert (HZ : radar_Zsig (set_time_us st t) = radar_Zsig st) by reflexivity.
  assert (Hp : radar_z_pred (set_time_us st t) = radar_z_pred st).
  { unfold radar_z_pred. rewrite HZ. reflexivity. }
  assert (Hd : radar_z_diff (set_time_us st t) = radar_z_diff st).
  { unfold radar_z_diff. rewrite HZ, Hp. reflexivity. }
  assert (HS : radar_S (set_time_us st t) = radar_S st).
  { unfold radar_S. rewrite Hd. reflexivity. }
  assert (HT : radar_Tc (set_time_us st t) = radar_Tc st).
  { unfold radar_Tc. rewrite Hd. reflexivity. }
  split; [exact HS|]. split.
  - unfold radar_K. rewrite HS, HT. reflexivity.
  - intros z. unfold radar_residual. rewrite Hp. reflexivity.
Qed.

Lemma UpdateRadar_set_time_us st m t :
  UpdateRadar (set_time_us st t) m = set_time_us (UpdateRadar st m) t.
Proof.
  unfold UpdateRadar.
  destruct (radar_set_time_us st t) as (-> & -> & Hr). rewrite Hr.
  generalize (radar_residual st (raw_measurements_ m)) (radar_S st) (radar_K st).
  intros y S K. unfold set_NIS_radar, set_P, set_x, set_time_us.
  project_state. reflexivity.
Qed.

Lemma elapsed_shift k st m :
  elapsed (shift_clock k st) (shift_stamp k m) = elapsed st m.
Proof.
  unfold elapsed, shift_clock, shift_stamp, set_time_us.
  cbn [time_us_ timestamp_].
  replace (timestamp_ m + k - (time_us_ st + k))%Z
    with (timestamp_ m - time_us_ st)%Z by lia.
  reflexivity.
Qed.

Lemma ProcessMeasurement_shift k st m :
  ProcessMeasurement (shift_clock k st) (shift_stamp k m)
  = shift_clock k (ProcessMeasurement st m).
Proof.
  assert (Ht : time_us_ (ProcessMeasurement st m) = timestamp_ m)
    by (apply ProcessMeasurement_frame).
  unfold shift_clock at 2. rewrite Ht.
  unfold ProcessMeasurement.
  change (is_initialized_ (shift_clock k st)) with (is_initialized_ st).
  destruct (is_initialized_ st); cbn [negb].
  - rewrite elapsed_shift.
    change (sensor_type_ (shift_stamp k m)) with (sensor_type_ m).
    change (set_time_us (shift_clock k st) (timestamp_ (shift_stamp k m)))
      with (set_time_us (set_time_us st (timestamp_ m)) (timestamp_ m + k)).
    rewrite Prediction_set_time_us.
    destruct (sensor_type_ m).
    + change (UpdateLidar ?s (shift_stamp k m)) with (UpdateLidar s m).
      apply UpdateLidar_set_time_us.
    + change (UpdateRadar ?s (shift_stamp k m)) with (UpdateRadar s m).
      apply UpdateRadar_set_time_us.
  - reflexivity.
Qed.

(** X15: the filter depends on time stamps only through their
    differences: moving the stored time stamp and the time stamps of all
    measurements by the same number of microseconds gives the same
    mean, covariance, sigma points and NIS values after every
    measurement sequence, with the stored time stamp moved by that
    number. *)
Theorem run_time_shift (k : Z) (ms : list MeasurementPackage) (st : UKF) :
  run (shift_clock k st) (map (shift_stamp k) ms) = shift_clock k (run st ms).
Proof.
  revert st. induction ms as [|m ms IH]; intros st.
  - reflexivity.
  - cbn [map]. change (run ?s (?a :: ?l)) with (run (ProcessMeasurement s a) l).
    rewrite ProcessMeasurement_shift. apply IH.
Qed.

(** ** A lidar without noise *)

(** X16: with both lidar noise deviations zero and an invertible
    innovation covariance, the update moves the position of the mean
    onto the measurement and leaves no variance in the two position
    rows of the covariance. *)
Theorem UpdateLidar_exact_sensor (st : UKF) (m : MeasurementPackage) :
  length (x_ st) = n_x_ -> has_dims n_x_ n_x_ (P_ st) ->
  length (raw_measurements_ m) = 2%nat ->
  std_laspx_ st = 0 -> std_laspy_ st = 0 ->
  det2 (lidar_S st) <> 0 ->
  vnth 0 (x_ (UpdateLidar st m)) = vnth 0 (raw_measurements_ m) /\
  vnth 1 (x_ (UpdateLidar st m)) = vnth 1 (raw_measurements_ m) /\
  forall k, (k < n_x_)%nat ->
    mnth 0 k (P_ (UpdateLidar st m)) = 0 /\
    mnth 1 k (P_ (UpdateLidar st m)) = 0.
Proof.
  intros Hx HP Hz Hrx Hry Hd.
  assert (Em : x_ (UpdateLidar st m)
               = Closed.corrected_mean (x_ st)
                   (Closed.gain (P_ st) (inverse2 (lidar_S st)))
                   (Closed.innovation (x_ st) (raw_measurements_ m))).
  { unfold UpdateLidar, set_NIS_laser, set_P, set_x. cbn [x_].
    rewrite (lidar_y_closed st Hx _ Hz).
    rewrite (lidar_mean_closed st Hx (lidar_K st)
               (Closed.innovation (x_ st) (raw_measurements_ m))
               (has_dims_lidar_K st HP) eq_refl).
    rewrite (lidar_K_closed st HP).
    rewrite (lidar_S_closed st HP). reflexivity. }
  rewrite Em, UpdateLidar_cov by assumption. clear Em.
  rewrite (lidar_S_closed st HP) in *. rewrite Hrx, Hry in *.
  revert Hx Hz. generalize (x_ st) (raw_measurements_ m). intros x z Hx Hz.
  revert HP Hd. generalize (P_ st). intros P HP Hd.
  change n_x_ with 5%nat in *.
  explode x Hx. explode z Hz. explode_mat P HP.
  unfold Closed.corrected_mean, Closed.corrected_cov, Closed.gain,
    Closed.innovation, inverse2, Closed.innovation_cov, det2 in *.
  cbv [mnth vnth nth] in Hd.
  split; [|split].
  - cbv [mnth vnth nth map seq n_x_]. field. lra.
  - cbv [mnth vnth nth map seq n_x_]. field. lra.
  - intros k Hk.
    do 5 (destruct k as [|k];
          [cbv [mnth vnth nth map seq n_x_]; split; field; lra|]).
    lia.
Qed.

(** The constructor's covariance with an exact lidar, and the laser
    record (3, 4). *)
Lemma UpdateLidar_exact_sensor_witness :
  let st := mkUKF true true true [1; 1; 9; 0; 0] (P_ UKF_new)
                  (repeat (zeros n_x_) n_sig) 0%Z 0.5 2 0 0 0.3 0.03 0.3 0 0 in
  let m := mkMeas 0 LASER [3; 4] in
  vnth 0 (x_ (UpdateLidar st m)) = 3 /\
  vnth 1 (x_ (UpdateLidar st m)) = 4 /\
  forall k, (k < n_x_)%nat ->
    mnth 0 k (P_ (UpdateLidar st m)) = 0 /\
    mnth 1 k (P_ (UpdateLidar st m)) = 0.
Proof.
  intros st m.
  refine (UpdateLidar_exact_sensor st m eq_refl _ eq_refl eq_refl eq_refl _).
  - split; [reflexivity|]. repeat constructor.
  - rewrite lidar_S_closed by (split; [reflexivity|]; repeat constructor).
    unfold st, Closed.innovation_cov, det2, UKF_new.
    cbv [mnth vnth nth P_ std_laspx_ std_laspy_]. lra.
Defined.
